(** * Meow Parking: a shallow embedding of the puzzle core

    The development follows the TypeScript sources:
    - [types.ts]            the piece record and its enumerations,
    - [constants.ts]        [getDelta], [CAT_SKINS], [BOMB_TIME_SECONDS],
    - [utils/levelGenerator.ts]  [getLevelConfig], [generateLevel], [shuffleCats],
    - [App.tsx]             the move handler [handleCatClick], the flip
                            handler [handleGlobalFlip], the bomb tick and
                            the hint search.

    JavaScript numbers are modelled as exact numbers: [Z] where the code
    only ever produces integers (grid size, loop counters, grid cells,
    timers), [Q] for the piece coordinates, which leave the integers when
    a piece exits ([gridSize * 2.5]).  All values the game computes are
    integers or half-integers of small magnitude, on which IEEE double
    arithmetic is exact. *)

From Stdlib Require Import ZArith QArith Qround Lia Lqa.
From Stdlib Require Import List String DecimalString Permutation Sorted.
From stdpp Require Import base decidable list gmap.
Import ListNotations.

Local Open Scope Z_scope.

(** ** types.ts *)

Inductive Direction := UP | DOWN | LEFT | RIGHT.

Inductive CatType := NORMAL | BOMB.

Record CatEntity := mkCat {
  id : string;
  x : Q;
  y : Q;
  direction : Direction;
  type : CatType;
  timer : option Z;
  color : string;
  isExited : bool;
  isMoving : bool
}.

Record LevelData := mkLevel {
  cats : list CatEntity;
  gridSize : Z;
  level : Z;
  unlockedMessage : option string
}.

(** ** constants.ts *)

Definition BOMB_TIME_SECONDS : Z := 120.

Definition CAT_SKINS : list string :=
  [ "bg-slate-100"; "bg-orange-300"; "bg-slate-400"; "bg-amber-200";
    "bg-stone-600"; "bg-pink-300"; "bg-purple-300"; "bg-teal-300" ]%string.

Record Delta := mkDelta { dx : Z; dy : Z }.

Definition getDelta (dir : Direction) : Delta :=
  match dir with
  | UP => {| dx := 0; dy := -1 |}
  | DOWN => {| dx := 0; dy := 1 |}
  | LEFT => {| dx := -1; dy := 0 |}
  | RIGHT => {| dx := 1; dy := 0 |}
  end.

(** ** Number helpers *)

(** [a < b] and [a >= b] on coordinates, as booleans. *)
Definition Qltb (a b : Q) : bool := negb (Qle_bool b a).
Definition Qgeb (a b : Q) : bool := Qle_bool b a.

(** [Math.round]: the nearest integer, halves rounded up. *)
Definition Math_round (q : Q) : Z := Qfloor (q + (1 # 2))%Q.

(** The tail cell of a piece, [head - delta(direction)]. *)
Definition tailX (c : CatEntity) : Q := (x c - inject_Z (dx (getDelta (direction c))))%Q.
Definition tailY (c : CatEntity) : Q := (y c - inject_Z (dy (getDelta (direction c))))%Q.

(** ** App.tsx: the move handler *)

(** [cats.findIndex(c => c.id === id)]; [None] stands for [-1]. *)
Fixpoint findIndex {A} (p : A -> bool) (l : list A) : option nat :=
  match l with
  | [] => None
  | a :: l' => if p a then Some O else option_map S (findIndex p l')
  end.

(** The predicate of [cats.find] inside the raycast: does [c] obstruct
    the cell [(nextX, nextY)] for the piece called [ident]? *)
Definition obstructs (ident : string) (nextX nextY : Q) (c : CatEntity) : bool :=
  if (String.eqb (id c) ident || isExited c)%bool then false
  else if (Qeq_bool (inject_Z (Math_round (x c))) nextX
           && Qeq_bool (inject_Z (Math_round (y c))) nextY)%bool then true
  else if (Qeq_bool (inject_Z (Math_round (tailX c))) nextX
           && Qeq_bool (inject_Z (Math_round (tailY c))) nextY)%bool then true
  else false.

Definition outOfGrid (gs : Z) (nx ny : Q) : bool :=
  (Qltb nx 0 || Qgeb nx (inject_Z gs) || Qltb ny 0 || Qgeb ny (inject_Z gs))%bool.

Record RayResult := mkRay { targetX : Q; targetY : Q; willExit : bool }.

(** The [for (let step = 1; step <= gridSize; step++)] loop: [n] counts
    the iterations that remain, [tx], [ty] are the current target. *)
Fixpoint raycastLoop (gs : Z) (cs : list CatEntity) (cat : CatEntity)
    (n : nat) (step : Z) (tx ty : Q) : RayResult :=
  match n with
  | O => mkRay tx ty false
  | S n' =>
      let ddx := inject_Z (dx (getDelta (direction cat))) in
      let ddy := inject_Z (dy (getDelta (direction cat))) in
      let nextX := (x cat + ddx * inject_Z step)%Q in
      let nextY := (y cat + ddy * inject_Z step)%Q in
      if outOfGrid gs nextX nextY then
        mkRay (nextX + ddx * (inject_Z gs * (5 # 2)))%Q
              (nextY + ddy * (inject_Z gs * (5 # 2)))%Q true
      else
        match find (obstructs (id cat) nextX nextY) cs with
        | Some _ => mkRay (nextX - ddx)%Q (nextY - ddy)%Q false
        | None => raycastLoop gs cs cat n' (step + 1) nextX nextY
        end
  end.

Definition raycast (gs : Z) (cs : list CatEntity) (cat : CatEntity) : RayResult :=
  raycastLoop gs cs cat (Z.to_nat gs) 1 (x cat) (y cat).

(** The piece written back by the handler after a real move. *)
Definition moved (cat : CatEntity) (r : RayResult) : CatEntity :=
  {| id := id cat; x := targetX r; y := targetY r; direction := direction cat;
     type := type cat; timer := timer cat; color := color cat;
     isExited := willExit r; isMoving := true |}.

(** The body of [handleCatClick] once its guards are passed (the game
    is being played, nothing animates, no tool is active); the spec
    calls it [resolveMove].  The result is the list given to [setCats],
    or [None] when the handler returns without calling it. *)
Definition resolveMove (gs : Z) (cs : list CatEntity) (ident : string)
    : option (list CatEntity) :=
  match findIndex (fun c => String.eqb (id c) ident) cs with
  | None => None
  | Some catIndex =>
      match cs !! catIndex with
      | None => None
      | Some cat =>
          if isExited cat then None
          else
            let r := raycast gs cs cat in
            if (Qeq_bool (targetX r) (x cat) && Qeq_bool (targetY r) (y cat))%bool
            then None
            else Some (<[catIndex := moved cat r]> cs)
      end
  end.

(** The piece list held by the driver after the click. *)
Definition handleCatClick (gs : Z) (cs : list CatEntity) (ident : string)
    : list CatEntity :=
  match resolveMove gs cs ident with
  | Some cs' => cs'
  | None => cs
  end.

(** ** App.tsx: the flip handler *)

Definition flipCat (cat : CatEntity) : CatEntity :=
  if isExited cat then cat
  else
    let newDir :=
      match direction cat with
      | UP => DOWN
      | DOWN => UP
      | LEFT => RIGHT
      | RIGHT => LEFT
      end in
    let delta := getDelta (direction cat) in
    {| id := id cat;
       x := (x cat - inject_Z (dx delta))%Q;
       y := (y cat - inject_Z (dy delta))%Q;
       direction := newDir;
       type := type cat; timer := timer cat; color := color cat;
       isExited := isExited cat; isMoving := isMoving cat |}.

Definition flipAll (cs : list CatEntity) : list CatEntity := map flipCat cs.

(** ** App.tsx: the bomb tick *)

Definition isLiveBomb (cat : CatEntity) : option Z :=
  match type cat, isExited cat, timer cat with
  | BOMB, false, Some t => Some t
  | _, _, _ => None
  end.

Definition tickCat (cat : CatEntity) : CatEntity :=
  match isLiveBomb cat with
  | Some t =>
      if t <=? 0 then cat
      else {| id := id cat; x := x cat; y := y cat; direction := direction cat;
              type := type cat; timer := Some (t - 1); color := color cat;
              isExited := isExited cat; isMoving := isMoving cat |}
  | None => cat
  end.

Definition tickChanges (cat : CatEntity) : bool :=
  match isLiveBomb cat with
  | Some t => negb (t <=? 0)
  | None => false
  end.

Definition tickGameOver (cat : CatEntity) : bool :=
  match isLiveBomb cat with
  | Some t => t <=? 0
  | None => false
  end.

(** The updater passed to [setCats] by the interval, and whether it
    signals the lost game. *)
Definition bombTick (cs : list CatEntity) : list CatEntity * bool :=
  let nextCats := map tickCat cs in
  (if existsb tickChanges cs then nextCats else cs, existsb tickGameOver cs).

(** ** App.tsx: the hint search *)

Definition active (c : CatEntity) : bool := negb (isExited c).

(** The predicate of [activeCats.some] in the hint search. *)
Definition hintBlocks (cat : CatEntity) (nx ny : Q) (other : CatEntity) : bool :=
  if String.eqb (id other) (id cat) then false
  else if (Qeq_bool (inject_Z (Math_round (x other))) nx
           && Qeq_bool (inject_Z (Math_round (y other))) ny)%bool then true
  else if (Qeq_bool (inject_Z (Math_round (tailX other))) nx
           && Qeq_bool (inject_Z (Math_round (tailY other))) ny)%bool then true
  else false.

Fixpoint hintLoop (gs : Z) (activeCats : list CatEntity) (cat : CatEntity)
    (n : nat) (step : Z) : bool :=
  match n with
  | O => false
  | S n' =>
      let nx := (x cat + inject_Z (dx (getDelta (direction cat))) * inject_Z step)%Q in
      let ny := (y cat + inject_Z (dy (getDelta (direction cat))) * inject_Z step)%Q in
      if outOfGrid gs nx ny then true
      else if existsb (hintBlocks cat nx ny) activeCats then false
      else hintLoop gs activeCats cat n' (step + 1)
  end.

Definition canExit (gs : Z) (activeCats : list CatEntity) (cat : CatEntity) : bool :=
  hintLoop gs activeCats cat (Z.to_nat gs) 1.

Definition findHint (gs : Z) (cs : list CatEntity) : option CatEntity :=
  let activeCats := List.filter active cs in
  find (canExit gs activeCats) activeCats.

Definition hintCatId (gs : Z) (cs : list CatEntity) : option string :=
  option_map id (findHint gs cs).

(** ** Array.prototype.sort *)

(** [Array.prototype.sort] is stable; with a comparator that orders its
    arguments consistently its result is the stable sorted permutation,
    computed here by insertion. *)
Fixpoint insertBy {A} (cmp : A -> A -> Q) (a : A) (l : list A) : list A :=
  match l with
  | [] => [a]
  | b :: l' => if Qle_bool (cmp a b) 0 then a :: b :: l' else b :: insertBy cmp a l'
  end.

Definition Array_sort {A} (cmp : A -> A -> Q) (l : list A) : list A :=
  fold_right (insertBy cmp) [] l.

(** [(a, b) => (a.y - b.y) || (a.x - b.x)] *)
Definition rowMajor (a b : CatEntity) : Q :=
  let d := (y a - y b)%Q in
  if Qeq_bool d 0 then (x a - x b)%Q else d.

(** ** utils/levelGenerator.ts *)

Record LevelConfig := mkConfig {
  size : Z;
  skinCount : Z;
  bombChance : Q;
  unlockMsg : option string
}.

Definition getLevelConfig (lvl : Z) : LevelConfig :=
  let size := 8 in
  let size := if 5 <=? lvl then 9 else size in
  let size := if 10 <=? lvl then 10 else size in
  let size := if 20 <=? lvl then 11 else size in
  let skinCount := Z.min (Z.of_nat (length CAT_SKINS)) (2 + (lvl - 1) / 3) in
  let bombChance := 0%Q in
  let bombChance := if 5 <=? lvl then (5 # 100)%Q else bombChance in
  let bombChance := if 15 <=? lvl then (10 # 100)%Q else bombChance in
  let bombChance := if 30 <=? lvl then (15 # 100)%Q else bombChance in
  let unlockMsg :=
    if lvl =? 1 then Some "Tap cats to clear!"%string
    else if lvl =? 5 then Some "⚠️ Bomb Cats & Bigger Grid!"%string
    else None in
  mkConfig size skinCount bombChance unlockMsg.

Definition isValid (cx cy gs : Z) : bool :=
  (0 <=? cx) && (cx <? gs) && (0 <=? cy) && (cy <? gs).

Definition getOppositeDir (dir : Direction) : Direction :=
  match dir with
  | UP => DOWN
  | DOWN => UP
  | LEFT => RIGHT
  | RIGHT => LEFT
  end.

(** A grid cell [{x, y}]; the occupancy set holds the cells whose key
    ["x,y"] was added. *)
Abbreviation Cell := (Z * Z)%type.

Definition markOccupied (cx cy : Z) (occupied : gset Cell) : gset Cell :=
  {[ (cx, cy) ]} ∪ occupied.

Definition isOccupied (cx cy : Z) (occupied : gset Cell) : bool :=
  bool_decide ((cx, cy) ∈ occupied).

(** The two nested loops that enumerate the grid, rows first. *)
Definition allCells (gs : Z) : list Cell :=
  flat_map (fun cy => map (fun cx => (cx, cy)) (seqZ 0 gs)) (seqZ 0 gs).

(** The comparator of the center-out sort is [distA - distB] with
    [dist = Math.hypot(x - gridSize/2, y - gridSize/2)].  The sort only
    reads its sign, which is the sign of the difference of the squared
    distances. *)
Definition dist2 (gs : Z) (c : Cell) : Q :=
  let cx := (inject_Z (fst c) - inject_Z gs / 2)%Q in
  let cy := (inject_Z (snd c) - inject_Z gs / 2)%Q in
  (cx * cx + cy * cy)%Q.

Definition byDistance (gs : Z) (a b : Cell) : Q := (dist2 gs a - dist2 gs b)%Q.

(** [arr.slice(0, end)] *)
Definition slice0 {A} (l : list A) (e : Z) : list A :=
  if e <? 0 then take (Z.to_nat (Z.of_nat (length l) + e)) l
  else take (Z.to_nat e) l.

(** [[a[i], a[j]] = [a[j], a[i]]] *)
Definition swap {A} (l : list A) (i j : nat) : list A :=
  match l !! i, l !! j with
  | Some a, Some b => <[j := a]> (<[i := b]> l)
  | _, _ => l
  end.

Section Randomness.

(** [random n] is the value of the [n]-th call of [Math.random()];
    the state threaded through the generator counts the calls made. *)
Variable random : nat -> Q.

(** [randomSort l n] is the outcome of [l.sort(() => Math.random() - 0.5)]
    started after [n] calls: the new order and the calls made then. *)
Variable randomSort : forall A : Type, list A -> nat -> list A * nat.

(** [toBase36 r] is [r.toString(36).substr(2, 9)]. *)
Variable toBase36 : Q -> string.

Definition Rand (A : Type) : Type := nat -> A * nat.

Definition ret {A} (a : A) : Rand A := fun s => (a, s).

Definition bind {A B} (m : Rand A) (f : A -> Rand B) : Rand B :=
  fun s => let (a, s') := m s in f a s'.

Notation "'let*' v ':=' m 'in' k" := (bind m (fun v => k))
  (at level 10, v name, m at level 100, k at level 200).

Definition Math_random : Rand Q := fun s => (random s, S s).

(** [Math.floor(Math.random() * n)] *)
Definition randomBelow (n : Z) : Rand Z :=
  let* r := Math_random in ret (Qfloor (r * inject_Z n)).

Definition genId : Rand string :=
  let* r := Math_random in ret (toBase36 r).

(** The Fisher-Yates loop [for (let i = length - 1; i > 0; i--)]. *)
Fixpoint fisherYates (i : nat) (directions : list Direction)
    : Rand (list Direction) :=
  match i with
  | O => ret directions
  | S i' =>
      let* j := randomBelow (Z.of_nat i + 1) in
      fisherYates i' (swap directions i (Z.to_nat j))
  end.

Definition GenState : Type := list CatEntity * gset Cell.

(** The inner [for (const dir of directions)] loop of [generateLevel]. *)
Fixpoint tryDirections (config : LevelConfig) (gs : Z) (cell : Cell)
    (directions : list Direction) (st : GenState) : Rand GenState :=
  match directions with
  | [] => ret st
  | dir :: rest =>
      let delta := getDelta dir in
      let tX := fst cell - dx delta in
      let tY := snd cell - dy delta in
      if isValid tX tY gs && negb (isOccupied tX tY (snd st)) then
        let* r := Math_random in
        let isBomb := Qltb r (bombChance config) in
        let availableSkins := slice0 CAT_SKINS (skinCount config) in
        let* k := randomBelow (Z.of_nat (length availableSkins)) in
        let skin := nth (Z.to_nat k) availableSkins ""%string in
        let oppositeDir := getOppositeDir dir in
        let* i := genId in
        ret (fst st ++
               [ {| id := i; x := inject_Z tX; y := inject_Z tY;
                    direction := oppositeDir;
                    type := if isBomb then BOMB else NORMAL;
                    timer := if isBomb then Some BOMB_TIME_SECONDS else None;
                    color := skin; isExited := false; isMoving := false |} ],
             markOccupied tX tY (markOccupied (fst cell) (snd cell) (snd st)))
      else tryDirections config gs cell rest st
  end.

(** The outer [for (const cell of allCells)] loop of [generateLevel]. *)
Fixpoint placeCats (config : LevelConfig) (gs targetCatCount : Z)
    (cells : list Cell) (st : GenState) : Rand GenState :=
  match cells with
  | [] => ret st
  | cell :: rest =>
      if targetCatCount <=? Z.of_nat (length (fst st)) then ret st
      else if isOccupied (fst cell) (snd cell) (snd st) then
        placeCats config gs targetCatCount rest st
      else
        let* directions := fisherYates 3 [UP; DOWN; LEFT; RIGHT] in
        let* st' := tryDirections config gs cell directions st in
        placeCats config gs targetCatCount rest st'
  end.

Definition generateLevel (levelNumber : Z) : Rand LevelData :=
  let config := getLevelConfig levelNumber in
  let gs := size config in
  let totalCells := gs * gs in
  let maxEmpty := 10 in
  let minEmpty := 2 in
  let* e := randomBelow (maxEmpty - minEmpty + 1) in
  let emptySlots := e + minEmpty in
  let targetCatCount := (totalCells - emptySlots) / 2 in
  let* shuffled := randomSort Cell (allCells gs) in
  let cells := Array_sort (byDistance gs) shuffled in
  let* st := placeCats config gs targetCatCount cells ([], ∅) in
  ret {| cats := Array_sort rowMajor (fst st);
         gridSize := gs;
         level := levelNumber;
         unlockedMessage := unlockMsg config |}.

(** *** shuffleCats *)

Definition ShuffleState : Type := list CatEntity * gset Cell.

(** The [for (const dir of directions)] loop of [shuffleCats]; [None]
    when no direction fits ([placed] stays false). *)
Fixpoint rehome (gs : Z) (oldCat : CatEntity) (cell : Cell)
    (directions : list Direction) (st : ShuffleState) : option ShuffleState :=
  match directions with
  | [] => None
  | dir :: rest =>
      let delta := getDelta dir in
      let tX := fst cell - dx delta in
      let tY := snd cell - dy delta in
      if isValid tX tY gs && negb (isOccupied tX tY (snd st)) then
        Some (fst st ++
                [ {| id := id oldCat;
                     x := inject_Z (fst cell); y := inject_Z (snd cell);
                     direction := dir;
                     type := type oldCat; timer := timer oldCat;
                     color := color oldCat; isExited := isExited oldCat;
                     isMoving := false |} ],
              markOccupied tX tY (markOccupied (fst cell) (snd cell) (snd st)))
      else rehome gs oldCat cell rest st
  end.

(** The [for (const cell of allCells)] loop of [shuffleCats]: the
    state is returned as it was when no cell takes the piece. *)
Fixpoint placeOne (gs : Z) (oldCat : CatEntity) (cells : list Cell)
    (st : ShuffleState) : Rand ShuffleState :=
  match cells with
  | [] => ret st
  | cell :: rest =>
      if isOccupied (fst cell) (snd cell) (snd st) then
        placeOne gs oldCat rest st
      else
        let* directions := randomSort Direction [UP; DOWN; LEFT; RIGHT] in
        match rehome gs oldCat cell directions st with
        | Some st' => ret st'
        | None => placeOne gs oldCat rest st
        end
  end.

(** The [for (const oldCat of activeCats)] loop. *)
Fixpoint placeAll (gs : Z) (activeCats : list CatEntity) (cells : list Cell)
    (st : ShuffleState) : Rand ShuffleState :=
  match activeCats with
  | [] => ret st
  | oldCat :: rest =>
      let* st' := placeOne gs oldCat cells st in
      placeAll gs rest cells st'
  end.

Definition shuffleCats (currentCats : list CatEntity) (gs : Z)
    : Rand (list CatEntity) :=
  let activeCats := List.filter active currentCats in
  let exitedCats := List.filter isExited currentCats in
  let* cells := randomSort Cell (allCells gs) in
  let* st := placeAll gs activeCats cells ([], ∅) in
  let result := exitedCats ++ fst st in
  ret (Array_sort rowMajor result).

End Randomness.

(** ** App.tsx: the remove tool, the win check, the board *)

(** [handleToolRemove]: [prev.filter(c => c.id !== id)]. *)
Definition handleToolRemove (cs : list CatEntity) (ident : string) : list CatEntity :=
  List.filter (fun c => negb (String.eqb (id c) ident)) cs.

(** The condition of the win effect:
    [cats.length > 0 && activeCats.length === 0]. *)
Definition winCondition (cs : list CatEntity) : bool :=
  let activeCats := List.filter active cs in
  (0 <? Z.of_nat (length cs)) && (Z.of_nat (length activeCats) =? 0).

(** The cell drawn for index [i] of the board:
    [x = i % gridSize], [y = Math.floor(i / gridSize)]. *)
Definition boardCell (gs : Z) (i : Z) : Cell := (Z.rem i gs, i / gs).

(** [Array.from({ length: gridSize * gridSize }).map((_, i) => ...)] *)
Definition boardCells (gs : Z) : list Cell :=
  map (boardCell gs) (seqZ 0 (gs * gs)).

(** ** components/Cat.tsx *)

(** [zIndex: isExited ? 9999 : Math.floor(y) * 10 + Math.floor(x)] *)
Definition zIndex (cat : CatEntity) : Z :=
  if isExited cat then 9999 else Qfloor (y cat) * 10 + Qfloor (x cat).

(** The density shown under the board:
    [Math.round((cats.length * 2) / (gridSize * gridSize) * 100)]. *)
Definition densityPercent (cs : list CatEntity) (gs : Z) : Z :=
  Math_round (inject_Z (Z.of_nat (length cs) * 2) / inject_Z (gs * gs) * 100)%Q.

(** * Vocabulary of the properties *)

(** What one flipped piece keeps and what it changes. *)
Definition flipEffect (c c' : CatEntity) : Prop :=
  id c' = id c /\ type c' = type c /\ timer c' = timer c /\
  color c' = color c /\ isExited c' = isExited c /\
  (isExited c = true -> c' = c) /\
  (isExited c = false ->
     x c' = (x c - inject_Z (dx (getDelta (direction c))))%Q /\
     y c' = (y c - inject_Z (dy (getDelta (direction c))))%Q /\
     direction c' = getOppositeDir (direction c)).

(** The cell looked at in iteration [j] of the raycast. *)
Definition stepX (cat : CatEntity) (j : Z) : Q :=
  (x cat + inject_Z (dx (getDelta (direction cat))) * inject_Z j)%Q.
Definition stepY (cat : CatEntity) (j : Z) : Q :=
  (y cat + inject_Z (dy (getDelta (direction cat))) * inject_Z j)%Q.

(** Where the handler sends a piece that leaves the grid at step [k]. *)
Definition exitX (gs : Z) (cat : CatEntity) (k : Z) : Q :=
  (stepX cat k + inject_Z (dx (getDelta (direction cat))) * (inject_Z gs * (5 # 2)))%Q.
Definition exitY (gs : Z) (cat : CatEntity) (k : Z) : Q :=
  (stepY cat k + inject_Z (dy (getDelta (direction cat))) * (inject_Z gs * (5 # 2)))%Q.

(** Step [j] is inside the grid and no piece obstructs it. *)
Definition clearStep (gs : Z) (cs : list CatEntity) (cat : CatEntity) (j : Z) : Prop :=
  outOfGrid gs (stepX cat j) (stepY cat j) = false /\
  find (obstructs (id cat) (stepX cat j) (stepY cat j)) cs = None.

Definition scenarioSingle : CatEntity :=
  {| id := "A"; x := 4; y := 0; direction := DOWN; type := NORMAL;
     timer := None; color := "bg-slate-100"; isExited := false; isMoving := false |}.

Definition scenarioA : CatEntity :=
  {| id := "A"; x := 3; y := 3; direction := RIGHT; type := NORMAL;
     timer := None; color := "bg-slate-100"; isExited := false; isMoving := false |}.

Definition scenarioB : CatEntity :=
  {| id := "B"; x := 5; y := 3; direction := RIGHT; type := NORMAL;
     timer := None; color := "bg-orange-300"; isExited := false; isMoving := false |}.

(** The state after [generateLevel] has put a piece on [cell] with its
    tail cell chosen by [dir]; [r] is the draw that decides the kind. *)
Definition genStep (config : LevelConfig) (cell : Cell) (dir : Direction)
    (r : Q) (skin ident : string) (st : GenState) : GenState :=
  let tX := fst cell - dx (getDelta dir) in
  let tY := snd cell - dy (getDelta dir) in
  (fst st ++
     [ {| id := ident; x := inject_Z tX; y := inject_Z tY;
          direction := getOppositeDir dir;
          type := if Qltb r (bombChance config) then BOMB else NORMAL;
          timer := if Qltb r (bombChance config) then Some BOMB_TIME_SECONDS else None;
          color := skin; isExited := false; isMoving := false |} ],
   markOccupied tX tY (markOccupied (fst cell) (snd cell) (snd st))).

(** The piece [b] has its head or its tail, rounded as the collision
    test rounds them, on the cell [(nx, ny)]. *)
Definition occupies (b : CatEntity) (nx ny : Q) : Prop :=
  (inject_Z (Math_round (x b)) == nx /\ inject_Z (Math_round (y b)) == ny)%Q \/
  (inject_Z (Math_round (tailX b)) == nx /\ inject_Z (Math_round (tailY b)) == ny)%Q.

(** The ray of [cat] leaves the grid at some step [k] of the loop, and
    every step before it is a grid cell that holds neither the head nor
    the tail of another non-exited piece. *)
Definition ReachesBoundary (gs : Z) (cs : list CatEntity) (cat : CatEntity) : Prop :=
  exists k, 1 <= k <= gs /\
    (forall j, 1 <= j < k ->
       outOfGrid gs (stepX cat j) (stepY cat j) = false /\
       forall b, In b cs -> id b <> id cat -> isExited b = false ->
                 ~ occupies b (stepX cat j) (stepY cat j)) /\
    outOfGrid gs (stepX cat k) (stepY cat k) = true.

(** The state after [shuffleCats] has put [oldCat] on [cell] with the
    direction [dir]. *)
Definition shuffleStep (oldCat : CatEntity) (cell : Cell) (dir : Direction)
    (st : ShuffleState) : ShuffleState :=
  let tX := fst cell - dx (getDelta dir) in
  let tY := snd cell - dy (getDelta dir) in
  (fst st ++
     [ {| id := id oldCat; x := inject_Z (fst cell); y := inject_Z (snd cell);
          direction := dir; type := type oldCat; timer := timer oldCat;
          color := color oldCat; isExited := isExited oldCat; isMoving := false |} ],
   markOccupied tX tY (markOccupied (fst cell) (snd cell) (snd st))).

(** [c'] is [c] put somewhere else: only the head, the direction and
    the moving flag may differ, and the moving flag is off. *)
Definition rehomed (c c' : CatEntity) : Prop :=
  id c' = id c /\ type c' = type c /\ timer c' = timer c /\
  color c' = color c /\ isExited c' = isExited c /\ isMoving c' = false.

(** Row-major order: ascending [y], then ascending [x]. *)
Definition rowMajorLe (a b : CatEntity) : Prop :=
  (y a < y b)%Q \/ ((y a == y b)%Q /\ (x a <= x b)%Q).

(** A random source for the examples: [Math.random] always returns [q],
    and the random-comparator sort leaves the array as it is. *)
Definition constRandom (q : Q) : nat -> Q := fun _ => q.
Definition keepOrder : forall A : Type, list A -> nat -> list A * nat :=
  fun _ l n => (l, n).
Definition noBase36 : Q -> string := fun _ => ""%string.

Definition loneCat : CatEntity :=
  {| id := "A"; x := 0; y := 0; direction := UP; type := BOMB;
     timer := Some 7; color := "bg-slate-100"; isExited := false; isMoving := true |}.

Definition exitedCat : CatEntity :=
  {| id := "Z"; x := 4; y := 28; direction := DOWN; type := BOMB;
     timer := Some 3; color := "bg-slate-100"; isExited := true; isMoving := true |}.

(** *** Well-placed piece lists *)

(** The cell [(a, b)] lies within [[0, gridSize)] on both axes. *)
Definition inGrid (gs : Z) (a b : Q) : Prop :=
  (0 <= a /\ a < inject_Z gs /\ 0 <= b /\ b < inject_Z gs)%Q.

Definition sameCell (a b a' b' : Q) : Prop := (a == a' /\ b == b')%Q.

(** The cells [{head, tail}] of two pieces are disjoint. *)
Definition disjointCells (c1 c2 : CatEntity) : Prop :=
  ~ sameCell (x c1) (y c1) (x c2) (y c2) /\
  ~ sameCell (x c1) (y c1) (tailX c2) (tailY c2) /\
  ~ sameCell (tailX c1) (tailY c1) (x c2) (y c2) /\
  ~ sameCell (tailX c1) (tailY c1) (tailX c2) (tailY c2).

(** The invariant of the data model: every non-exited piece has its
    head and its tail inside the grid, and two distinct non-exited
    pieces share no cell. *)
Definition WellPlaced (gs : Z) (cs : list CatEntity) : Prop :=
  (forall c, In c cs -> isExited c = false ->
             inGrid gs (x c) (y c) /\ inGrid gs (tailX c) (tailY c)) /\
  (forall (i j : nat) ci cj,
      i <> j -> cs !! i = Some ci -> cs !! j = Some cj ->
      isExited ci = false -> isExited cj = false -> disjointCells ci cj).

(** The operations the driver applies to the piece list of a level. *)
Inductive Op := Move (ident : string) | Shuffle | Flip.

Definition applyOp (randomSort : forall A : Type, list A -> nat -> list A * nat)
    (gs : Z) (op : Op) (cs : list CatEntity) : Rand (list CatEntity) :=
  match op with
  | Move ident => ret (handleCatClick gs cs ident)
  | Shuffle => shuffleCats randomSort cs gs
  | Flip => ret (flipAll cs)
  end.

Fixpoint play (randomSort : forall A : Type, list A -> nat -> list A * nat)
    (gs : Z) (ops : list Op) (cs : list CatEntity) : Rand (list CatEntity) :=
  match ops with
  | [] => ret cs
  | op :: rest => bind (applyOp randomSort gs op cs) (play randomSort gs rest)
  end.

(** A coordinate that [Math.round] leaves as it is: an integer. *)
Definition integral (q : Q) : Prop := (inject_Z (Math_round q) == q)%Q.

Definition onGrid (gs : Z) (c : CatEntity) : Prop :=
  integral (x c) /\ integral (y c) /\
  inGrid gs (x c) (y c) /\ inGrid gs (tailX c) (tailY c).

(** The invariant the operations keep: ids are unique, non-exited
    pieces sit on grid cells, pieces of different ids share no cell. *)
Definition Inv (gs : Z) (cs : list CatEntity) : Prop :=
  List.NoDup (map id cs) /\
  (forall c, In c cs -> isExited c = false -> onGrid gs c) /\
  (forall c1 c2, In c1 cs -> In c2 cs -> id c1 <> id c2 ->
                 isExited c1 = false -> isExited c2 = false -> disjointCells c1 c2).

(** The coordinates [(a, b)] are those of the grid cell [h]. *)
Definition cellAt (a b : Q) (h : Cell) : Prop :=
  (a == inject_Z (fst h) /\ b == inject_Z (snd h))%Q.

(** The piece [c] is active and sits on two grid cells that the
    occupancy set holds. *)
Definition placedOn (gs : Z) (occupied : gset Cell) (c : CatEntity) : Prop :=
  isExited c = false /\
  exists h t : Cell,
    cellAt (x c) (y c) h /\ cellAt (tailX c) (tailY c) t /\
    isValid (fst h) (snd h) gs = true /\ isValid (fst t) (snd t) gs = true /\
    h ∈ occupied /\ t ∈ occupied.

(** The invariant of the two placement loops. *)
Definition Placed (gs : Z) (st : list CatEntity * gset Cell) : Prop :=
  (forall c, In c (fst st) -> placedOn gs (snd st) c) /\
  (forall c1 c2, In c1 (fst st) -> In c2 (fst st) -> c1 <> c2 -> disjointCells c1 c2).

(** A second random source for the examples: the [n]-th draw is
    [n / 1000], and an id shows the numerator of its draw. *)
Definition demoRandom : nat -> Q := fun n => Z.of_nat n # 1000.
Definition demoBase36 : Q -> string :=
  fun q => NilZero.string_of_int (Z.to_int (Qnum q)).

(** No string occurs twice. *)
Fixpoint distinctb (l : list string) : bool :=
  match l with
  | [] => true
  | a :: l' => negb (existsb (String.eqb a) l') && distinctb l'
  end.

(** A third random source: the first draw is 0.9, the later ones vary;
    the random-comparator sort reverses its array, one call of
    [Math.random] per element. *)
Definition variedRandom : nat -> Q :=
  fun n => match n with
           | O => 9 # 10
           | S _ => ((Z.of_nat n * 617) mod 1000) # 1000
           end.
Definition reverseOrder : forall A : Type, list A -> nat -> list A * nat :=
  fun _ l n => (rev l, (n + length l)%nat).

(** The cells of a level that no piece covers. *)
Definition emptyCells (l : LevelData) : Z :=
  gridSize l * gridSize l - 2 * Z.of_nat (length (cats l)).

(** [n] ticks of the bomb timer, one after the other. *)
Fixpoint ticks (n : nat) (cs : list CatEntity) : list CatEntity :=
  match n with
  | O => cs
  | S n' => ticks n' (fst (bombTick cs))
  end.

(** What [generateLevel lvl] makes of a piece: active, at rest, a bomb
    with the full timer (from level 5 on only) or a normal piece with
    none, and a skin among the first [skinCount] of the palette. *)
Definition freshPiece (lvl : Z) (c : CatEntity) : Prop :=
  isExited c = false /\ isMoving c = false /\
  ((type c = NORMAL /\ timer c = None) \/
   (type c = BOMB /\ timer c = Some BOMB_TIME_SECONDS /\ 5 <= lvl)) /\
  In (color c) (firstn (Z.to_nat (skinCount (getLevelConfig lvl))) CAT_SKINS).

(** No other non-exited piece has its head or its tail on any cell of
    the ray of [cat], up to [gridSize] steps. *)
Definition freeRay (gs : Z) (cs : list CatEntity) (cat : CatEntity) : Prop :=
  forall j b, 1 <= j <= gs -> In b cs -> id b <> id cat -> isExited b = false ->
              ~ occupies b (stepX cat j) (stepY cat j).

Definition scenarioC : CatEntity :=
  {| id := "C"; x := 7; y := 2; direction := UP; type := NORMAL;
     timer := None; color := "bg-slate-400"; isExited := false; isMoving := false |}.

(** The piece [c] with its timer set to [t]. *)
Definition withTimer (c : CatEntity) (t : Z) : CatEntity :=
  {| id := id c; x := x c; y := y c; direction := direction c;
     type := type c; timer := Some t; color := color c;
     isExited := isExited c; isMoving := isMoving c |}.

Definition bombD : CatEntity :=
  {| id := "D"; x := 1; y := 6; direction := LEFT; type := BOMB;
     timer := Some 2; color := "bg-slate-100"; isExited := false; isMoving := false |}.

(** Everything the driver does to the piece list of a level: a click
    with no tool, the shuffle, the flip, a bomb tick, a click with the
    remove tool. *)
Inductive Action :=
  | Click (ident : string)
  | UseShuffle
  | UseFlip
  | Tick
  | Remove (ident : string).

Definition applyAction (randomSort : forall A : Type, list A -> nat -> list A * nat)
    (gs : Z) (a : Action) (cs : list CatEntity) : Rand (list CatEntity) :=
  match a with
  | Click ident => ret (handleCatClick gs cs ident)
  | UseShuffle => shuffleCats randomSort cs gs
  | UseFlip => ret (flipAll cs)
  | Tick => ret (fst (bombTick cs))
  | Remove ident => ret (handleToolRemove cs ident)
  end.

Fixpoint run (randomSort : forall A : Type, list A -> nat -> list A * nat)
    (gs : Z) (actions : list Action) (cs : list CatEntity) : Rand (list CatEntity) :=
  match actions with
  | [] => ret cs
  | a :: rest => bind (applyAction randomSort gs a cs) (run randomSort gs rest)
  end.

(** *** What the shuffle does with an active piece *)

(** The cell [cell] can take the head of a piece that points to [dir]:
    it is free, and the cell behind it, where the tail goes, is a grid
    cell and free. *)
Definition fits (gs : Z) (occupied : gset Cell) (cell : Cell) (dir : Direction) : Prop :=
  isOccupied (fst cell) (snd cell) occupied = false /\
  isValid (fst cell - dx (getDelta dir)) (snd cell - dy (getDelta dir)) gs = true /\
  isOccupied (fst cell - dx (getDelta dir)) (snd cell - dy (getDelta dir)) occupied = false.

(** The piece [c] with its head on [cell] and pointing to [dir]: the
    object [{...oldCat, x, y, direction, isMoving: false}]. *)
Definition rehomedAt (c : CatEntity) (cell : Cell) (dir : Direction) : CatEntity :=
  {| id := id c; x := inject_Z (fst cell); y := inject_Z (snd cell);
     direction := dir; type := type c; timer := timer c; color := color c;
     isExited := isExited c; isMoving := false |}.

(** [Rehomes gs cells occupied pieces placed]: going through [pieces]
    in order, starting from the occupancy [occupied], each piece is
    either put on the first cell of [cells] that fits for some direction
    (the cells before it fit for none), its two cells being marked, or,
    when no cell of [cells] fits for any direction, left out; [placed]
    lists the pieces that were put, in order. *)
Inductive Rehomes (gs : Z) (cells : list Cell)
    : gset Cell -> list CatEntity -> list CatEntity -> Prop :=
  | Rehomes_done (occupied : gset Cell) : Rehomes gs cells occupied [] []
  | Rehomes_placed (occupied : gset Cell) (c : CatEntity) (rest placed : list CatEntity)
      (before after : list Cell) (cell : Cell) (dir : Direction) :
      cells = before ++ cell :: after ->
      (forall cell' dir', In cell' before -> ~ fits gs occupied cell' dir') ->
      fits gs occupied cell dir ->
      Rehomes gs cells
        (markOccupied (fst cell - dx (getDelta dir)) (snd cell - dy (getDelta dir))
           (markOccupied (fst cell) (snd cell) occupied))
        rest placed ->
      Rehomes gs cells occupied (c :: rest) (rehomedAt c cell dir :: placed)
  | Rehomes_dropped (occupied : gset Cell) (c : CatEntity) (rest placed : list CatEntity) :
      (forall cell dir, In cell cells -> ~ fits gs occupied cell dir) ->
      Rehomes gs cells occupied rest placed ->
      Rehomes gs cells occupied (c :: rest) placed.

(** A fourth random source: [demoRandom], but the call of [genId] for
    the sixth piece ([Math.random] call 36) returns what the call of
    [genId] for the first piece (call 6) returned. *)
Definition repeatedDraw : nat -> Q :=
  fun n => if (n =? 36)%nat then demoRandom 6 else demoRandom n.

(** * Properties *)

(** ** Geometry *)

Lemma getOppositeDir_involutive (d : Direction) :
  getOppositeDir (getOppositeDir d) = d.
Proof. destruct d; reflexivity. Qed.

Lemma getDelta_opposite (d : Direction) :
  dx (getDelta (getOppositeDir d)) = - dx (getDelta d) /\
  dy (getDelta (getOppositeDir d)) = - dy (getDelta d).
Proof. destruct d; split; reflexivity. Qed.

(** Subtracting an integer and then its opposite gives back the very
    same fraction, numerator and denominator. *)
Lemma Qminus_inject_cancel (q : Q) (d : Z) :
  (q - inject_Z d - inject_Z (- d))%Q = q.
Proof.
  destruct q as [n p]. unfold Qminus, Qplus, Qopp, inject_Z. simpl.
  rewrite !Pos.mul_1_r. f_equal. rewrite Z.opp_involutive. ring.
Qed.

(** ** The flip *)

Lemma flipCat_direction (c : CatEntity) :
  isExited c = false -> direction (flipCat c) = getOppositeDir (direction c).
Proof. intros H. unfold flipCat. rewrite H. destruct (direction c); reflexivity. Qed.

Lemma flipCat_flipCat (c : CatEntity) : flipCat (flipCat c) = c.
Proof.
  destruct c as [i hx hy d t tm col ex mv]. unfold flipCat. simpl.
  destruct ex; [reflexivity|]. simpl.
  destruct d; simpl; f_equal;
    first [ apply (Qminus_inject_cancel _ 0)
          | apply (Qminus_inject_cancel _ 1)
          | apply (Qminus_inject_cancel _ (-1)) ].
Qed.

Lemma flipCat_effect (c : CatEntity) : flipEffect c (flipCat c).
Proof.
  unfold flipEffect, flipCat.
  destruct (isExited c) eqn:E; simpl; rewrite ?E.
  - repeat split; auto; discriminate.
  - repeat split; auto; discriminate.
Qed.

Lemma filter_isExited_flipAll (cs : list CatEntity) :
  List.filter isExited (flipAll cs) = List.filter isExited cs.
Proof.
  induction cs as [|c cs IH]; [reflexivity|]. simpl.
  destruct (flipCat_effect c) as (_ & _ & _ & _ & He & Hsame & _).
  rewrite He. destruct (isExited c) eqn:E.
  - rewrite Hsame by reflexivity. f_equal. exact IH.
  - exact IH.
Qed.

Lemma active_flipCat (c : CatEntity) : active (flipCat c) = active c.
Proof.
  unfold active. destruct (flipCat_effect c) as (_ & _ & _ & _ & He & _).
  now rewrite He.
Qed.

Lemma active_count_flipAll (cs : list CatEntity) :
  length (List.filter active (flipAll cs)) = length (List.filter active cs).
Proof.
  induction cs as [|c cs IH]; [reflexivity|]. simpl.
  rewrite active_flipCat. destruct (active c); simpl; auto.
Qed.

(** C5. [flipAll] sends every non-exited piece to the piece with head
    [old head - delta(old direction)] and the opposite direction, leaves
    exited pieces as they are, keeps every piece's id, kind, timer and
    variant, keeps the exited pieces exactly and keeps the number of
    active pieces. *)
Theorem flipAll_frame (cs : list CatEntity) :
  Forall2 flipEffect cs (flipAll cs) /\
  List.filter isExited (flipAll cs) = List.filter isExited cs /\
  length (List.filter active (flipAll cs)) = length (List.filter active cs).
Proof.
  split; [|split].
  - unfold flipAll. induction cs as [|c cs IH]; simpl; constructor.
    + apply flipCat_effect.
    + exact IH.
  - apply filter_isExited_flipAll.
  - apply active_count_flipAll.
Qed.

(** C10. [flipAll] is an involution on piece lists. *)
Theorem flipAll_involutive (cs : list CatEntity) : flipAll (flipAll cs) = cs.
Proof.
  unfold flipAll. induction cs as [|c cs IH]; simpl; [reflexivity|].
  rewrite flipCat_flipCat. f_equal. exact IH.
Qed.

(** ** Numbers *)

Lemma Qltb_lt (a b : Q) : Qltb a b = true <-> (a < b)%Q.
Proof.
  unfold Qltb. rewrite negb_true_iff. split; intros H.
  - destruct (Qlt_le_dec a b) as [L|L]; [exact L|].
    apply Qle_bool_iff in L. congruence.
  - destruct (Qle_bool b a) eqn:E; [|reflexivity].
    apply Qle_bool_iff in E. lra.
Qed.

Lemma Qgeb_le (a b : Q) : Qgeb a b = true <-> (b <= a)%Q.
Proof. unfold Qgeb. apply Qle_bool_iff. Qed.

Lemma outOfGrid_false (gs : Z) (nx ny : Q) :
  outOfGrid gs nx ny = false <->
  (0 <= nx /\ nx < inject_Z gs /\ 0 <= ny /\ ny < inject_Z gs)%Q.
Proof.
  unfold outOfGrid. rewrite !orb_false_iff.
  assert (B : forall a b, Qltb a b = false <-> (b <= a)%Q).
  { intros a b. split; intros H.
    - destruct (Qlt_le_dec a b) as [L|L]; [|exact L].
      apply Qltb_lt in L. congruence.
    - destruct (Qltb a b) eqn:E; [|reflexivity]. apply Qltb_lt in E. lra. }
  assert (C : forall a b, Qgeb a b = false <-> (a < b)%Q).
  { intros a b. split; intros H.
    - destruct (Qlt_le_dec a b) as [L|L]; [exact L|].
      apply Qgeb_le in L. congruence.
    - destruct (Qgeb a b) eqn:E; [|reflexivity]. apply Qgeb_le in E. lra. }
  rewrite !B, !C. tauto.
Qed.

Lemma Qfloor_unique (q : Q) (z : Z) :
  (inject_Z z <= q)%Q -> (q < inject_Z (z + 1))%Q -> Qfloor q = z.
Proof.
  intros L U.
  assert (A := Qfloor_le q). assert (B := Qlt_floor q).
  assert (L1 : (inject_Z z < inject_Z (Qfloor q + 1))%Q) by lra.
  assert (L2 : (inject_Z (Qfloor q) < inject_Z (z + 1))%Q) by lra.
  rewrite <- Zlt_Qlt in L1, L2. lia.
Qed.

(** On an integer coordinate [Math.round] is the identity. *)
Lemma Math_round_integral (q : Q) (z : Z) :
  (q == inject_Z z)%Q -> Math_round q = z.
Proof.
  intros H. unfold Math_round. apply Qfloor_unique.
  - lra.
  - rewrite inject_Z_plus. change (inject_Z 1) with 1%Q. lra.
Qed.

(** ** The raycast of the move handler *)

Lemma stepX_pred (cat : CatEntity) (j : Z) :
  (stepX cat j - inject_Z (dx (getDelta (direction cat))) == stepX cat (j - 1))%Q.
Proof.
  unfold stepX. unfold Z.sub. rewrite inject_Z_plus, inject_Z_opp.
  change (inject_Z 1) with 1%Q. ring.
Qed.

Lemma stepY_pred (cat : CatEntity) (j : Z) :
  (stepY cat j - inject_Z (dy (getDelta (direction cat))) == stepY cat (j - 1))%Q.
Proof.
  unfold stepY. unfold Z.sub. rewrite inject_Z_plus, inject_Z_opp.
  change (inject_Z 1) with 1%Q. ring.
Qed.

Lemma stepX_0 (cat : CatEntity) : (stepX cat 0 == x cat)%Q.
Proof. unfold stepX. change (inject_Z 0) with 0%Q. ring. Qed.

Lemma stepY_0 (cat : CatEntity) : (stepY cat 0 == y cat)%Q.
Proof. unfold stepY. change (inject_Z 0) with 0%Q. ring. Qed.

Lemma raycastLoop_exit (gs : Z) (cs : list CatEntity) (cat : CatEntity) :
  forall (n : nat) (step : Z) (tx ty : Q) (k : Z),
    step <= k < step + Z.of_nat n ->
    (forall j, step <= j < k -> clearStep gs cs cat j) ->
    outOfGrid gs (stepX cat k) (stepY cat k) = true ->
    raycastLoop gs cs cat n step tx ty = mkRay (exitX gs cat k) (exitY gs cat k) true.
Proof.
  induction n as [|n IH]; intros step tx ty k Hk Hclear Hout; [lia|].
  cbn [raycastLoop]. fold (stepX cat step) (stepY cat step).
  destruct (Z.eq_dec step k) as [->|Hne].
  - rewrite Hout. reflexivity.
  - destruct (Hclear step ltac:(lia)) as [Hin Hfree].
    rewrite Hin, Hfree. apply IH; [lia| |exact Hout].
    intros j Hj. apply Hclear. lia.
Qed.

(** The two ways the raycast ends: the piece leaves the grid at step
    [k], or it stops after [m] clear steps. *)
Lemma raycastLoop_cases (gs : Z) (cs : list CatEntity) (cat : CatEntity) :
  forall (n : nat) (step : Z) (tx ty : Q),
    (tx == stepX cat (step - 1))%Q -> (ty == stepY cat (step - 1))%Q ->
    let r := raycastLoop gs cs cat n step tx ty in
    (exists k, step <= k < step + Z.of_nat n /\
               (forall j, step <= j < k -> clearStep gs cs cat j) /\
               outOfGrid gs (stepX cat k) (stepY cat k) = true /\
               r = mkRay (exitX gs cat k) (exitY gs cat k) true)
    \/
    (exists m, step - 1 <= m < step + Z.of_nat n /\
               (forall j, step <= j <= m -> clearStep gs cs cat j) /\
               willExit r = false /\
               (targetX r == stepX cat m)%Q /\ (targetY r == stepY cat m)%Q /\
               (m = step + Z.of_nat n - 1 \/
                (outOfGrid gs (stepX cat (m + 1)) (stepY cat (m + 1)) = false /\
                 exists b, find (obstructs (id cat) (stepX cat (m + 1)) (stepY cat (m + 1))) cs
                           = Some b))).
Proof.
  induction n as [|n IH]; intros step tx ty Hx Hy r.
  - right. exists (step - 1). subst r. cbn [raycastLoop willExit targetX targetY].
    split; [lia|]. split; [intros j Hj; lia|]. split; [reflexivity|].
    split; [exact Hx|]. split; [exact Hy|]. left; lia.
  - subst r. cbn [raycastLoop]. fold (stepX cat step) (stepY cat step).
    destruct (outOfGrid gs (stepX cat step) (stepY cat step)) eqn:Hout.
    + left. exists step. split; [lia|]. split; [intros j Hj; lia|].
      split; [exact Hout | reflexivity].
    + destruct (find (obstructs (id cat) (stepX cat step) (stepY cat step)) cs)
        as [b|] eqn:Hfind.
      * right. exists (step - 1). cbn [willExit targetX targetY].
        split; [lia|]. split; [intros j Hj; lia|]. split; [reflexivity|].
        split; [apply stepX_pred|]. split; [apply stepY_pred|].
        right. replace (step - 1 + 1) with step by lia. split; [exact Hout|].
        exists b. exact Hfind.
      * specialize (IH (step + 1) (stepX cat step) (stepY cat step)).
        replace (step + 1 - 1) with step in IH by lia.
        assert (Hstep : forall (k : Z) j,
                   (forall j, step + 1 <= j <= k -> clearStep gs cs cat j) ->
                   step <= j <= k -> clearStep gs cs cat j).
        { intros k j Hcl Hj. destruct (Z.eq_dec j step) as [->|Hne].
          - split; assumption.
          - apply Hcl. lia. }
        destruct (IH ltac:(reflexivity) ltac:(reflexivity))
          as [(k & Hk & Hcl & Ho & Hr) | (m & Hm & Hcl & Hw & Htx & Hty & Hend)].
        -- left. exists k. split; [lia|]. split.
           ++ intros j Hj. apply (Hstep (k - 1)); [|lia].
              intros j' Hj'. apply Hcl. lia.
           ++ split; [exact Ho | exact Hr].
        -- right. exists m. split; [lia|]. split.
           ++ intros j Hj. apply (Hstep m); [exact Hcl | lia].
           ++ split; [exact Hw|]. split; [exact Htx|]. split; [exact Hty|].
              destruct Hend as [->|Hend]; [left; lia | right; exact Hend].
Qed.

Lemma find_is_Some {A} (p : A -> bool) (l : list A) (a : A) :
  In a l -> p a = true -> exists b, find p l = Some b.
Proof.
  intros Hin Hp. destruct (find p l) as [b|] eqn:E; [eauto|].
  rewrite (find_none p l E a Hin) in Hp. discriminate.
Qed.

Lemma findIndex_Some {A} (p : A -> bool) (l : list A) (i : nat) :
  findIndex p l = Some i ->
  exists a, l !! i = Some a /\ p a = true /\
            forall j b, (j < i)%nat -> l !! j = Some b -> p b = false.
Proof.
  revert i. induction l as [|a l IH]; intros i H; simpl in H; [discriminate|].
  destruct (p a) eqn:E.
  - injection H as <-. exists a. split; [reflexivity|]. split; [exact E|].
    intros j b Hj. lia.
  - destruct (findIndex p l) as [i'|]; simpl in H; [|discriminate].
    injection H as <-. destruct (IH i' eq_refl) as (a' & Hl & Hp & Hfirst).
    exists a'. split; [exact Hl|]. split; [exact Hp|].
    intros [|j] b Hj Hb; simpl in Hb.
    + injection Hb as <-. exact E.
    + apply (Hfirst j); [lia | exact Hb].
Qed.

Lemma delta_nonzero (d : Direction) :
  (dx (getDelta d) = 0 /\ (dy (getDelta d) = 1 \/ dy (getDelta d) = -1)) \/
  (dy (getDelta d) = 0 /\ (dx (getDelta d) = 1 \/ dx (getDelta d) = -1)).
Proof. destruct d; simpl; lia. Qed.

(** A piece that leaves the grid is never sent to where it stands. *)
Lemma exit_is_a_move (gs : Z) (cat : CatEntity) (k : Z) :
  1 <= k -> 1 <= gs ->
  (Qeq_bool (exitX gs cat k) (x cat) && Qeq_bool (exitY gs cat k) (y cat))%bool = false.
Proof.
  intros Hk Hgs. apply andb_false_iff.
  assert (Qk : (1 <= inject_Z k)%Q) by (change 1%Q with (inject_Z 1); now rewrite <- Zle_Qle).
  assert (Qg : (1 <= inject_Z gs)%Q) by (change 1%Q with (inject_Z 1); now rewrite <- Zle_Qle).
  assert (F : forall a b : Q, ~ (a == b)%Q -> Qeq_bool a b = false).
  { intros a b N. destruct (Qeq_bool a b) eqn:E; [|reflexivity].
    apply Qeq_bool_iff in E. contradiction. }
  unfold exitX, exitY, stepX, stepY.
  destruct (delta_nonzero (direction cat)) as [[_ [H|H]]|[_ [H|H]]]; rewrite H.
  - right. apply F. change (inject_Z 1) with 1%Q. intros E. lra.
  - right. apply F. change (inject_Z (-1)) with (-1)%Q. intros E. lra.
  - left. apply F. change (inject_Z 1) with 1%Q. intros E. lra.
  - left. apply F. change (inject_Z (-1)) with (-1)%Q. intros E. lra.
Qed.

(** C3. When the first cell of the raycast that is not clear lies
    outside the grid, the move handler marks the piece as exited and
    puts its head [gridSize * 2.5] cells beyond that cell along the
    direction of travel. *)
Theorem resolveMove_exits (gs : Z) (cs : list CatEntity) (ident : string)
    (idx : nat) (cat : CatEntity) (k : Z) :
  findIndex (fun c => String.eqb (id c) ident) cs = Some idx ->
  cs !! idx = Some cat ->
  isExited cat = false ->
  1 <= k <= gs ->
  (forall j, 1 <= j < k -> clearStep gs cs cat j) ->
  outOfGrid gs (stepX cat k) (stepY cat k) = true ->
  resolveMove gs cs ident =
    Some (<[idx := {| id := id cat;
                      x := (stepX cat k
                            + inject_Z (dx (getDelta (direction cat)))
                              * (inject_Z gs * (5 # 2)))%Q;
                      y := (stepY cat k
                            + inject_Z (dy (getDelta (direction cat)))
                              * (inject_Z gs * (5 # 2)))%Q;
                      direction := direction cat; type := type cat;
                      timer := timer cat; color := color cat;
                      isExited := true; isMoving := true |}]> cs).
Proof.
  intros Hidx Hcat Hact Hk Hclear Hout.
  unfold resolveMove. rewrite Hidx, Hcat, Hact.
  unfold raycast.
  rewrite (raycastLoop_exit gs cs cat (Z.to_nat gs) 1 (x cat) (y cat) k);
    [|lia|exact Hclear|exact Hout].
  cbn [targetX targetY]. rewrite exit_is_a_move by lia. reflexivity.
Qed.

Lemma resolveMove_exits_witness :
  findIndex (fun c => String.eqb (id c) "A") [scenarioSingle] = Some 0%nat /\
  [scenarioSingle] !! 0%nat = Some scenarioSingle /\
  isExited scenarioSingle = false /\
  1 <= 8 <= 8 /\
  (forall j, 1 <= j < 8 -> clearStep 8 [scenarioSingle] scenarioSingle j) /\
  outOfGrid 8 (stepX scenarioSingle 8) (stepY scenarioSingle 8) = true /\
  exists c', resolveMove 8 [scenarioSingle] "A" = Some [c'] /\
             isExited c' = true /\ (x c' == 4)%Q /\ (y c' == 28)%Q /\ (8 <= y c')%Q.
Proof.
  assert (Hclear : forall j, 1 <= j < 8 -> clearStep 8 [scenarioSingle] scenarioSingle j).
  { intros j Hj.
    assert (Hc : j = 1 \/ j = 2 \/ j = 3 \/ j = 4 \/ j = 5 \/ j = 6 \/ j = 7) by lia.
    destruct Hc as [->|[->|[->|[->|[->|[->| ->]]]]]]; split; reflexivity. }
  split; [reflexivity|]. split; [reflexivity|]. split; [reflexivity|].
  split; [lia|]. split; [exact Hclear|]. split; [reflexivity|].
  eexists. split.
  - apply (resolveMove_exits 8 [scenarioSingle] "A" 0 scenarioSingle 8);
      [reflexivity | reflexivity | reflexivity | lia | exact Hclear | reflexivity].
  - cbn. split; [reflexivity|]. split; [reflexivity|]. split; [reflexivity|].
    unfold Qle; cbn; lia.
Defined.

(** C4. When the first cell of the raycast is a grid cell that holds
    the head or the tail of another non-exited piece, the destination is
    the current head: the handler returns without updating the piece
    list, which stays as it was. *)
Theorem resolveMove_blocked_noop (gs : Z) (cs : list CatEntity) (ident : string)
    (idx : nat) (cat b : CatEntity) :
  findIndex (fun c => String.eqb (id c) ident) cs = Some idx ->
  cs !! idx = Some cat ->
  isExited cat = false ->
  outOfGrid gs (stepX cat 1) (stepY cat 1) = false ->
  In b cs -> id b <> ident -> isExited b = false ->
  occupies b (stepX cat 1) (stepY cat 1) ->
  resolveMove gs cs ident = None /\ handleCatClick gs cs ident = cs.
Proof.
  intros Hidx Hcat Hact Hin Hb Hid Hbact Hocc.
  assert (Hnone : resolveMove gs cs ident = None).
  { unfold resolveMove. rewrite Hidx, Hcat, Hact.
    destruct (findIndex_Some _ _ _ Hidx) as (a & Ha & Hp & _).
    rewrite Hcat in Ha. injection Ha as <-. apply String.eqb_eq in Hp.
    assert (Hgs : 0 < gs).
    { apply outOfGrid_false in Hin. destruct Hin as (L & U & _).
      assert (Q0 : (inject_Z 0 < inject_Z gs)%Q) by (change (inject_Z 0) with 0%Q; lra).
      now rewrite <- Zlt_Qlt in Q0. }
    unfold raycast. destruct (Z.to_nat gs) as [|n] eqn:En; [lia|].
    cbn [raycastLoop]. fold (stepX cat 1) (stepY cat 1). rewrite Hin.
    assert (Hobs : obstructs (id cat) (stepX cat 1) (stepY cat 1) b = true).
    { unfold obstructs. rewrite Hp.
      destruct (String.eqb (id b) ident) eqn:E; [apply String.eqb_eq in E; contradiction|].
      rewrite Hbact. cbn [orb].
      destruct Hocc as [[H1 H2]|[H1 H2]];
        apply Qeq_bool_iff in H1; apply Qeq_bool_iff in H2; rewrite H1, H2; cbn.
      - reflexivity.
      - destruct (_ && _)%bool; reflexivity. }
    destruct (find_is_Some _ _ _ Hb Hobs) as [b' ->].
    cbn [targetX targetY].
    assert (E1 : Qeq_bool (stepX cat 1 - inject_Z (dx (getDelta (direction cat)))) (x cat) = true).
    { apply Qeq_bool_iff. rewrite stepX_pred. apply stepX_0. }
    assert (E2 : Qeq_bool (stepY cat 1 - inject_Z (dy (getDelta (direction cat)))) (y cat) = true).
    { apply Qeq_bool_iff. rewrite stepY_pred. apply stepY_0. }
    rewrite E1, E2. reflexivity. }
  split; [exact Hnone|]. unfold handleCatClick. now rewrite Hnone.
Qed.

Lemma resolveMove_blocked_noop_witness :
  (tailX scenarioB == 4)%Q /\ (tailY scenarioB == 3)%Q /\
  resolveMove 8 [scenarioA; scenarioB] "A" = None /\
  handleCatClick 8 [scenarioA; scenarioB] "A" = [scenarioA; scenarioB].
Proof.
  split; [reflexivity|]. split; [reflexivity|].
  apply (resolveMove_blocked_noop 8 [scenarioA; scenarioB] "A" 0 scenarioA scenarioB).
  - reflexivity.
  - reflexivity.
  - reflexivity.
  - reflexivity.
  - right; left; reflexivity.
  - discriminate.
  - reflexivity.
  - right. split; reflexivity.
Defined.

(** ** Sorting *)

Lemma insertBy_perm {A} (cmp : A -> A -> Q) (a : A) (l : list A) :
  Permutation (insertBy cmp a l) (a :: l).
Proof.
  induction l as [|b l IH]; simpl; [reflexivity|].
  destruct (Qle_bool (cmp a b) 0); [reflexivity|].
  rewrite IH. apply perm_swap.
Qed.

Lemma Array_sort_perm {A} (cmp : A -> A -> Q) (l : list A) :
  Permutation (Array_sort cmp l) l.
Proof.
  unfold Array_sort. induction l as [|a l IH]; simpl; [reflexivity|].
  rewrite insertBy_perm. now constructor.
Qed.

Lemma Array_sort_length {A} (cmp : A -> A -> Q) (l : list A) :
  length (Array_sort cmp l) = length l.
Proof. apply Permutation_length, Array_sort_perm. Qed.

(** ** The level generator *)

(** The configuration, as the step function it is. *)
Lemma getLevelConfig_steps (lvl : Z) :
  size (getLevelConfig lvl) =
    (if lvl <? 5 then 8 else if lvl <? 10 then 9 else if lvl <? 20 then 10 else 11) /\
  skinCount (getLevelConfig lvl) = Z.min 8 (2 + (lvl - 1) / 3) /\
  bombChance (getLevelConfig lvl) =
    (if lvl <? 5 then 0 else if lvl <? 15 then 5 # 100
     else if lvl <? 30 then 10 # 100 else 15 # 100)%Q /\
  (unlockMsg (getLevelConfig lvl) <> None <-> lvl = 1 \/ lvl = 5).
Proof.
  unfold getLevelConfig. cbn [size skinCount bombChance unlockMsg].
  split; [|split; [|split]].
  - destruct (Z.leb_spec 5 lvl), (Z.leb_spec 10 lvl), (Z.leb_spec 20 lvl),
      (Z.ltb_spec lvl 5), (Z.ltb_spec lvl 10), (Z.ltb_spec lvl 20); lia.
  - reflexivity.
  - destruct (Z.leb_spec 5 lvl), (Z.leb_spec 15 lvl), (Z.leb_spec 30 lvl),
      (Z.ltb_spec lvl 5), (Z.ltb_spec lvl 15), (Z.ltb_spec lvl 30);
      try reflexivity; lia.
  - destruct (Z.eqb_spec lvl 1), (Z.eqb_spec lvl 5); split; intros H;
      try discriminate; try lia; try congruence; auto.
Qed.

Section GeneratorFacts.

Variable random : nat -> Q.
Variable randomSort : forall A : Type, list A -> nat -> list A * nat.
Variable toBase36 : Q -> string.

Lemma tryDirections_cases (config : LevelConfig) (gs : Z) (cell : Cell)
    (directions : list Direction) (st : GenState) (s : nat) :
  fst (tryDirections random toBase36 config gs cell directions st s) = st \/
  exists dir s1 skin ident,
    isValid (fst cell - dx (getDelta dir)) (snd cell - dy (getDelta dir)) gs = true /\
    isOccupied (fst cell - dx (getDelta dir)) (snd cell - dy (getDelta dir)) (snd st)
      = false /\
    fst (tryDirections random toBase36 config gs cell directions st s)
      = genStep config cell dir (random s1) skin ident st.
Proof.
  induction directions as [|dir rest IH]; cbn [tryDirections].
  - left. reflexivity.
  - destruct (isValid _ _ gs) eqn:Hv; cbn [andb]; [|exact IH].
    destruct (isOccupied _ _ (snd st)) eqn:Ho; cbn [negb]; [exact IH|].
    right. exists dir, s. eexists. eexists.
    split; [exact Hv|]. split; [exact Ho|]. reflexivity.
Qed.

(** An invariant of the placement loop: it holds at the end when it
    holds at the start and every placement keeps it. *)
Lemma placeCats_invariant (I : GenState -> Prop) (config : LevelConfig)
    (gs target : Z) (all : list Cell) :
  (forall st cell dir s1 skin ident,
      I st -> In cell all ->
      Z.of_nat (length (fst st)) < target ->
      isOccupied (fst cell) (snd cell) (snd st) = false ->
      isValid (fst cell - dx (getDelta dir)) (snd cell - dy (getDelta dir)) gs = true ->
      isOccupied (fst cell - dx (getDelta dir)) (snd cell - dy (getDelta dir)) (snd st)
        = false ->
      I (genStep config cell dir (random s1) skin ident st)) ->
  forall cells st s,
    (forall c, In c cells -> In c all) ->
    I st ->
    I (fst (placeCats random toBase36 config gs target cells st s)).
Proof.
  intros Hstep. induction cells as [|cell rest IH]; intros st s Hsub HI;
    cbn [placeCats]; [exact HI|].
  destruct (Z.leb_spec target (Z.of_nat (length (fst st)))) as [Hfull|Hroom];
    [exact HI|].
  assert (Hrest : forall c, In c rest -> In c all) by (intros c Hc; apply Hsub; now right).
  destruct (isOccupied (fst cell) (snd cell) (snd st)) eqn:Hocc;
    [now apply IH|].
  unfold bind.
  destruct (fisherYates random 3 [UP; DOWN; LEFT; RIGHT] s) as [dirs s1].
  destruct (tryDirections_cases config gs cell dirs st s1) as [E|(dir & s2 & skin & ident & Hv & Ho & E)];
    destruct (tryDirections random toBase36 config gs cell dirs st s1) as [st' s3];
    cbn [fst] in E; subst st'; apply IH; auto.
  apply Hstep; auto. apply Hsub. now left.
Qed.

(** On level 1 no piece is a bomb, whatever the draws. *)
Lemma level1_no_bomb (s : nat) :
  (forall k, (0 <= random k)%Q) ->
  Forall (fun c => type c = NORMAL)
         (cats (fst (generateLevel random randomSort toBase36 1 s))).
Proof.
  intros Hpos. unfold generateLevel, bind.
  destruct (randomBelow random _ s) as [e s1].
  destruct (randomSort Cell _ s1) as [shuffled s2].
  set (cells := Array_sort _ shuffled).
  set (target := (_ - _) / 2).
  assert (HI : Forall (fun c => type c = NORMAL)
                 (fst (fst (placeCats random toBase36 (getLevelConfig 1)
                              (size (getLevelConfig 1)) target cells ([], ∅) s2)))).
  { apply (placeCats_invariant (fun st => Forall (fun c => type c = NORMAL) (fst st))
             (getLevelConfig 1) (size (getLevelConfig 1)) target cells);
      [|auto|constructor].
    intros st cell dir k skin ident HI _ _ _ _ _. unfold genStep. cbn [fst].
    apply Forall_app. split; [exact HI|]. constructor; [|constructor].
    cbn [type]. change (bombChance (getLevelConfig 1)) with 0%Q.
    destruct (Qltb (random k) 0) eqn:E; [|reflexivity].
    apply Qltb_lt in E. specialize (Hpos k). lra. }
  destruct (placeCats _ _ _ _ _ _ _ _) as [st s3]. cbn [fst cats] in *.
  eapply Permutation_Forall; [|exact HI].
  symmetry. apply Array_sort_perm.
Qed.

End GeneratorFacts.

(** C9. The level configuration is a step function of the level
    number: grid size 8, 9, 10, 11 from levels 1, 5, 10, 20; palette size
    [min(8, 2 + floor((level - 1) / 3))]; bomb probability 0, 0.05, 0.10,
    0.15 from levels 1, 5, 15, 30; an unlock message at levels 1 and 5
    and at no other.  [generateLevel(1)] returns an 8 x 8 grid, the
    level-1 message and no bomb piece, [Math.random] never being
    negative. *)
Theorem level_config_steps
    (random : nat -> Q) (randomSort : forall A : Type, list A -> nat -> list A * nat)
    (toBase36 : Q -> string) (s : nat) :
  (forall k, (0 <= random k)%Q) ->
  (forall lvl,
      size (getLevelConfig lvl) =
        (if lvl <? 5 then 8 else if lvl <? 10 then 9 else if lvl <? 20 then 10 else 11) /\
      skinCount (getLevelConfig lvl) = Z.min 8 (2 + (lvl - 1) / 3) /\
      bombChance (getLevelConfig lvl) =
        (if lvl <? 5 then 0 else if lvl <? 15 then 5 # 100
         else if lvl <? 30 then 10 # 100 else 15 # 100)%Q /\
      (unlockMsg (getLevelConfig lvl) <> None <-> lvl = 1 \/ lvl = 5)) /\
  gridSize (fst (generateLevel random randomSort toBase36 1 s)) = 8 /\
  unlockedMessage (fst (generateLevel random randomSort toBase36 1 s))
    = Some "Tap cats to clear!"%string /\
  List.filter (fun c => match type c with BOMB => true | NORMAL => false end)
              (cats (fst (generateLevel random randomSort toBase36 1 s))) = [].
Proof.
  intros Hpos. split; [apply getLevelConfig_steps|].
  assert (Hnb := level1_no_bomb random randomSort toBase36 s Hpos).
  unfold generateLevel, bind in *.
  destruct (randomBelow random _ s) as [e s1].
  destruct (randomSort Cell _ s1) as [shuffled s2].
  destruct (placeCats _ _ _ _ _ _ _ _) as [st s3]. cbn [fst cats gridSize unlockedMessage] in *.
  split; [reflexivity|]. split; [reflexivity|].
  induction Hnb as [|c l Hc Hl IH]; [reflexivity|].
  cbn [List.filter]. rewrite Hc. exact IH.
Qed.

(** ** The hint search *)

Lemma Qeq_bool_spec (a b : Q) : reflect (a == b)%Q (Qeq_bool a b).
Proof.
  destruct (Qeq_bool a b) eqn:E; constructor.
  - now apply Qeq_bool_iff.
  - now apply Qeq_bool_neq.
Qed.

Lemma obstructs_true (ident : string) (nx ny : Q) (b : CatEntity) :
  obstructs ident nx ny b = true <->
  id b <> ident /\ isExited b = false /\ occupies b nx ny.
Proof.
  unfold obstructs, occupies.
  destruct (String.eqb_spec (id b) ident) as [E|E]; cbn [orb].
  - split; [discriminate | intros (N & _); contradiction].
  - destruct (isExited b); [split; [discriminate | intros (_ & F & _); discriminate]|].
    destruct (Qeq_bool_spec (inject_Z (Math_round (x b))) nx),
             (Qeq_bool_spec (inject_Z (Math_round (y b))) ny),
             (Qeq_bool_spec (inject_Z (Math_round (tailX b))) nx),
             (Qeq_bool_spec (inject_Z (Math_round (tailY b))) ny);
      cbn [andb];
      (split; [intros H; try discriminate; tauto
              | intros (_ & _ & H); try reflexivity; tauto]).
Qed.

Lemma find_None_existsb {A} (p : A -> bool) (l : list A) :
  find p l = None <-> existsb p l = false.
Proof.
  induction l as [|a l IH]; simpl; [tauto|].
  destruct (p a); simpl; [split; discriminate | exact IH].
Qed.

Lemma clearStep_iff (gs : Z) (cs : list CatEntity) (cat : CatEntity) (j : Z) :
  clearStep gs cs cat j <->
  outOfGrid gs (stepX cat j) (stepY cat j) = false /\
  forall b, In b cs -> id b <> id cat -> isExited b = false ->
            ~ occupies b (stepX cat j) (stepY cat j).
Proof.
  unfold clearStep. split; intros [Hin Hfree]; (split; [exact Hin|]).
  - intros b Hb Hid Hact Hocc.
    assert (Ho : obstructs (id cat) (stepX cat j) (stepY cat j) b = true)
      by (apply obstructs_true; auto).
    rewrite (find_none _ _ Hfree b Hb) in Ho. discriminate.
  - destruct (find _ cs) as [b|] eqn:E; [|reflexivity].
    apply find_some in E. destruct E as [Hb Ho].
    apply obstructs_true in Ho. destruct Ho as (Hid & Hact & Hocc).
    exfalso. exact (Hfree b Hb Hid Hact Hocc).
Qed.

(** The blocking test of the hint search, run on the active pieces,
    answers as the obstacle search of the move handler does on all. *)
Lemma hintBlocks_obstructs (cat : CatEntity) (nx ny : Q) (cs : list CatEntity) :
  existsb (hintBlocks cat nx ny) (List.filter active cs)
  = existsb (obstructs (id cat) nx ny) cs.
Proof.
  induction cs as [|b cs IH]; [reflexivity|]. cbn [List.filter existsb].
  unfold active at 1. destruct (isExited b) eqn:Eb; cbn [negb].
  - rewrite IH. unfold obstructs at 2. rewrite Eb, orb_true_r. reflexivity.
  - cbn [existsb]. rewrite IH. f_equal.
    unfold hintBlocks, obstructs. rewrite Eb, orb_false_r. reflexivity.
Qed.

Lemma hintLoop_raycastLoop (gs : Z) (cs : list CatEntity) (cat : CatEntity) :
  forall (n : nat) (step : Z) (tx ty : Q),
    hintLoop gs (List.filter active cs) cat n step
    = willExit (raycastLoop gs cs cat n step tx ty).
Proof.
  induction n as [|n IH]; intros step tx ty; [reflexivity|].
  cbn [hintLoop raycastLoop].
  destruct (outOfGrid gs _ _); [reflexivity|].
  rewrite hintBlocks_obstructs.
  destruct (find _ cs) as [b|] eqn:E.
  - destruct (existsb _ cs) eqn:E'; [reflexivity|].
    apply find_None_existsb in E'. congruence.
  - apply find_None_existsb in E. rewrite E. apply IH.
Qed.

Lemma canExit_raycast (gs : Z) (cs : list CatEntity) (cat : CatEntity) :
  canExit gs (List.filter active cs) cat = willExit (raycast gs cs cat).
Proof. apply hintLoop_raycastLoop. Qed.

Lemma willExit_ReachesBoundary (gs : Z) (cs : list CatEntity) (cat : CatEntity) :
  willExit (raycast gs cs cat) = true <-> ReachesBoundary gs cs cat.
Proof.
  unfold ReachesBoundary, raycast. split.
  - intros Hw.
    destruct (raycastLoop_cases gs cs cat (Z.to_nat gs) 1 (x cat) (y cat))
      as [(k & Hk & Hcl & Hout & _) | (m & _ & _ & Hno & _)].
    + symmetry. apply stepX_0.
    + symmetry. apply stepY_0.
    + exists k. split; [lia|]. split; [|exact Hout].
      intros j Hj. apply clearStep_iff. apply Hcl. lia.
    + rewrite Hno in Hw. discriminate.
  - intros (k & Hk & Hcl & Hout).
    rewrite (raycastLoop_exit gs cs cat (Z.to_nat gs) 1 (x cat) (y cat) k);
      [reflexivity | lia | | exact Hout].
    intros j Hj. apply clearStep_iff. apply Hcl. exact Hj.
Qed.

Lemma find_split {A} (p : A -> bool) (l : list A) (a : A) :
  find p l = Some a ->
  exists before after,
    l = before ++ a :: after /\ p a = true /\ Forall (fun b => p b = false) before.
Proof.
  induction l as [|b l IH]; simpl; [discriminate|].
  destruct (p b) eqn:E.
  - intros [= ->]. exists [], l. auto.
  - intros H. destruct (IH H) as (l1 & l2 & -> & Hp & Hf).
    exists (b :: l1), l2. split; [reflexivity|]. split; [exact Hp|].
    constructor; assumption.
Qed.

(** C7. [findHint] returns the first active piece, in list order, whose
    ray reaches the grid boundary with no obstruction on the way, as the
    raycast of the move handler sees it; it returns nothing when no
    active piece has such a ray.  It never returns a piece whose ray
    another non-exited piece obstructs. *)
Theorem findHint_first_exit (gs : Z) (cs : list CatEntity) :
  match findHint gs cs with
  | Some c =>
      exists before after,
        List.filter active cs = before ++ c :: after /\
        ReachesBoundary gs cs c /\
        willExit (raycast gs cs c) = true /\
        Forall (fun c' => ~ ReachesBoundary gs cs c') before
  | None =>
      forall c, In c cs -> isExited c = false -> ~ ReachesBoundary gs cs c
  end.
Proof.
  unfold findHint.
  destruct (find (canExit gs (List.filter active cs)) (List.filter active cs))
    as [c|] eqn:E.
  - destruct (find_split _ _ _ E) as (before & after & Hl & Hc & Hb).
    exists before, after. split; [exact Hl|].
    rewrite canExit_raycast in Hc.
    split; [now apply willExit_ReachesBoundary|]. split; [exact Hc|].
    eapply Forall_impl; [exact Hb|]. cbn beta. intros c' Hc' Hr.
    apply willExit_ReachesBoundary in Hr.
    rewrite canExit_raycast in Hc'. congruence.
  - intros c Hc Hact Hr. apply willExit_ReachesBoundary in Hr.
    assert (Hin : In c (List.filter active cs)).
    { apply filter_In. split; [exact Hc|]. unfold active. now rewrite Hact. }
    assert (Hn := find_none _ _ E c Hin).
    rewrite canExit_raycast in Hn. congruence.
Qed.

(** ** Sorted output *)

Lemma rowMajor_le (a b : CatEntity) :
  Qle_bool (rowMajor a b) 0 = true -> rowMajorLe a b.
Proof.
  unfold rowMajor, rowMajorLe. intros H.
  destruct (Qeq_bool_spec (y a - y b) 0) as [E|E]; apply Qle_bool_iff in H.
  - right. split; lra.
  - left. destruct (Qlt_le_dec (y a) (y b)) as [L|L]; [exact L|].
    exfalso. apply E. lra.
Qed.

Lemma rowMajor_gt (a b : CatEntity) :
  Qle_bool (rowMajor a b) 0 = false -> rowMajorLe b a.
Proof.
  unfold rowMajor, rowMajorLe. intros H.
  assert (G : (0 < (if Qeq_bool (y a - y b) 0 then x a - x b else y a - y b))%Q).
  { destruct (Qlt_le_dec 0 (if Qeq_bool (y a - y b) 0 then x a - x b else y a - y b))
      as [L|L]; [exact L|].
    apply Qle_bool_iff in L. congruence. }
  destruct (Qeq_bool_spec (y a - y b) 0) as [E|E].
  - right. split; lra.
  - left. lra.
Qed.

Lemma rowMajorLe_trans (a b c : CatEntity) :
  rowMajorLe a b -> rowMajorLe b c -> rowMajorLe a c.
Proof.
  unfold rowMajorLe. intros [H1|[H1 H1']] [H2|[H2 H2']].
  - left; lra.
  - left; lra.
  - left; lra.
  - right; split; lra.
Qed.

Lemma insertBy_rowMajor_HdRel (c a : CatEntity) (l : list CatEntity) :
  HdRel rowMajorLe c l -> rowMajorLe c a -> HdRel rowMajorLe c (insertBy rowMajor a l).
Proof.
  intros Hl Hca. destruct l as [|b l]; simpl; [now constructor|].
  destruct (Qle_bool (rowMajor a b) 0); constructor; [exact Hca|].
  now inversion Hl.
Qed.

Lemma insertBy_rowMajor_Sorted (a : CatEntity) (l : list CatEntity) :
  Sorted rowMajorLe l -> Sorted rowMajorLe (insertBy rowMajor a l).
Proof.
  induction l as [|b l IH]; intros Hs; simpl.
  - constructor; constructor.
  - destruct (Qle_bool (rowMajor a b) 0) eqn:E.
    + constructor; [exact Hs|]. constructor. now apply rowMajor_le.
    + inversion Hs as [|? ? Hs' Hhd]; subst. constructor; [now apply IH|].
      apply insertBy_rowMajor_HdRel; [exact Hhd | now apply rowMajor_gt].
Qed.

Lemma Array_sort_rowMajor_sorted (l : list CatEntity) :
  StronglySorted rowMajorLe (Array_sort rowMajor l).
Proof.
  apply Sorted_StronglySorted.
  - intros a b c. apply rowMajorLe_trans.
  - unfold Array_sort. induction l as [|a l IH]; simpl; [constructor|].
    now apply insertBy_rowMajor_Sorted.
Qed.

(** ** The shuffle *)

Section ShuffleFacts.

Variable randomSort : forall A : Type, list A -> nat -> list A * nat.

Lemma rehome_cases (gs : Z) (oldCat : CatEntity) (cell : Cell)
    (directions : list Direction) (st : ShuffleState) :
  rehome gs oldCat cell directions st = None \/
  exists dir,
    isValid (fst cell - dx (getDelta dir)) (snd cell - dy (getDelta dir)) gs = true /\
    isOccupied (fst cell - dx (getDelta dir)) (snd cell - dy (getDelta dir)) (snd st)
      = false /\
    rehome gs oldCat cell directions st = Some (shuffleStep oldCat cell dir st).
Proof.
  induction directions as [|dir rest IH]; cbn [rehome]; [now left|].
  destruct (isValid _ _ gs) eqn:Hv; cbn [andb]; [|exact IH].
  destruct (isOccupied _ _ (snd st)) eqn:Ho; cbn [negb]; [exact IH|].
  right. exists dir. auto.
Qed.

Lemma placeOne_cases (gs : Z) (oldCat : CatEntity) (cells : list Cell) :
  forall (st : ShuffleState) (s : nat),
    fst (placeOne randomSort gs oldCat cells st s) = st \/
    exists cell dir,
      In cell cells /\
      isOccupied (fst cell) (snd cell) (snd st) = false /\
      isValid (fst cell - dx (getDelta dir)) (snd cell - dy (getDelta dir)) gs = true /\
      isOccupied (fst cell - dx (getDelta dir)) (snd cell - dy (getDelta dir)) (snd st)
        = false /\
      fst (placeOne randomSort gs oldCat cells st s) = shuffleStep oldCat cell dir st.
Proof.
  induction cells as [|cell rest IH]; intros st s; cbn [placeOne]; [now left|].
  assert (Hrest : forall s',
             fst (placeOne randomSort gs oldCat rest st s') = st \/
             exists cell0 dir,
               In cell0 (cell :: rest) /\
               isOccupied (fst cell0) (snd cell0) (snd st) = false /\
               isValid (fst cell0 - dx (getDelta dir)) (snd cell0 - dy (getDelta dir)) gs
                 = true /\
               isOccupied (fst cell0 - dx (getDelta dir)) (snd cell0 - dy (getDelta dir))
                 (snd st) = false /\
               fst (placeOne randomSort gs oldCat rest st s')
                 = shuffleStep oldCat cell0 dir st).
  { intros s'. destruct (IH st s') as [E|(c0 & d & Hin & H)]; [now left|].
    right. exists c0, d. split; [now right | exact H]. }
  destruct (isOccupied (fst cell) (snd cell) (snd st)) eqn:Hocc; [apply Hrest|].
  unfold bind. destruct (randomSort Direction _ s) as [dirs s1].
  destruct (rehome_cases gs oldCat cell dirs st) as [E|(dir & Hv & Ho & E)]; rewrite E.
  - apply Hrest.
  - right. exists cell, dir. split; [now left|]. auto.
Qed.

(** An invariant of the re-placement loop. *)
Lemma placeAll_invariant (I : ShuffleState -> Prop) (gs : Z) (cells : list Cell) :
  forall (activeCats : list CatEntity),
    (forall st oldCat cell dir,
        I st -> In oldCat activeCats -> In cell cells ->
        isOccupied (fst cell) (snd cell) (snd st) = false ->
        isValid (fst cell - dx (getDelta dir)) (snd cell - dy (getDelta dir)) gs = true ->
        isOccupied (fst cell - dx (getDelta dir)) (snd cell - dy (getDelta dir)) (snd st)
          = false ->
        I (shuffleStep oldCat cell dir st)) ->
    forall st s, I st -> I (fst (placeAll randomSort gs activeCats cells st s)).
Proof.
  induction activeCats as [|oldCat rest IH]; intros Hstep st s HI;
    cbn [placeAll]; [exact HI|].
  unfold bind.
  destruct (placeOne_cases gs oldCat cells st s) as [E|(cell & dir & Hin & Ho & Hv & Ht & E)];
    destruct (placeOne randomSort gs oldCat cells st s) as [st' s'];
    cbn [fst] in E; subst st'; apply IH;
    try (intros st0 c0 cell0 dir0 H0 Hc0; apply Hstep; [exact H0 | now right]);
    try exact HI.
  apply Hstep; auto. now left.
Qed.

(** The pieces the loop places are, in order, re-homed copies of a
    sublist of the active pieces: the others are dropped. *)
Lemma placeAll_kept (gs : Z) (cells : list Cell) :
  forall (activeCats : list CatEntity) (st : ShuffleState) (s : nat),
    exists kept placed,
      sublist kept activeCats /\ Forall2 rehomed kept placed /\
      fst (fst (placeAll randomSort gs activeCats cells st s)) = fst st ++ placed.
Proof.
  induction activeCats as [|oldCat rest IH]; intros st s; cbn [placeAll].
  - exists [], []. split; [constructor|]. split; [constructor|].
    cbn. now rewrite app_nil_r.
  - unfold bind.
    destruct (placeOne_cases gs oldCat cells st s) as [E|(cell & dir & _ & _ & _ & _ & E)];
      destruct (placeOne randomSort gs oldCat cells st s) as [st' s'];
      cbn [fst] in E; subst st'.
    + destruct (IH st s') as (kept & placed & Hsub & Hre & Heq).
      exists kept, placed. split; [now constructor|]. split; [exact Hre | exact Heq].
    + destruct (IH (shuffleStep oldCat cell dir st) s') as (kept & placed & Hsub & Hre & Heq).
      eexists (oldCat :: kept), (_ :: placed).
      split; [now constructor|]. split.
      2: { rewrite Heq. unfold shuffleStep. cbn [fst]. rewrite <- app_assoc.
           reflexivity. }
      constructor; [|exact Hre]. unfold rehomed. cbn. auto 10.
Qed.

Lemma shuffleCats_unfold (cs : list CatEntity) (gs : Z) (s : nat) :
  exists cells s1,
    randomSort Cell (allCells gs) s = (cells, s1) /\
    fst (shuffleCats randomSort cs gs s)
    = Array_sort rowMajor
        (List.filter isExited cs
           ++ fst (fst (placeAll randomSort gs (List.filter active cs) cells ([], ∅) s1))).
Proof.
  unfold shuffleCats, bind.
  destruct (randomSort Cell (allCells gs) s) as [cells s1].
  exists cells, s1. split; [reflexivity|].
  destruct (placeAll _ _ _ _ _ _) as [st s2]. reflexivity.
Qed.

End ShuffleFacts.

Lemma rehome_None (gs : Z) (oldCat : CatEntity) (cell : Cell)
    (directions : list Direction) (st : ShuffleState) :
  rehome gs oldCat cell directions st = None ->
  forall dir, In dir directions -> ~ fits gs (snd st) cell dir.
Proof.
  induction directions as [|d rest IH]; cbn [rehome]; intros Hnone dir Hin;
    [contradiction|].
  destruct (isValid _ _ gs && negb (isOccupied _ _ (snd st))) eqn:Hok;
    [discriminate|].
  destruct Hin as [->|Hin]; [|now apply IH].
  intros (_ & Hv & Ho). rewrite Hv, Ho in Hok. discriminate.
Qed.

Lemma shuffleStep_rehomedAt (oldCat : CatEntity) (cell : Cell) (dir : Direction)
    (st : ShuffleState) :
  shuffleStep oldCat cell dir st
  = (fst st ++ [rehomedAt oldCat cell dir],
     markOccupied (fst cell - dx (getDelta dir)) (snd cell - dy (getDelta dir))
       (markOccupied (fst cell) (snd cell) (snd st))).
Proof. reflexivity. Qed.

Lemma rehomedAt_rehomed (c : CatEntity) (cell : Cell) (dir : Direction) :
  rehomed c (rehomedAt c cell dir).
Proof. unfold rehomed. cbn. auto 10. Qed.

Lemma Rehomes_kept (gs : Z) (cells : list Cell) (occupied : gset Cell)
    (pieces placed : list CatEntity) :
  Rehomes gs cells occupied pieces placed ->
  exists kept, sublist kept pieces /\ Forall2 rehomed kept placed.
Proof.
  induction 1 as [occ|occ c rest placed before after cell dir _ _ _ _ (kept & Hs & Hf)
                 |occ c rest placed _ _ (kept & Hs & Hf)].
  - exists []. split; constructor.
  - exists (c :: kept). split; [now constructor|].
    constructor; [apply rehomedAt_rehomed | exact Hf].
  - exists kept. split; [now constructor | exact Hf].
Qed.

Section ShuffleTrace.

Variable randomSort : forall A : Type, list A -> nat -> list A * nat.

Hypothesis randomSort_reorders :
  forall (A : Type) (l : list A) (n : nat), Permutation (fst (randomSort A l n)) l.

(** One active piece: it goes to the first cell that fits, or the state
    stays as it was because no cell fits. *)
Lemma placeOne_first_fit (gs : Z) (oldCat : CatEntity) (cells : list Cell) :
  forall (st : ShuffleState) (s : nat),
    (fst (placeOne randomSort gs oldCat cells st s) = st /\
     forall cell dir, In cell cells -> ~ fits gs (snd st) cell dir) \/
    exists before cell after dir,
      cells = before ++ cell :: after /\
      (forall cell' dir', In cell' before -> ~ fits gs (snd st) cell' dir') /\
      fits gs (snd st) cell dir /\
      fst (placeOne randomSort gs oldCat cells st s) = shuffleStep oldCat cell dir st.
Proof.
  induction cells as [|cell rest IH]; intros st s; cbn [placeOne].
  - left. split; [reflexivity|]. intros c d [].
  - assert (Hskip : (forall dir, ~ fits gs (snd st) cell dir) ->
              forall s',
                (fst (placeOne randomSort gs oldCat rest st s') = st /\
                 forall cell0 dir, In cell0 (cell :: rest) -> ~ fits gs (snd st) cell0 dir) \/
                exists before cell0 after dir,
                  cell :: rest = before ++ cell0 :: after /\
                  (forall cell' dir', In cell' before -> ~ fits gs (snd st) cell' dir') /\
                  fits gs (snd st) cell0 dir /\
                  fst (placeOne randomSort gs oldCat rest st s')
                  = shuffleStep oldCat cell0 dir st).
    { intros Hno s'.
      destruct (IH st s') as [[E Hnone]|(before & c0 & after & d & -> & Hb & Hf & E)].
      - left. split; [exact E|]. intros c1 d1 [<-|Hin]; [apply Hno | now apply Hnone].
      - right. exists (cell :: before), c0, after, d.
        split; [reflexivity|]. split; [|split; [exact Hf | exact E]].
        intros c1 d1 [<-|Hin]; [apply Hno | now apply Hb]. }
    destruct (isOccupied (fst cell) (snd cell) (snd st)) eqn:Hocc.
    + apply Hskip. intros dir (Hfree & _). congruence.
    + unfold bind.
      assert (Hdirs := randomSort_reorders Direction [UP; DOWN; LEFT; RIGHT] s).
      destruct (randomSort Direction [UP; DOWN; LEFT; RIGHT] s) as [dirs s1].
      cbn [fst] in Hdirs.
      destruct (rehome gs oldCat cell dirs st) as [st'|] eqn:Hre.
      * destruct (rehome_cases gs oldCat cell dirs st) as [E|(dir & Hv & Ho & E)];
          [congruence|].
        right. exists [], cell, rest, dir.
        split; [reflexivity|]. split; [intros c1 d1 []|].
        split; [now split|]. unfold ret. cbn [fst]. congruence.
      * apply Hskip. intros dir. apply (rehome_None gs oldCat cell dirs st Hre).
        eapply Permutation_in; [symmetry; exact Hdirs|].
        destruct dir; cbn; auto.
Qed.

Lemma placeAll_Rehomes (gs : Z) (cells : list Cell) :
  forall (activeCats : list CatEntity) (st : ShuffleState) (s : nat),
    exists placed,
      Rehomes gs cells (snd st) activeCats placed /\
      fst (fst (placeAll randomSort gs activeCats cells st s)) = fst st ++ placed.
Proof.
  induction activeCats as [|oldCat rest IH]; intros st s; cbn [placeAll].
  - exists []. split; [constructor|]. cbn. now rewrite app_nil_r.
  - unfold bind.
    destruct (placeOne_first_fit gs oldCat cells st s)
      as [[E Hnone]|(before & cell & after & dir & Hc & Hb & Hf & E)];
      destruct (placeOne randomSort gs oldCat cells st s) as [st' s'];
      cbn [fst] in E; subst st'.
    + destruct (IH st s') as (placed & HR & Heq).
      exists placed. split; [now constructor | exact Heq].
    + destruct (IH (shuffleStep oldCat cell dir st) s') as (placed & HR & Heq).
      exists (rehomedAt oldCat cell dir :: placed). split.
      * econstructor; eassumption.
      * rewrite Heq, shuffleStep_rehomedAt. cbn [fst]. now rewrite <- app_assoc.
Qed.

End ShuffleTrace.

(** C6. With a random-comparator sort that reorders its array,
    [shuffleCats] goes through the active pieces in order: each is put
    on the first cell of the reordered grid cells that is free and has a
    free grid cell behind it for some direction, and is left out, with
    no error, only when no cell and direction fit.  A piece that is put
    keeps its id, kind, timer, variant and exited flag; its head and
    direction are the new ones and its moving flag is off.  The result
    holds exactly the exited pieces, as they were, and the pieces that
    were put, sorted row-major. *)
Theorem shuffleCats_frame
    (randomSort : forall A : Type, list A -> nat -> list A * nat)
    (cs : list CatEntity) (gs : Z) (s : nat) :
  (forall (A : Type) (l : list A) (n : nat), Permutation (fst (randomSort A l n)) l) ->
  let result := fst (shuffleCats randomSort cs gs s) in
  let cells := fst (randomSort Cell (allCells gs) s) in
  exists placed,
    Permutation cells (allCells gs) /\
    Rehomes gs cells ∅ (List.filter active cs) placed /\
    (exists kept,
        sublist kept (List.filter active cs) /\ Forall2 rehomed kept placed) /\
    result = Array_sort rowMajor (List.filter isExited cs ++ placed) /\
    Permutation result (List.filter isExited cs ++ placed) /\
    (forall c, In c cs -> isExited c = true -> In c result) /\
    StronglySorted rowMajorLe result.
Proof.
  intros Hperm. cbn zeta.
  assert (Hp := Hperm Cell (allCells gs) s).
  destruct (shuffleCats_unfold randomSort cs gs s) as (cells & s1 & Hrs & Heq).
  rewrite Hrs in Hp |- *. cbn [fst] in Hp |- *.
  destruct (placeAll_Rehomes randomSort Hperm gs cells (List.filter active cs) ([], ∅) s1)
    as (placed & HR & Hpl).
  cbn [fst snd app] in Hpl, HR. rewrite Hpl in Heq.
  exists placed. split; [exact Hp|]. split; [exact HR|].
  split; [eapply Rehomes_kept; exact HR|]. split; [exact Heq|].
  split; [|split].
  - rewrite Heq. apply Array_sort_perm.
  - intros c Hc Hex. rewrite Heq.
    eapply Permutation_in; [symmetry; apply Array_sort_perm|].
    apply in_or_app. left. apply filter_In. auto.
  - rewrite Heq. apply Array_sort_rowMajor_sorted.
Qed.

Lemma shuffleCats_frame_witness :
  (forall (A : Type) (l : list A) (n : nat), Permutation (fst (keepOrder A l n)) l) /\
  fst (shuffleCats keepOrder [scenarioA; exitedCat; scenarioB; loneCat] 2 0%nat)
  = [rehomedAt scenarioA (0, 0) UP; rehomedAt scenarioB (1, 0) UP; exitedCat] /\
  exists placed,
    Permutation (fst (keepOrder Cell (allCells 2) 0%nat)) (allCells 2) /\
    Rehomes 2 (fst (keepOrder Cell (allCells 2) 0%nat)) ∅
      (List.filter active [scenarioA; exitedCat; scenarioB; loneCat]) placed /\
    (exists kept,
        sublist kept (List.filter active [scenarioA; exitedCat; scenarioB; loneCat]) /\
        Forall2 rehomed kept placed) /\
    fst (shuffleCats keepOrder [scenarioA; exitedCat; scenarioB; loneCat] 2 0%nat)
    = Array_sort rowMajor
        (List.filter isExited [scenarioA; exitedCat; scenarioB; loneCat] ++ placed) /\
    Permutation
      (fst (shuffleCats keepOrder [scenarioA; exitedCat; scenarioB; loneCat] 2 0%nat))
      (List.filter isExited [scenarioA; exitedCat; scenarioB; loneCat] ++ placed) /\
    (forall c, In c [scenarioA; exitedCat; scenarioB; loneCat] -> isExited c = true ->
               In c (fst (shuffleCats keepOrder
                            [scenarioA; exitedCat; scenarioB; loneCat] 2 0%nat))) /\
    StronglySorted rowMajorLe
      (fst (shuffleCats keepOrder [scenarioA; exitedCat; scenarioB; loneCat] 2 0%nat)).
Proof.
  assert (Hperm : forall (A : Type) (l : list A) (n : nat),
             Permutation (fst (keepOrder A l n)) l) by (intros; reflexivity).
  split; [exact Hperm|]. split; [vm_compute; reflexivity|].
  exact (shuffleCats_frame keepOrder [scenarioA; exitedCat; scenarioB; loneCat] 2 0%nat
           Hperm).
Defined.

(** ** Exited pieces *)

Lemma filter_filter_same {A} (p : A -> bool) (l : list A) :
  List.filter p (List.filter p l) = List.filter p l.
Proof.
  induction l as [|a l IH]; simpl; [reflexivity|].
  destruct (p a) eqn:E; simpl; rewrite ?E, IH; reflexivity.
Qed.

Lemma filter_none {A} (p : A -> bool) (l : list A) :
  Forall (fun a => p a = false) l -> List.filter p l = [].
Proof.
  induction 1 as [|a l Ha Hl IH]; simpl; [reflexivity|]. now rewrite Ha.
Qed.

Lemma filter_Permutation_bool {A} (p : A -> bool) (l l' : list A) :
  Permutation l l' -> Permutation (List.filter p l) (List.filter p l').
Proof.
  induction 1 as [|a l l' H IH|a b l|l l' l'' H1 IH1 H2 IH2]; simpl.
  - constructor.
  - destruct (p a); [now constructor | exact IH].
  - destruct (p a), (p b); try reflexivity. apply perm_swap.
  - now transitivity (List.filter p l').
Qed.

Lemma filter_insertBy_skip {A} (p : A -> bool) (cmp : A -> A -> Q) (a : A) (l : list A) :
  p a = false -> List.filter p (insertBy cmp a l) = List.filter p l.
Proof.
  intros Ha. induction l as [|b l IH]; simpl; [now rewrite Ha|].
  destruct (Qle_bool (cmp a b) 0); simpl; [now rewrite Ha|].
  now rewrite IH.
Qed.

(** Elements that fail [p] and stand in front do not change what the
    sort leaves of the others. *)
Lemma filter_Array_sort_skip {A} (p : A -> bool) (cmp : A -> A -> Q) (front l : list A) :
  Forall (fun a => p a = false) front ->
  List.filter p (Array_sort cmp (front ++ l)) = List.filter p (Array_sort cmp l).
Proof.
  induction 1 as [|a front Ha Hf IH]; [reflexivity|].
  change (Array_sort cmp ((a :: front) ++ l))
    with (insertBy cmp a (Array_sort cmp (front ++ l))).
  rewrite filter_insertBy_skip by exact Ha. exact IH.
Qed.

Lemma find_delete {A} (p : A -> bool) (l : list A) (i : nat) (a : A) :
  l !! i = Some a -> p a = false -> find p (delete i l) = find p l.
Proof.
  revert i. induction l as [|b l IH]; intros [|i] H Hp; simpl in *; try discriminate.
  - injection H as ->. now rewrite Hp.
  - destruct (p b); [reflexivity|]. now apply IH.
Qed.

Lemma filter_delete {A} (p : A -> bool) (l : list A) (i : nat) (a : A) :
  l !! i = Some a -> p a = false -> List.filter p (delete i l) = List.filter p l.
Proof.
  revert i. induction l as [|b l IH]; intros [|i] H Hp; simpl in *; try discriminate.
  - injection H as ->. now rewrite Hp.
  - destruct (p b); [f_equal|]; now apply IH.
Qed.

Lemma lookup_map {A B} (f : A -> B) (l : list A) (i : nat) (a : A) :
  l !! i = Some a -> map f l !! i = Some (f a).
Proof.
  revert i. induction l as [|b l IH]; intros [|i] H; simpl in *; try discriminate.
  - now injection H as ->.
  - now apply IH.
Qed.

Lemma sublist_In {A} (l1 l2 : list A) (a : A) :
  sublist l1 l2 -> In a l1 -> In a l2.
Proof.
  induction 1 as [|b l1 l2 H IH|b l1 l2 H IH]; simpl; intros Ha; auto.
  destruct Ha as [->|Ha]; auto.
Qed.

Lemma obstructs_exited (ident : string) (nx ny : Q) (c : CatEntity) :
  isExited c = true -> obstructs ident nx ny c = false.
Proof. intros H. unfold obstructs. now rewrite H, orb_true_r. Qed.

Lemma raycastLoop_delete (gs : Z) (cs : list CatEntity) (i : nat) (c cat : CatEntity) :
  cs !! i = Some c -> isExited c = true ->
  forall (n : nat) (step : Z) (tx ty : Q),
    raycastLoop gs (delete i cs) cat n step tx ty = raycastLoop gs cs cat n step tx ty.
Proof.
  intros Hc Hex. induction n as [|n IH]; intros step tx ty; [reflexivity|].
  cbn [raycastLoop].
  rewrite (find_delete _ cs i c Hc) by (now apply obstructs_exited).
  destruct (outOfGrid gs _ _); [reflexivity|].
  destruct (find _ cs); [reflexivity|]. apply IH.
Qed.

Lemma tickCat_exited (c : CatEntity) : isExited c = true -> tickCat c = c.
Proof.
  intros H. unfold tickCat, isLiveBomb. rewrite H.
  destruct (type c); reflexivity.
Qed.

Lemma flipCat_exited (c : CatEntity) : isExited c = true -> flipCat c = c.
Proof. intros H. unfold flipCat. now rewrite H. Qed.

Lemma handleCatClick_exited_kept (gs : Z) (cs : list CatEntity) (ident : string)
    (i : nat) (c : CatEntity) :
  cs !! i = Some c -> isExited c = true -> handleCatClick gs cs ident !! i = Some c.
Proof.
  intros Hc Hex. unfold handleCatClick, resolveMove.
  destruct (findIndex _ cs) as [idx|]; [|exact Hc].
  destruct (cs !! idx) as [cat|] eqn:Hcat; [|exact Hc].
  destruct (isExited cat) eqn:Hact; [exact Hc|].
  destruct (_ && _)%bool; [exact Hc|].
  rewrite list_lookup_insert_ne; [exact Hc|].
  intros ->. rewrite Hcat in Hc. injection Hc as ->. congruence.
Qed.

Lemma placed_not_exited (kept placed cs : list CatEntity) :
  sublist kept (List.filter active cs) -> Forall2 rehomed kept placed ->
  Forall (fun c => isExited c = false) placed.
Proof.
  intros Hsub Hre.
  assert (Hk : Forall (fun c => isExited c = false) kept).
  { apply List.Forall_forall. intros a Ha.
    apply (sublist_In _ _ _ Hsub), filter_In in Ha. destruct Ha as [_ Ha].
    unfold active in Ha. now apply negb_true_iff in Ha. }
  clear Hsub. induction Hre as [|a b k p Hab Hre IH]; [constructor|].
  inversion Hk as [|? ? Ha Hk']; subst.
  constructor; [|apply IH; exact Hk'].
  destruct Hab as (_ & _ & _ & _ & He & _). congruence.
Qed.

(** C8. A piece whose exited flag is set stays as it is, at its place
    in the list, through a move, a flip and a bomb tick; a shuffle
    returns it unchanged and returns exactly the exited pieces it was
    given; the hint search never returns it.  Taking it out of the list
    changes neither the raycast of any piece, nor the hint, nor the
    active pieces a shuffle returns: it is never an obstruction. *)
Theorem exited_is_final
    (randomSort : forall A : Type, list A -> nat -> list A * nat)
    (gs : Z) (cs : list CatEntity) (i : nat) (c : CatEntity) (s : nat) :
  cs !! i = Some c -> isExited c = true ->
  (forall ident, handleCatClick gs cs ident !! i = Some c) /\
  flipAll cs !! i = Some c /\
  fst (bombTick cs) !! i = Some c /\
  In c (fst (shuffleCats randomSort cs gs s)) /\
  Permutation (List.filter isExited (fst (shuffleCats randomSort cs gs s)))
              (List.filter isExited cs) /\
  findHint gs cs <> Some c /\
  (forall mover, raycast gs (delete i cs) mover = raycast gs cs mover) /\
  findHint gs (delete i cs) = findHint gs cs /\
  List.filter active (fst (shuffleCats randomSort (delete i cs) gs s))
  = List.filter active (fst (shuffleCats randomSort cs gs s)).
Proof.
  intros Hc Hex.
  assert (Hin : In c cs) by (apply list_elem_of_In; eapply list_elem_of_lookup_2; exact Hc).
  assert (Hact : active c = false) by (unfold active; now rewrite Hex).
  destruct (shuffleCats_unfold randomSort cs gs s) as (cells & s1 & Hrs & Heq).
  destruct (placeAll_kept randomSort gs cells (List.filter active cs) ([], ∅) s1)
    as (kept & placed & Hsub & Hre & Hpl).
  cbn [fst app] in Hpl.
  assert (Hne := placed_not_exited kept placed cs Hsub Hre).
  split; [intros ident; now apply handleCatClick_exited_kept|].
  split; [unfold flipAll; rewrite (lookup_map _ _ _ _ Hc); now rewrite flipCat_exited|].
  split.
  { unfold bombTick. cbn [fst]. destruct (existsb tickChanges cs); [|exact Hc].
    rewrite (lookup_map _ _ _ _ Hc). now rewrite tickCat_exited. }
  split.
  { rewrite Heq. eapply Permutation_in; [symmetry; apply Array_sort_perm|].
    apply in_or_app. left. apply filter_In. auto. }
  split.
  { rewrite Heq, Hpl.
    rewrite (filter_Permutation_bool isExited _ _ (Array_sort_perm rowMajor _)).
    rewrite List.filter_app, filter_filter_same, (filter_none isExited placed Hne).
    now rewrite app_nil_r. }
  split.
  { unfold findHint. intros Hf. apply find_some in Hf. destruct Hf as [Hf _].
    apply filter_In in Hf. destruct Hf as [_ Hf]. congruence. }
  split.
  { intros mover. unfold raycast. now apply (raycastLoop_delete gs cs i c). }
  split.
  { unfold findHint. now rewrite (filter_delete active cs i c Hc Hact). }
  destruct (shuffleCats_unfold randomSort (delete i cs) gs s) as (cells' & s1' & Hrs' & Heq').
  rewrite Hrs in Hrs'. injection Hrs' as <- <-.
  rewrite Heq, Heq'. rewrite (filter_delete active cs i c Hc Hact).
  rewrite !filter_Array_sort_skip; [reflexivity| |].
  - apply List.Forall_forall. intros a Ha. apply filter_In in Ha.
    unfold active. destruct Ha as [_ ->]. reflexivity.
  - apply List.Forall_forall. intros a Ha. apply filter_In in Ha.
    unfold active. destruct Ha as [_ ->]. reflexivity.
Qed.

Lemma exited_is_final_witness :
  [scenarioA; exitedCat; scenarioB] !! 1%nat = Some exitedCat /\
  isExited exitedCat = true /\
  handleCatClick 8 [scenarioA; exitedCat; scenarioB] "B" !! 1%nat = Some exitedCat /\
  In exitedCat (fst (shuffleCats keepOrder [scenarioA; exitedCat; scenarioB] 8 0%nat)).
Proof.
  split; [reflexivity|]. split; [reflexivity|].
  destruct (exited_is_final keepOrder 8 [scenarioA; exitedCat; scenarioB] 1 exitedCat 0
              eq_refl eq_refl) as (Hmove & _ & _ & Hshuffle & _).
  split; [apply Hmove | exact Hshuffle].
Defined.

(** ** The placement invariant *)

Lemma integral_iff (q : Q) : integral q <-> exists z, (q == inject_Z z)%Q.
Proof.
  unfold integral. split.
  - intros H. exists (Math_round q). now symmetry.
  - intros [z Hz]. rewrite (Math_round_integral q z Hz). now symmetry.
Qed.

Lemma integral_minus (q : Q) (d : Z) : integral q -> integral (q - inject_Z d).
Proof.
  rewrite !integral_iff. intros [z Hz]. exists (z - d).
  unfold Z.sub. rewrite inject_Z_plus, inject_Z_opp, Hz. reflexivity.
Qed.

Lemma integral_step (q : Q) (d j : Z) :
  integral q -> integral (q + inject_Z d * inject_Z j).
Proof.
  rewrite !integral_iff. intros [z Hz]. exists (z + d * j).
  rewrite inject_Z_plus, inject_Z_mult, Hz. reflexivity.
Qed.

Lemma integral_inject (z : Z) : integral (inject_Z z).
Proof. apply integral_iff. now exists z. Qed.

Lemma integral_Qeq (q q' : Q) : (q == q')%Q -> integral q -> integral q'.
Proof.
  rewrite !integral_iff. intros E [z Hz]. exists z. now rewrite <- E.
Qed.

Lemma onGrid_tail_integral (gs : Z) (c : CatEntity) :
  onGrid gs c -> integral (tailX c) /\ integral (tailY c).
Proof.
  intros (Hx & Hy & _). unfold tailX, tailY. split; now apply integral_minus.
Qed.

Lemma disjointCells_sym (c1 c2 : CatEntity) :
  disjointCells c1 c2 -> disjointCells c2 c1.
Proof.
  unfold disjointCells, sameCell. intros (H1 & H2 & H3 & H4).
  repeat split; intros [E1 E2];
    [apply H1 | apply H3 | apply H2 | apply H4]; split; now symmetry.
Qed.

Lemma lookup_In {A} (l : list A) (i : nat) (a : A) : l !! i = Some a -> In a l.
Proof.
  revert i. induction l as [|b l IH]; intros [|i] H; simpl in *; try discriminate.
  - left. now injection H.
  - right. now apply (IH i).
Qed.

Lemma NoDup_map_lookup {A B} (f : A -> B) (l : list A) (i j : nat) (a b : A) :
  List.NoDup (map f l) -> l !! i = Some a -> l !! j = Some b -> f a = f b -> i = j.
Proof.
  revert i j. induction l as [|c l IH]; intros i j Hnd Hi Hj Hf; [discriminate|].
  simpl in Hnd. inversion Hnd as [|? ? Hnot Hnd']; subst.
  destruct i as [|i], j as [|j]; simpl in *.
  - reflexivity.
  - injection Hi as ->. exfalso. apply Hnot. rewrite Hf.
    apply in_map. now apply (lookup_In l j).
  - injection Hj as ->. exfalso. apply Hnot. rewrite <- Hf.
    apply in_map. now apply (lookup_In l i).
  - f_equal. now apply IH.
Qed.

(** The invariant gives the data-model invariant. *)
Lemma Inv_WellPlaced (gs : Z) (cs : list CatEntity) : Inv gs cs -> WellPlaced gs cs.
Proof.
  intros (Hnd & Hon & Hdis). split.
  - intros c Hc Hact. destruct (Hon c Hc Hact) as (_ & _ & Hh & Ht). auto.
  - intros i j ci cj Hij Hi Hj Hai Haj.
    apply Hdis; auto; try (eapply lookup_In; eassumption).
    intros Hid. apply Hij. exact (NoDup_map_lookup id cs i j ci cj Hnd Hi Hj Hid).
Qed.

Lemma Inv_Permutation (gs : Z) (cs cs' : list CatEntity) :
  Permutation cs cs' -> Inv gs cs -> Inv gs cs'.
Proof.
  intros Hp (Hnd & Hon & Hdis). split; [|split].
  - eapply Permutation_NoDup; [|exact Hnd]. now apply Permutation_map.
  - intros c Hc. apply Hon. eapply Permutation_in; [symmetry|]; eassumption.
  - intros c1 c2 H1 H2. apply Hdis; (eapply Permutation_in; [symmetry|]; eassumption).
Qed.

(** *** The flip keeps the invariant *)

Lemma flipCat_id (c : CatEntity) : id (flipCat c) = id c.
Proof. now destruct (flipCat_effect c) as (H & _). Qed.

Lemma flipCat_isExited (c : CatEntity) : isExited (flipCat c) = isExited c.
Proof. now destruct (flipCat_effect c) as (_ & _ & _ & _ & H & _). Qed.

(** A flipped piece has its head where its tail was, and its tail
    where its head was. *)
Lemma flipCat_cells (c : CatEntity) :
  isExited c = false ->
  (x (flipCat c) == tailX c /\ y (flipCat c) == tailY c /\
   tailX (flipCat c) == x c /\ tailY (flipCat c) == y c)%Q.
Proof.
  intros H. unfold tailX, tailY, flipCat. rewrite H. cbn.
  destruct (direction c); cbn; repeat split; ring.
Qed.

Lemma Inv_flipAll (gs : Z) (cs : list CatEntity) : Inv gs cs -> Inv gs (flipAll cs).
Proof.
  intros (Hnd & Hon & Hdis). unfold flipAll. split; [|split].
  - rewrite map_map. erewrite map_ext; [exact Hnd|]. intros c. apply flipCat_id.
  - intros c' Hc' Hact. apply in_map_iff in Hc'. destruct Hc' as (c & <- & Hc).
    rewrite flipCat_isExited in Hact.
    destruct (Hon c Hc Hact) as (Ix & Iy & Hh & Ht).
    destruct (onGrid_tail_integral gs c (Hon c Hc Hact)) as [Itx Ity].
    destruct (flipCat_cells c Hact) as (E1 & E2 & E3 & E4).
    unfold onGrid, inGrid in *.
    split; [eapply integral_Qeq; [symmetry; exact E1 | exact Itx]|].
    split; [eapply integral_Qeq; [symmetry; exact E2 | exact Ity]|].
    rewrite E1, E2, E3, E4. tauto.
  - intros c1' c2' H1 H2 Hid A1 A2.
    apply in_map_iff in H1. destruct H1 as (c1 & <- & H1).
    apply in_map_iff in H2. destruct H2 as (c2 & <- & H2).
    rewrite flipCat_id in Hid. rewrite flipCat_id in Hid.
    rewrite flipCat_isExited in A1, A2.
    destruct (Hdis c1 c2 H1 H2 Hid A1 A2) as (D1 & D2 & D3 & D4).
    destruct (flipCat_cells c1 A1) as (E1 & E2 & E3 & E4).
    destruct (flipCat_cells c2 A2) as (F1 & F2 & F3 & F4).
    unfold disjointCells, sameCell in *.
    rewrite E1, E2, E3, E4, F1, F2, F3, F4. tauto.
Qed.

(** *** A move keeps the invariant *)

Lemma In_insert {A} (l : list A) (i : nat) (v a : A) :
  In a (<[i := v]> l) -> a = v \/ In a l.
Proof.
  revert i. induction l as [|b l IH]; intros [|i]; simpl; auto.
  - intros [H|H]; auto.
  - intros [H|H]; auto. destruct (IH i H); auto.
Qed.

Lemma map_insert_same {A B} (f : A -> B) (l : list A) (i : nat) (v a : A) :
  l !! i = Some a -> f v = f a -> map f (<[i := v]> l) = map f l.
Proof.
  revert i. induction l as [|b l IH]; intros [|i] H Hf; simpl in *; try discriminate.
  - injection H as ->. now rewrite Hf.
  - f_equal. now apply IH.
Qed.

Lemma not_occupies_cells (gs : Z) (b : CatEntity) (nx ny : Q) :
  onGrid gs b -> ~ occupies b nx ny ->
  ~ sameCell nx ny (x b) (y b) /\ ~ sameCell nx ny (tailX b) (tailY b).
Proof.
  intros Hon Hno. destruct (onGrid_tail_integral gs b Hon) as [Itx Ity].
  destruct Hon as (Ix & Iy & _). unfold integral in *.
  unfold occupies, sameCell in *.
  split; intros [E1 E2]; apply Hno; [left | right];
    (split; [rewrite E1 | rewrite E2]; assumption).
Qed.

Section MoveFacts.

Variable gs : Z.
Variable cs : list CatEntity.
Variable cat : CatEntity.
Variable m : Z.

Hypothesis HInv : Inv gs cs.
Hypothesis Hcat : In cat cs.
Hypothesis Hact : isExited cat = false.
Hypothesis Hclear : forall j, 1 <= j <= m -> clearStep gs cs cat j.

(** Every cell of the ray up to step [m], the head included, is in the
    grid and free of the other pieces. *)
Lemma ray_cell_inGrid (j : Z) :
  0 <= j <= m -> inGrid gs (stepX cat j) (stepY cat j).
Proof.
  intros Hj. destruct (Z.eq_dec j 0) as [->|Hne].
  - destruct HInv as (_ & Hon & _). destruct (Hon cat Hcat Hact) as (_ & _ & Hh & _).
    unfold inGrid in *. rewrite stepX_0, stepY_0. exact Hh.
  - destruct (Hclear j ltac:(lia)) as [Hin _]. now apply outOfGrid_false in Hin.
Qed.

Lemma ray_cell_free (j : Z) (b : CatEntity) :
  0 <= j <= m -> In b cs -> id b <> id cat -> isExited b = false ->
  ~ sameCell (stepX cat j) (stepY cat j) (x b) (y b) /\
  ~ sameCell (stepX cat j) (stepY cat j) (tailX b) (tailY b).
Proof.
  intros Hj Hb Hid Hbact. destruct HInv as (_ & Hon & Hdis).
  destruct (Z.eq_dec j 0) as [->|Hne].
  - assert (Hid' : id cat <> id b) by congruence.
    destruct (Hdis cat b Hcat Hb Hid' Hact Hbact) as (D1 & D2 & _).
    unfold sameCell in *. rewrite stepX_0, stepY_0. auto.
  - apply (not_occupies_cells gs); [now apply Hon|].
    destruct (proj1 (clearStep_iff gs cs cat j) (Hclear j ltac:(lia))) as [_ Hfree].
    now apply Hfree.
Qed.

Variable cat' : CatEntity.
Hypothesis Hm : 1 <= m.
Hypothesis Hdir : direction cat' = direction cat.
Hypothesis Hx : (x cat' == stepX cat m)%Q.
Hypothesis Hy : (y cat' == stepY cat m)%Q.

Lemma moved_tail :
  (tailX cat' == stepX cat (m - 1) /\ tailY cat' == stepY cat (m - 1))%Q.
Proof.
  unfold tailX, tailY. rewrite Hdir, Hx, Hy. split; [apply stepX_pred | apply stepY_pred].
Qed.

Lemma moved_onGrid : onGrid gs cat'.
Proof.
  destruct HInv as (_ & Hon & _). destruct (Hon cat Hcat Hact) as (Ix & Iy & _).
  destruct moved_tail as [Tx Ty].
  assert (H1 := ray_cell_inGrid m ltac:(lia)).
  assert (H2 := ray_cell_inGrid (m - 1) ltac:(lia)).
  unfold onGrid, inGrid in *. split; [|split].
  - apply (integral_Qeq (stepX cat m)); [now symmetry|].
    unfold stepX. now apply integral_step.
  - apply (integral_Qeq (stepY cat m)); [now symmetry|].
    unfold stepY. now apply integral_step.
  - rewrite Hx, Hy, Tx, Ty. tauto.
Qed.

Lemma moved_disjoint (b : CatEntity) :
  In b cs -> id b <> id cat -> isExited b = false -> disjointCells cat' b.
Proof.
  intros Hb Hid Hbact. destruct moved_tail as [Tx Ty].
  destruct (ray_cell_free m b ltac:(lia) Hb Hid Hbact) as [F1 F2].
  destruct (ray_cell_free (m - 1) b ltac:(lia) Hb Hid Hbact) as [F3 F4].
  unfold disjointCells, sameCell in *. rewrite Hx, Hy, Tx, Ty. tauto.
Qed.

End MoveFacts.

Lemma Inv_insert (gs : Z) (cs : list CatEntity) (idx : nat) (cat cat' : CatEntity) :
  Inv gs cs -> cs !! idx = Some cat -> id cat' = id cat ->
  (isExited cat' = false ->
   onGrid gs cat' /\
   forall b, In b cs -> id b <> id cat -> isExited b = false -> disjointCells cat' b) ->
  Inv gs (<[idx := cat']> cs).
Proof.
  intros HInv Hcat Hid Hnew. destruct HInv as (Hnd & Hon & Hdis). split; [|split].
  - now rewrite (map_insert_same id cs idx cat' cat Hcat Hid).
  - intros c Hc Hcact. apply In_insert in Hc. destruct Hc as [->|Hc].
    + now apply Hnew.
    + now apply Hon.
  - intros c1 c2 H1 H2 Hne A1 A2.
    apply In_insert in H1. apply In_insert in H2.
    destruct H1 as [->|H1], H2 as [->|H2].
    + contradiction.
    + apply (proj2 (Hnew A1)); auto. congruence.
    + apply disjointCells_sym. apply (proj2 (Hnew A2)); auto. congruence.
    + now apply Hdis.
Qed.

Lemma Inv_handleCatClick (gs : Z) (cs : list CatEntity) (ident : string) :
  Inv gs cs -> Inv gs (handleCatClick gs cs ident).
Proof.
  intros HInv. unfold handleCatClick, resolveMove.
  destruct (findIndex _ cs) as [idx|]; [|exact HInv].
  destruct (cs !! idx) as [cat|] eqn:Hcat; [|exact HInv].
  destruct (isExited cat) eqn:Hact; [exact HInv|].
  destruct (_ && _)%bool eqn:Hsame; [exact HInv|].
  apply (Inv_insert gs cs idx cat); [exact HInv | exact Hcat | reflexivity |].
  cbn [moved isExited]. intros Hstay.
  assert (Hin : In cat cs) by (eapply lookup_In; exact Hcat).
  unfold raycast in *.
  destruct (raycastLoop_cases gs cs cat (Z.to_nat gs) 1 (x cat) (y cat)
              ltac:(symmetry; apply stepX_0) ltac:(symmetry; apply stepY_0))
    as [(k & _ & _ & _ & Hr) | (m & Hm & Hcl & _ & Htx & Hty & _)].
  - rewrite Hr in Hstay. discriminate.
  - assert (Hm1 : 1 <= m).
    { destruct (Z.eq_dec m 0) as [->|Hne]; [|lia]. exfalso.
      rewrite stepX_0 in Htx. rewrite stepY_0 in Hty.
      apply Qeq_bool_iff in Htx. apply Qeq_bool_iff in Hty.
      rewrite Htx, Hty in Hsame. discriminate. }
    split.
    + apply (moved_onGrid gs cs cat m HInv Hin Hact Hcl); auto.
    + intros b. apply (moved_disjoint gs cs cat m HInv Hin Hact Hcl); auto.
Qed.

(** *** The placement loops keep their pieces apart *)

Lemma allCells_valid (gs : Z) (c : Cell) :
  In c (allCells gs) -> isValid (fst c) (snd c) gs = true.
Proof.
  unfold allCells. intros H. apply in_flat_map in H. destruct H as (cy & Hy & H).
  apply in_map_iff in H. destruct H as (cx & <- & Hx).
  apply list_elem_of_In, elem_of_seqZ in Hx, Hy. cbn [fst snd].
  unfold isValid. rewrite !andb_true_iff, !Z.leb_le, !Z.ltb_lt. lia.
Qed.

Lemma isValid_inGrid (gs : Z) (a b : Q) (h : Cell) :
  cellAt a b h -> isValid (fst h) (snd h) gs = true -> inGrid gs a b.
Proof.
  intros [Ea Eb] Hv. unfold isValid in Hv.
  rewrite !andb_true_iff, !Z.leb_le, !Z.ltb_lt in Hv.
  destruct Hv as (((H1 & H2) & H3) & H4).
  unfold inGrid. rewrite Ea, Eb. change 0%Q with (inject_Z 0).
  rewrite <- !Zle_Qle, <- !Zlt_Qlt. auto.
Qed.

Lemma cellAt_sameCell (a b a' b' : Q) (h h' : Cell) :
  cellAt a b h -> cellAt a' b' h' -> sameCell a b a' b' -> h = h'.
Proof.
  intros [E1 E2] [F1 F2] [S1 S2]. destruct h as [hx hy], h' as [hx' hy'].
  cbn [fst snd] in *. f_equal; apply inject_Z_injective; lra.
Qed.

Lemma placedOn_onGrid (gs : Z) (occupied : gset Cell) (c : CatEntity) :
  placedOn gs occupied c -> onGrid gs c.
Proof.
  intros (_ & h & t & Hh & Ht & Vh & Vt & _). unfold onGrid.
  split; [apply integral_iff; exists (fst h); apply Hh|].
  split; [apply integral_iff; exists (snd h); apply Hh|].
  split; eapply isValid_inGrid; eassumption.
Qed.

Lemma placedOn_mono (gs : Z) (occ occ' : gset Cell) (c : CatEntity) :
  occ ⊆ occ' -> placedOn gs occ c -> placedOn gs occ' c.
Proof.
  intros Hsub (Hact & h & t & Hh & Ht & Vh & Vt & Ih & It).
  split; [exact Hact|]. exists h, t. repeat split; try apply Hh; try apply Ht; auto.
Qed.

(** A piece put on two cells the set does not hold yet. *)
Lemma Placed_add (gs : Z) (st : list CatEntity * gset Cell) (c : CatEntity)
    (h t : Cell) (occ' : gset Cell) :
  Placed gs st ->
  isExited c = false ->
  cellAt (x c) (y c) h -> cellAt (tailX c) (tailY c) t ->
  isValid (fst h) (snd h) gs = true -> isValid (fst t) (snd t) gs = true ->
  h ∉ snd st -> t ∉ snd st ->
  snd st ⊆ occ' -> h ∈ occ' -> t ∈ occ' ->
  Placed gs (fst st ++ [c], occ').
Proof.
  intros [Hon Hdis] Hact Hh Ht Vh Vt Nh Nt Hsub Ih It.
  assert (Hnew : forall c1, In c1 (fst st) -> disjointCells c1 c).
  { intros c1 H1. destruct (Hon c1 H1) as (_ & h1 & t1 & Hh1 & Ht1 & _ & _ & Ih1 & It1).
    unfold disjointCells.
    repeat split; intros S;
      [ assert (E := cellAt_sameCell _ _ _ _ _ _ Hh1 Hh S)
      | assert (E := cellAt_sameCell _ _ _ _ _ _ Hh1 Ht S)
      | assert (E := cellAt_sameCell _ _ _ _ _ _ Ht1 Hh S)
      | assert (E := cellAt_sameCell _ _ _ _ _ _ Ht1 Ht S) ];
      subst; contradiction. }
  split; cbn [fst snd].
  - intros c0 H0. apply in_app_or in H0. destruct H0 as [H0|[<-|[]]].
    + eapply placedOn_mono; [exact Hsub | now apply Hon].
    + split; [exact Hact|]. exists h, t. auto 10.
  - intros c1 c2 H1 H2 Hne.
    apply in_app_or in H1. apply in_app_or in H2.
    destruct H1 as [H1|[<-|[]]], H2 as [H2|[<-|[]]].
    + now apply Hdis.
    + now apply Hnew.
    + apply disjointCells_sym. now apply Hnew.
    + contradiction.
Qed.

Lemma Placed_empty (gs : Z) : Placed gs ([], ∅).
Proof. split; cbn; intros; contradiction. Qed.

Lemma isOccupied_false (cx cy : Z) (occ : gset Cell) :
  isOccupied cx cy occ = false -> (cx, cy) ∉ occ.
Proof. unfold isOccupied. intros H. now apply bool_decide_eq_false in H. Qed.

Lemma Placed_genStep (gs : Z) (config : LevelConfig) (cell : Cell) (dir : Direction)
    (r : Q) (skin ident : string) (st : GenState) :
  Placed gs st ->
  isValid (fst cell) (snd cell) gs = true ->
  isOccupied (fst cell) (snd cell) (snd st) = false ->
  isValid (fst cell - dx (getDelta dir)) (snd cell - dy (getDelta dir)) gs = true ->
  isOccupied (fst cell - dx (getDelta dir)) (snd cell - dy (getDelta dir)) (snd st)
    = false ->
  Placed gs (genStep config cell dir r skin ident st).
Proof.
  intros HP Vc Oc Vt Ot. apply isOccupied_false in Oc, Ot.
  unfold genStep. destruct cell as [cx cy]. cbn [fst snd] in *.
  apply (Placed_add gs st _ (cx - dx (getDelta dir), cy - dy (getDelta dir)) (cx, cy));
    auto; cbn [fst snd x y].
  - split; reflexivity.
  - unfold cellAt, tailX, tailY. cbn [x y direction fst snd].
    destruct (getDelta_opposite dir) as [-> ->].
    unfold Z.sub. rewrite !inject_Z_plus, !inject_Z_opp. split; ring.
  - unfold markOccupied. set_solver.
  - unfold markOccupied. set_solver.
  - unfold markOccupied. set_solver.
Qed.

Lemma Placed_shuffleStep (gs : Z) (oldCat : CatEntity) (cell : Cell) (dir : Direction)
    (st : ShuffleState) :
  Placed gs st ->
  isExited oldCat = false ->
  isValid (fst cell) (snd cell) gs = true ->
  isOccupied (fst cell) (snd cell) (snd st) = false ->
  isValid (fst cell - dx (getDelta dir)) (snd cell - dy (getDelta dir)) gs = true ->
  isOccupied (fst cell - dx (getDelta dir)) (snd cell - dy (getDelta dir)) (snd st)
    = false ->
  Placed gs (shuffleStep oldCat cell dir st).
Proof.
  intros HP Hact Vc Oc Vt Ot. apply isOccupied_false in Oc, Ot.
  unfold shuffleStep. destruct cell as [cx cy]. cbn [fst snd] in *.
  apply (Placed_add gs st _ (cx, cy) (cx - dx (getDelta dir), cy - dy (getDelta dir)));
    auto; cbn [fst snd x y].
  - split; reflexivity.
  - unfold cellAt, tailX, tailY. cbn [x y direction fst snd].
    unfold Z.sub. rewrite !inject_Z_plus, !inject_Z_opp. split; ring.
  - unfold markOccupied. set_solver.
  - unfold markOccupied. set_solver.
  - unfold markOccupied. set_solver.
Qed.

(** *** Generation and shuffle establish the invariant *)

Lemma filter_exited_active_perm (cs : list CatEntity) :
  Permutation (List.filter isExited cs ++ List.filter active cs) cs.
Proof.
  induction cs as [|c cs IH]; [reflexivity|]. cbn [List.filter]. unfold active at 1.
  destruct (isExited c); cbn [negb app].
  - now constructor.
  - rewrite <- Permutation_middle. now constructor.
Qed.

Lemma NoDup_map_sublist {A B} (f : A -> B) (l' l : list A) :
  sublist l' l -> List.NoDup (map f l) -> List.NoDup (map f l').
Proof.
  induction 1 as [|a l1 l2 H IH|a l1 l2 H IH]; cbn [map]; intros Hnd.
  - constructor.
  - inversion Hnd as [|? ? Hnot Hnd']; subst. constructor; [|now apply IH].
    intros Hin. apply Hnot. apply in_map_iff in Hin. destruct Hin as (b & Hb & Hin).
    apply in_map_iff. exists b. split; [exact Hb|]. eapply sublist_In; eassumption.
  - inversion Hnd; subst. now apply IH.
Qed.

Lemma rehomed_ids (kept placed : list CatEntity) :
  Forall2 rehomed kept placed -> map id placed = map id kept.
Proof.
  induction 1 as [|a b k p Hab H IH]; [reflexivity|]. cbn [map].
  destruct Hab as (-> & _). now rewrite IH.
Qed.

Section Reachable.

Variable random : nat -> Q.
Variable randomSort : forall A : Type, list A -> nat -> list A * nat.
Variable toBase36 : Q -> string.

(** The sort with a random comparator reorders its array. *)
Hypothesis randomSort_permutes :
  forall (A : Type) (l : list A) (n : nat), Permutation (fst (randomSort A l n)) l.

Lemma Placed_placeCats (config : LevelConfig) (gs target : Z) (cells : list Cell)
    (s : nat) :
  (forall c, In c cells -> In c (allCells gs)) ->
  Placed gs (fst (placeCats random toBase36 config gs target cells ([], ∅) s)).
Proof.
  intros Hcells.
  apply (placeCats_invariant random toBase36 (Placed gs) config gs target cells);
    [|auto|apply Placed_empty].
  intros st cell dir s1 skin ident HP Hin _ Ho Hv Ht.
  apply Placed_genStep; auto. apply allCells_valid. now apply Hcells.
Qed.

Lemma Inv_generateLevel (lvl : Z) (s : nat) :
  let L := fst (generateLevel random randomSort toBase36 lvl s) in
  List.NoDup (map id (cats L)) -> Inv (gridSize L) (cats L).
Proof.
  cbn zeta. unfold generateLevel, bind.
  destruct (randomBelow random _ s) as [e s1].
  assert (Hrs := randomSort_permutes Cell (allCells (size (getLevelConfig lvl))) s1).
  destruct (randomSort Cell _ s1) as [shuffled s2]. cbn [fst] in Hrs.
  set (gs := size (getLevelConfig lvl)) in *.
  set (cells := Array_sort (byDistance gs) shuffled).
  set (target := (_ - _) / 2).
  assert (HP : Placed gs (fst (placeCats random toBase36 (getLevelConfig lvl) gs
                                 target cells ([], ∅) s2))).
  { apply Placed_placeCats. intros c Hc.
    eapply Permutation_in; [exact Hrs|].
    eapply Permutation_in; [apply Array_sort_perm | exact Hc]. }
  destruct (placeCats _ _ _ _ _ _ _ _) as [st s3]. cbn [fst cats gridSize] in *.
  intros Hnd. destruct HP as [Hon Hdis].
  assert (Hperm := Array_sort_perm rowMajor (fst st)).
  split; [exact Hnd|]. split.
  - intros c Hc _. apply (placedOn_onGrid gs (snd st)). apply Hon.
    eapply Permutation_in; eassumption.
  - intros c1 c2 H1 H2 Hid _ _.
    apply Hdis; try (eapply Permutation_in; eassumption). congruence.
Qed.

Lemma Placed_placeAll (gs : Z) (cs : list CatEntity) (cells : list Cell) (s : nat) :
  (forall c, In c cells -> In c (allCells gs)) ->
  Placed gs (fst (placeAll randomSort gs (List.filter active cs) cells ([], ∅) s)).
Proof.
  intros Hcells.
  apply (placeAll_invariant randomSort (Placed gs) gs cells (List.filter active cs));
    [|apply Placed_empty].
  intros st oldCat cell dir HP Hold Hin Ho Hv Ht.
  apply Placed_shuffleStep; auto.
  - apply filter_In in Hold. destruct Hold as [_ Hold].
    unfold active in Hold. now apply negb_true_iff in Hold.
  - apply allCells_valid. now apply Hcells.
Qed.

Lemma Inv_shuffleCats (gs : Z) (cs : list CatEntity) (s : nat) :
  Inv gs cs -> Inv gs (fst (shuffleCats randomSort cs gs s)).
Proof.
  intros (Hnd & _ & _).
  destruct (shuffleCats_unfold randomSort cs gs s) as (cells & s1 & Hrs & Heq).
  assert (Hcells : forall c, In c cells -> In c (allCells gs)).
  { intros c Hc. assert (Hp := randomSort_permutes Cell (allCells gs) s).
    rewrite Hrs in Hp. eapply Permutation_in; eassumption. }
  assert (HP := Placed_placeAll gs cs cells s1 Hcells).
  destruct (placeAll_kept randomSort gs cells (List.filter active cs) ([], ∅) s1)
    as (kept & placed & Hsub & Hre & Hpl).
  cbn [fst app] in Hpl. rewrite Hpl in Heq.
  destruct HP as [Hon Hdis]. rewrite Hpl in Hon, Hdis.
  assert (Hne := placed_not_exited kept placed cs Hsub Hre).
  rewrite Heq. apply (Inv_Permutation gs (List.filter isExited cs ++ placed));
    [symmetry; apply Array_sort_perm|].
  assert (Hsplit : forall c, In c (List.filter isExited cs ++ placed) ->
                             isExited c = false -> In c placed).
  { intros c Hc Hact. apply in_app_or in Hc. destruct Hc as [Hc|Hc]; [|exact Hc].
    apply filter_In in Hc. destruct Hc as [_ Hc]. congruence. }
  split; [|split].
  - rewrite map_app, (rehomed_ids kept placed Hre), <- map_app.
    apply (NoDup_map_sublist id _ (List.filter isExited cs ++ List.filter active cs)).
    + apply sublist_app; [reflexivity | exact Hsub].
    + eapply Permutation_NoDup; [|exact Hnd].
      apply Permutation_map. symmetry. apply filter_exited_active_perm.
  - intros c Hc Hact.
    eapply placedOn_onGrid. apply Hon. now apply Hsplit.
  - intros c1 c2 H1 H2 Hid A1 A2. apply Hdis; auto. congruence.
Qed.

Lemma Inv_applyOp (gs : Z) (op : Op) (cs : list CatEntity) (s : nat) :
  Inv gs cs -> Inv gs (fst (applyOp randomSort gs op cs s)).
Proof.
  intros HInv. destruct op as [ident| |]; cbn [applyOp].
  - now apply Inv_handleCatClick.
  - now apply Inv_shuffleCats.
  - now apply Inv_flipAll.
Qed.

Lemma Inv_play (gs : Z) (ops : list Op) :
  forall (cs : list CatEntity) (s : nat),
    Inv gs cs -> Inv gs (fst (play randomSort gs ops cs s)).
Proof.
  induction ops as [|op ops IH]; intros cs s HInv; cbn [play]; [exact HInv|].
  unfold bind. assert (H := Inv_applyOp gs op cs s HInv).
  destruct (applyOp randomSort gs op cs s) as [cs' s']. now apply IH.
Qed.

End Reachable.

(** When the ids [genId] drew for the level are pairwise distinct, and
    the random-comparator sort returns a reordering of its array: after
    [generateLevel], and after any sequence of moves, shuffles and flips
    that follows it, every non-exited piece has its head and its tail
    within [[0, gridSize)] on both axes, and two distinct non-exited
    pieces share no cell. *)
Theorem reachable_well_placed
    (random : nat -> Q) (randomSort : forall A : Type, list A -> nat -> list A * nat)
    (toBase36 : Q -> string) (lvl : Z) (ops : list Op) (s s' : nat) :
  (forall (A : Type) (l : list A) (n : nat), Permutation (fst (randomSort A l n)) l) ->
  let L := fst (generateLevel random randomSort toBase36 lvl s) in
  List.NoDup (map id (cats L)) ->
  WellPlaced (gridSize L) (fst (play randomSort (gridSize L) ops (cats L) s')).
Proof.
  intros Hperm L Hnd. apply Inv_WellPlaced. apply Inv_play; [exact Hperm|].
  now apply Inv_generateLevel.
Qed.

Lemma distinctb_NoDup (l : list string) : distinctb l = true -> List.NoDup l.
Proof.
  induction l as [|a l IH]; cbn [distinctb]; [constructor|].
  rewrite andb_true_iff, negb_true_iff. intros [Hn Hd].
  constructor; [|now apply IH].
  intros Hin. assert (E : existsb (String.eqb a) l = true).
  { apply existsb_exists. exists a. split; [exact Hin | apply String.eqb_refl]. }
  congruence.
Qed.

Lemma reachable_well_placed_witness :
  (forall (A : Type) (l : list A) (n : nat), Permutation (fst (keepOrder A l n)) l) /\
  List.NoDup (map id (cats (fst (generateLevel demoRandom keepOrder demoBase36 1 0%nat)))) /\
  WellPlaced
    (gridSize (fst (generateLevel demoRandom keepOrder demoBase36 1 0%nat)))
    (fst (play keepOrder
            (gridSize (fst (generateLevel demoRandom keepOrder demoBase36 1 0%nat)))
            [Move "168"; Flip; Move "36"; Shuffle; Move "12"]
            (cats (fst (generateLevel demoRandom keepOrder demoBase36 1 0%nat))) 0%nat)).
Proof.
  assert (Hperm : forall (A : Type) (l : list A) (n : nat),
             Permutation (fst (keepOrder A l n)) l) by (intros; reflexivity).
  assert (Hnd : List.NoDup
                  (map id (cats (fst (generateLevel demoRandom keepOrder demoBase36 1 0%nat)))))
    by (apply distinctb_NoDup; vm_compute; reflexivity).
  split; [exact Hperm|]. split; [exact Hnd|].
  exact (reachable_well_placed demoRandom keepOrder demoBase36 1
           [Move "168"; Flip; Move "36"; Shuffle; Move "12"] 0%nat 0%nat Hperm Hnd).
Defined.

(** C1. [genId] returns [Math.random().toString(36).substr(2, 9)] as
    it comes, so two calls that draw one number give two pieces one id.
    With the draws [repeatedDraw] the pieces generated at level 1 with
    their heads on (4, 1) and (4, 3) are both called "6".  After the
    flip, a click on "6" moves the first of them: the raycast skips
    every piece called "6", so it runs through the two cells of the
    second one and stops in front of the piece on (4, 5).  The two
    pieces, neither exited, then have the same head (4, 4) and the same
    tail (4, 3): the state reached is not well placed. *)
Theorem id_collision_overlaps :
  let L := fst (generateLevel repeatedDraw keepOrder demoBase36 1 0%nat) in
  let cs := fst (play keepOrder (gridSize L) [Flip; Move "6"] (cats L) 0%nat) in
  (exists a b,
      cats L !! 7%nat = Some a /\ cats L !! 15%nat = Some b /\
      id a = "6"%string /\ id b = "6"%string /\
      (x a == 4 /\ y a == 1 /\ x b == 4 /\ y b == 3)%Q) /\
  (exists a b,
      cs !! 7%nat = Some a /\ cs !! 15%nat = Some b /\
      isExited a = false /\ isExited b = false /\
      (x a == 4 /\ y a == 4 /\ tailX a == 4 /\ tailY a == 3)%Q /\
      (x b == 4 /\ y b == 4 /\ tailX b == 4 /\ tailY b == 3)%Q) /\
  ~ WellPlaced (gridSize L) cs.
Proof.
  cbv zeta. split; [|split].
  - eexists. eexists. split; [vm_compute; reflexivity|].
    split; [vm_compute; reflexivity|]. cbn. repeat split; reflexivity.
  - eexists. eexists. split; [vm_compute; reflexivity|].
    split; [vm_compute; reflexivity|]. cbn. repeat split; reflexivity.
  - intros [_ Hdis].
    assert (E7 : fst (play keepOrder
                        (gridSize (fst (generateLevel repeatedDraw keepOrder demoBase36 1 0%nat)))
                        [Flip; Move "6"]
                        (cats (fst (generateLevel repeatedDraw keepOrder demoBase36 1 0%nat)))
                        0%nat) !! 7%nat
                 = Some {| id := "6"; x := 4; y := 4; direction := DOWN; type := NORMAL;
                           timer := None; color := "bg-slate-100";
                           isExited := false; isMoving := true |})
      by (vm_compute; reflexivity).
    assert (E15 : fst (play keepOrder
                         (gridSize (fst (generateLevel repeatedDraw keepOrder demoBase36 1 0%nat)))
                         [Flip; Move "6"]
                         (cats (fst (generateLevel repeatedDraw keepOrder demoBase36 1 0%nat)))
                         0%nat) !! 15%nat
                  = Some {| id := "6"; x := 4; y := 4; direction := DOWN; type := NORMAL;
                            timer := None; color := "bg-slate-100";
                            isExited := false; isMoving := false |})
      by (vm_compute; reflexivity).
    destruct (Hdis 7%nat 15%nat _ _ ltac:(lia) E7 E15 eq_refl eq_refl) as [Hhead _].
    apply Hhead. split; reflexivity.
Qed.

(** ** Density of a generated level *)

Lemma randomBelow_range (random : nat -> Q) (n : Z) (s : nat) :
  (0 <= random s)%Q -> (random s < 1)%Q -> 0 < n ->
  0 <= fst (randomBelow random n s) < n.
Proof.
  intros H0 H1 Hn. unfold randomBelow, bind, Math_random, ret. cbn [fst].
  set (q := (random s * inject_Z n)%Q).
  assert (Qn : (0 < inject_Z n)%Q) by (change 0%Q with (inject_Z 0); now rewrite <- Zlt_Qlt).
  assert (Hq0 : (0 <= q)%Q) by (unfold q; nra).
  assert (Hq1 : (q < inject_Z n)%Q) by (unfold q; nra).
  assert (A := Qfloor_le q). assert (B := Qlt_floor q).
  assert (L1 : (inject_Z 0 < inject_Z (Qfloor q + 1))%Q) by (change (inject_Z 0) with 0%Q; lra).
  assert (L2 : (inject_Z (Qfloor q) < inject_Z n)%Q) by lra.
  rewrite <- Zlt_Qlt in L1, L2. lia.
Qed.

Section Density.

Variable random : nat -> Q.
Variable randomSort : forall A : Type, list A -> nat -> list A * nat.
Variable toBase36 : Q -> string.

Hypothesis random_range : forall n, (0 <= random n)%Q /\ (random n < 1)%Q.

Lemma size_getLevelConfig (lvl : Z) : 8 <= size (getLevelConfig lvl) <= 11.
Proof.
  destruct (getLevelConfig_steps lvl) as (-> & _).
  destruct (lvl <? 5), (lvl <? 10), (lvl <? 20); lia.
Qed.

(** The generator never places more pieces than its target, so at
    least the empty-slot budget stays free, and one cell more when the
    budget and the number of cells differ in parity. *)
Lemma generateLevel_density (lvl : Z) (s : nat) :
  let L := fst (generateLevel random randomSort toBase36 lvl s) in
  let emptySlots := fst (randomBelow random (10 - 2 + 1) s) + 2 in
  let target := (gridSize L * gridSize L - emptySlots) / 2 in
  let n := Z.of_nat (length (cats L)) in
  2 <= emptySlots <= 10 /\
  n <= target /\
  2 <= gridSize L * gridSize L - 2 * n /\
  (n = target ->
   gridSize L * gridSize L - 2 * n
   = emptySlots + (gridSize L * gridSize L - emptySlots) mod 2).
Proof.
  cbn zeta.
  assert (He := randomBelow_range random (10 - 2 + 1) s
                  (proj1 (random_range s)) (proj2 (random_range s)) ltac:(lia)).
  unfold generateLevel, bind.
  destruct (randomBelow random (10 - 2 + 1) s) as [e s1]. cbn [fst] in He |- *.
  destruct (randomSort Cell _ s1) as [shuffled s2].
  set (gs := size (getLevelConfig lvl)) in *.
  set (cells := Array_sort (byDistance gs) shuffled).
  set (target := (gs * gs - (e + 2)) / 2).
  assert (Hgs := size_getLevelConfig lvl). fold gs in Hgs.
  assert (Hsq : 64 <= gs * gs) by nia.
  assert (Hdm := Z.div_mod (gs * gs - (e + 2)) 2 ltac:(lia)).
  assert (Hmod := Z.mod_pos_bound (gs * gs - (e + 2)) 2 ltac:(lia)).
  fold target in Hdm.
  assert (HI : Z.of_nat (length (fst (fst (placeCats random toBase36 (getLevelConfig lvl)
                                            gs target cells ([], ∅) s2)))) <= target).
  { apply (placeCats_invariant random toBase36
             (fun st => Z.of_nat (length (fst st)) <= target)
             (getLevelConfig lvl) gs target cells); [|auto|cbn; lia].
    intros st cell dir k skin ident HI _ Hroom _ _ _. unfold genStep. cbn [fst].
    rewrite length_app. cbn [length]. lia. }
  destruct (placeCats _ _ _ _ _ _ _ _) as [st s3]. cbn [fst cats gridSize] in *.
  unfold ret. cbn [fst cats gridSize]. fold target.
  rewrite Array_sort_length.
  split; [lia|]. split; [exact HI|]. split; [lia|]. intros Hn. lia.
Qed.

End Density.

(** C2. At level 5 (a 9 x 9 grid), when the first call of
    [Math.random] returns 0.9, the empty-slot budget is 10 and the
    target is 35 pieces; the generator reaches it and 11 cells stay
    empty, one more than the 10 the generator is meant to leave at
    most.  Shown for two random sources: every draw 0.9 with the cell
    order kept, and varying draws with the cell order reversed. *)
Theorem generateLevel_level5_leaves_eleven :
  (let L := fst (generateLevel (constRandom (9 # 10)) keepOrder noBase36 5 0%nat) in
   let emptySlots := fst (randomBelow (constRandom (9 # 10)) (10 - 2 + 1) 0%nat) + 2 in
   let target := (gridSize L * gridSize L - emptySlots) / 2 in
   gridSize L = 9 /\ emptySlots = 10 /\ target = 35 /\
   Z.of_nat (length (cats L)) = target /\ emptyCells L = 11) /\
  (let L := fst (generateLevel variedRandom reverseOrder demoBase36 5 0%nat) in
   let emptySlots := fst (randomBelow variedRandom (10 - 2 + 1) 0%nat) + 2 in
   let target := (gridSize L * gridSize L - emptySlots) / 2 in
   gridSize L = 9 /\ emptySlots = 10 /\ target = 35 /\
   Z.of_nat (length (cats L)) = target /\ emptyCells L = 11).
Proof. vm_compute. repeat split. Qed.

Lemma level_config_steps_witness :
  (forall k, (0 <= constRandom 0 k)%Q) /\
  gridSize (fst (generateLevel (constRandom 0) keepOrder noBase36 1 0%nat)) = 8 /\
  unlockedMessage (fst (generateLevel (constRandom 0) keepOrder noBase36 1 0%nat))
    = Some "Tap cats to clear!"%string /\
  List.filter (fun c => match type c with BOMB => true | NORMAL => false end)
              (cats (fst (generateLevel (constRandom 0) keepOrder noBase36 1 0%nat))) = [].
Proof.
  assert (Hpos : forall k, (0 <= constRandom 0 k)%Q) by (intros k; unfold constRandom; lra).
  split; [exact Hpos|].
  exact (proj2 (level_config_steps (constRandom 0) keepOrder noBase36 0%nat Hpos)).
Defined.

(** * Further properties of the code *)

(** ** The direction shuffle and the cell list *)

Lemma insert_head_perm {A} (l : list A) (j : nat) (a b : A) :
  l !! j = Some b -> Permutation (b :: <[j := a]> l) (a :: l).
Proof.
  revert j. induction l as [|c l IH]; intros [|j] H; simpl in *; try discriminate.
  - injection H as ->. apply perm_swap.
  - transitivity (c :: b :: <[j := a]> l); [apply perm_swap|].
    transitivity (c :: a :: l); [|apply perm_swap].
    constructor. now apply IH.
Qed.

Lemma swap_perm {A} (l : list A) (i j : nat) : Permutation (swap l i j) l.
Proof.
  unfold swap. revert i j. induction l as [|c l IH]; intros i j; [now destruct i, j|].
  destruct i as [|i], j as [|j]; simpl.
  - reflexivity.
  - destruct (l !! j) as [b|] eqn:E; [|reflexivity]. now apply insert_head_perm.
  - destruct (l !! i) as [a|] eqn:E; [|reflexivity]. now apply insert_head_perm.
  - specialize (IH i j). destruct (l !! i), (l !! j); try reflexivity.
    now constructor.
Qed.

Lemma fisherYates_perm (random : nat -> Q) (i : nat)
    (directions : list Direction) (s : nat) :
  Permutation (fst (fisherYates random i directions s)) directions.
Proof.
  revert directions s. induction i as [|i IH]; intros directions s; [reflexivity|].
  cbn [fisherYates]. unfold bind.
  destruct (randomBelow random (Z.of_nat (S i) + 1) s) as [j s1].
  rewrite IH. apply swap_perm.
Qed.

(** X1. Whatever [Math.random] returns, the Fisher-Yates loop of
    [generateLevel] returns a reordering of the directions it is given:
    none is lost, none is doubled, so each of the four directions is
    tried for every cell. *)
Theorem fisherYates_permutes (random : nat -> Q) (s : nat) :
  Permutation (fst (fisherYates random 3 [UP; DOWN; LEFT; RIGHT] s))
              [UP; DOWN; LEFT; RIGHT] /\
  (forall d, In d (fst (fisherYates random 3 [UP; DOWN; LEFT; RIGHT] s))) /\
  (forall (i : nat) (directions : list Direction),
      Permutation (fst (fisherYates random i directions s)) directions).
Proof.
  split; [apply fisherYates_perm|]. split; [|intros; apply fisherYates_perm].
  intros d. eapply Permutation_in; [symmetry; apply fisherYates_perm|].
  destruct d; cbn; auto.
Qed.

Lemma NoDup_flat_map {A B} (f : A -> list B) (l : list A) :
  List.NoDup l -> (forall a, List.NoDup (f a)) ->
  (forall a1 a2 b, In b (f a1) -> In b (f a2) -> a1 = a2) ->
  List.NoDup (flat_map f l).
Proof.
  intros Hl Hf Hinj. induction Hl as [|a l Hna Hl IH]; cbn [flat_map]; [constructor|].
  apply List.NoDup_app; [apply Hf | exact IH |].
  intros b Hb Hin. apply in_flat_map in Hin. destruct Hin as (a' & Ha' & Hb').
  rewrite (Hinj a a' b Hb Hb') in Hna. contradiction.
Qed.

Lemma NoDup_map_injective {A B} (f : A -> B) (l : list A) :
  (forall a b, f a = f b -> a = b) -> List.NoDup l -> List.NoDup (map f l).
Proof.
  intros Hinj. induction 1 as [|a l Hna Hl IH]; cbn [map]; constructor; [|exact IH].
  intros Hin. apply in_map_iff in Hin. destruct Hin as (b & E & Hb).
  apply Hinj in E. now subst.
Qed.

Lemma In_allCells (gs : Z) (c : Cell) :
  In c (allCells gs) <-> isValid (fst c) (snd c) gs = true.
Proof.
  split; [apply allCells_valid|].
  intros Hv. unfold isValid in Hv.
  rewrite !andb_true_iff, !Z.leb_le, !Z.ltb_lt in Hv.
  destruct c as [cx cy]. cbn [fst snd] in Hv.
  unfold allCells. apply in_flat_map. exists cy. split.
  - apply list_elem_of_In, elem_of_seqZ. lia.
  - apply in_map_iff. exists cx. split; [reflexivity|].
    apply list_elem_of_In, elem_of_seqZ. lia.
Qed.

Lemma allCells_NoDup (gs : Z) : List.NoDup (allCells gs).
Proof.
  unfold allCells. apply NoDup_flat_map.
  - apply NoDup_ListNoDup, NoDup_seqZ.
  - intros cy. apply NoDup_map_injective.
    + intros a b E. now injection E.
    + apply NoDup_ListNoDup, NoDup_seqZ.
  - intros a1 a2 b H1 H2. apply in_map_iff in H1, H2.
    destruct H1 as (c1 & <- & _), H2 as (c2 & E & _). now injection E.
Qed.

Lemma allCells_length (gs : Z) :
  Z.of_nat (length (allCells gs)) = Z.max 0 gs * Z.max 0 gs.
Proof.
  unfold allCells.
  assert (E : forall l : list Z,
             length (flat_map (fun cy => map (fun cx => (cx, cy)) (seqZ 0 gs)) l)
             = (length l * Z.to_nat gs)%nat).
  { induction l as [|a l IH]; [reflexivity|]. cbn [flat_map].
    rewrite length_app, IH, length_map, length_seqZ. cbn [length]. lia. }
  rewrite E, length_seqZ. lia.
Qed.

(** X2. The nested loops of [generateLevel] and [shuffleCats] list
    every cell of the grid exactly once: a cell is in the list if and
    only if it is in bounds, no cell occurs twice, and the list has
    [gridSize * gridSize] entries (none for a size below 1). *)
Theorem allCells_complete (gs : Z) :
  (forall c, In c (allCells gs) <-> isValid (fst c) (snd c) gs = true) /\
  List.NoDup (allCells gs) /\
  Z.of_nat (length (allCells gs)) = Z.max 0 gs * Z.max 0 gs.
Proof.
  split; [apply In_allCells|]. split; [apply allCells_NoDup | apply allCells_length].
Qed.

Lemma map_seqZ_shift {A} (f : Z -> A) (m : Z) (n : nat) :
  map f (seqZ m (Z.of_nat n)) = map (fun k => f (m + k)) (seqZ 0 (Z.of_nat n)).
Proof.
  induction n as [|n IH]; [reflexivity|].
  rewrite !seqZ_S, !map_app, IH. reflexivity.
Qed.

Lemma boardCell_row (gs r k : Z) :
  0 <= r -> 0 <= k < gs -> boardCell gs (gs * r + k) = (k, r).
Proof.
  intros Hr Hk. unfold boardCell. f_equal.
  - rewrite Z.rem_mod_nonneg by nia.
    rewrite Z.add_comm, Z.mul_comm, Z.mod_add by lia. now apply Z.mod_small.
  - rewrite Z.add_comm, Z.mul_comm, Z.div_add by lia.
    rewrite Z.div_small by lia. lia.
Qed.

Lemma boardCell_row_map (gs r : Z) (len : nat) :
  0 <= r -> Z.of_nat len <= gs ->
  map (boardCell gs) (seqZ (gs * r) (Z.of_nat len))
  = map (fun cx => (cx, r)) (seqZ 0 (Z.of_nat len)).
Proof.
  intros Hr Hlen. rewrite map_seqZ_shift. apply map_ext_in. intros k Hin.
  apply list_elem_of_In, elem_of_seqZ in Hin. apply boardCell_row; lia.
Qed.

Lemma boardCells_rows (gs : Z) (n : nat) :
  0 <= gs ->
  map (boardCell gs) (seqZ 0 (gs * Z.of_nat n))
  = flat_map (fun cy => map (fun cx => (cx, cy)) (seqZ 0 gs)) (seqZ 0 (Z.of_nat n)).
Proof.
  intros Hgs. induction n as [|n IH].
  - rewrite Z.mul_0_r. reflexivity.
  - replace (gs * Z.of_nat (S n)) with (gs * Z.of_nat n + gs) by lia.
    rewrite seqZ_app by lia. rewrite map_app, IH.
    rewrite (seqZ_S 0 n), flat_map_app. cbn [flat_map]. rewrite app_nil_r.
    f_equal. rewrite !Z.add_0_l.
    assert (H := boardCell_row_map gs (Z.of_nat n) (Z.to_nat gs) ltac:(lia) ltac:(lia)).
    rewrite (Z2Nat.id gs Hgs) in H. exact H.
Qed.

(** X3. For a grid of non-negative size, the cells the board draws,
    index by index, are the cells the generator enumerates, in the same
    order: index [i] is the cell [(i % gridSize, floor(i / gridSize))]
    and the two lists coincide. *)
Theorem boardCells_allCells (gs : Z) : 0 <= gs -> boardCells gs = allCells gs.
Proof.
  intros Hgs. unfold boardCells, allCells.
  assert (H := boardCells_rows gs (Z.to_nat gs) Hgs).
  rewrite (Z2Nat.id gs Hgs) in H. exact H.
Qed.

Lemma boardCells_allCells_witness :
  0 <= 8 /\ boardCells 8 = allCells 8 /\ boardCells 8 !! 19%nat = Some (3, 2).
Proof.
  split; [lia|]. split; [apply (boardCells_allCells 8); lia | reflexivity].
Defined.

(** ** The level configuration *)

Lemma skinCount_bounds (lvl : Z) :
  1 <= lvl -> 2 <= skinCount (getLevelConfig lvl) <= 8.
Proof.
  intros H. destruct (getLevelConfig_steps lvl) as (_ & -> & _).
  assert (D0 := Z.div_pos (lvl - 1) 3 ltac:(lia) ltac:(lia)). lia.
Qed.

(** X4. The difficulty never goes down with the level: grid size,
    palette size and bomb probability are non-decreasing in the level
    number.  From level 1 on the grid has 8 to 11 cells a side, the
    palette 2 to 8 skins, and the bomb probability is at most 0.15. *)
Theorem getLevelConfig_monotone (lvl lvl' : Z) :
  1 <= lvl -> lvl <= lvl' ->
  size (getLevelConfig lvl) <= size (getLevelConfig lvl') /\
  skinCount (getLevelConfig lvl) <= skinCount (getLevelConfig lvl') /\
  (bombChance (getLevelConfig lvl) <= bombChance (getLevelConfig lvl'))%Q /\
  8 <= size (getLevelConfig lvl) <= 11 /\
  2 <= skinCount (getLevelConfig lvl) <= 8 /\
  (0 <= bombChance (getLevelConfig lvl) <= 15 # 100)%Q.
Proof.
  intros H1 Hle.
  destruct (getLevelConfig_steps lvl) as (Hs & Hk & Hb & _).
  destruct (getLevelConfig_steps lvl') as (Hs' & Hk' & Hb' & _).
  rewrite Hs, Hs', Hk, Hk', Hb, Hb'.
  assert (D := Z.div_le_mono (lvl - 1) (lvl' - 1) 3 ltac:(lia) ltac:(lia)).
  assert (D0 := Z.div_pos (lvl - 1) 3 ltac:(lia) ltac:(lia)).
  split; [|split; [|split; [|split; [|split]]]].
  - destruct (Z.ltb_spec lvl 5), (Z.ltb_spec lvl 10), (Z.ltb_spec lvl 20),
      (Z.ltb_spec lvl' 5), (Z.ltb_spec lvl' 10), (Z.ltb_spec lvl' 20); lia.
  - lia.
  - destruct (Z.ltb_spec lvl 5), (Z.ltb_spec lvl 15), (Z.ltb_spec lvl 30),
      (Z.ltb_spec lvl' 5), (Z.ltb_spec lvl' 15), (Z.ltb_spec lvl' 30);
      try lia; unfold Qle; cbn; lia.
  - destruct (lvl <? 5), (lvl <? 10), (lvl <? 20); lia.
  - lia.
  - destruct (lvl <? 5), (lvl <? 15), (lvl <? 30); split; unfold Qle; cbn; lia.
Qed.

Lemma getLevelConfig_monotone_witness :
  1 <= 4 /\ 4 <= 17 /\
  size (getLevelConfig 4) <= size (getLevelConfig 17) /\
  skinCount (getLevelConfig 4) <= skinCount (getLevelConfig 17) /\
  (bombChance (getLevelConfig 4) <= bombChance (getLevelConfig 17))%Q.
Proof.
  split; [lia|]. split; [lia|].
  destruct (getLevelConfig_monotone 4 17 ltac:(lia) ltac:(lia)) as (A & B & C & _).
  auto.
Defined.

(** ** What the generator returns *)

Section GeneratedLevel.

Variable random : nat -> Q.
Variable randomSort : forall A : Type, list A -> nat -> list A * nat.
Variable toBase36 : Q -> string.

Hypothesis random_unit : forall n, (0 <= random n)%Q /\ (random n < 1)%Q.

Lemma placeCats_preserves (I : GenState -> Prop) (config : LevelConfig)
    (gs target : Z) :
  (forall cell dirs st s,
      I st -> I (fst (tryDirections random toBase36 config gs cell dirs st s))) ->
  forall cells st s,
    I st -> I (fst (placeCats random toBase36 config gs target cells st s)).
Proof.
  intros Hstep. induction cells as [|cell rest IH]; intros st s HI;
    cbn [placeCats]; [exact HI|].
  destruct (target <=? Z.of_nat (length (fst st))); [exact HI|].
  destruct (isOccupied (fst cell) (snd cell) (snd st)); [now apply IH|].
  unfold bind.
  destruct (fisherYates random 3 [UP; DOWN; LEFT; RIGHT] s) as [dirs s1].
  assert (H := Hstep cell dirs st s1 HI).
  destruct (tryDirections random toBase36 config gs cell dirs st s1) as [st' s2].
  now apply IH.
Qed.

Lemma bomb_needs_level5 (lvl : Z) (n : nat) :
  Qltb (random n) (bombChance (getLevelConfig lvl)) = true -> 5 <= lvl.
Proof.
  intros H. apply Qltb_lt in H.
  destruct (getLevelConfig_steps lvl) as (_ & _ & Hb & _). rewrite Hb in H.
  destruct (Z.ltb_spec lvl 5) as [L|L]; [|exact L].
  destruct (random_unit n) as [H0 _]. lra.
Qed.

Lemma tryDirections_fresh (lvl gs : Z) (cell : Cell) (dirs : list Direction)
    (st : GenState) (s : nat) :
  1 <= lvl ->
  Forall (freshPiece lvl) (fst st) ->
  Forall (freshPiece lvl)
         (fst (fst (tryDirections random toBase36 (getLevelConfig lvl) gs cell dirs st s))).
Proof.
  intros Hlvl HI. induction dirs as [|dir rest IH]; cbn [tryDirections]; [exact HI|].
  destruct (isValid _ _ gs && negb (isOccupied _ _ (snd st)))%bool; [|exact IH].
  unfold bind, Math_random, randomBelow, genId, ret, bind. cbn [fst].
  apply Forall_app. split; [exact HI|]. constructor; [|constructor].
  unfold freshPiece. cbn [isExited isMoving type timer color].
  split; [reflexivity|]. split; [reflexivity|]. split.
  - destruct (Qltb (random s) (bombChance (getLevelConfig lvl))) eqn:E.
    + right. split; [reflexivity|]. split; [reflexivity|].
      now apply (bomb_needs_level5 lvl s).
    + left. split; reflexivity.
  - assert (Hk := skinCount_bounds lvl Hlvl).
    unfold slice0. destruct (Z.ltb_spec (skinCount (getLevelConfig lvl)) 0) as [L|L]; [lia|].
    set (skins := take (Z.to_nat (skinCount (getLevelConfig lvl))) CAT_SKINS).
    assert (Hlen : (0 < length skins)%nat).
    { unfold skins. rewrite length_take. cbn [length CAT_SKINS]. lia. }
    assert (Hr := randomBelow_range random (Z.of_nat (length skins)) (S s)
                    (proj1 (random_unit (S s))) (proj2 (random_unit (S s))) ltac:(lia)).
    unfold randomBelow, bind, Math_random, ret in Hr. cbn [fst] in Hr.
    apply nth_In. lia.
Qed.

Lemma generateLevel_fresh (lvl : Z) (s : nat) :
  1 <= lvl ->
  Forall (freshPiece lvl) (cats (fst (generateLevel random randomSort toBase36 lvl s))).
Proof.
  intros Hlvl. unfold generateLevel, bind.
  destruct (randomBelow random _ s) as [e s1].
  destruct (randomSort Cell _ s1) as [shuffled s2].
  set (cells := Array_sort _ shuffled). set (target := (_ - _) / 2).
  assert (HI : Forall (freshPiece lvl)
                 (fst (fst (placeCats random toBase36 (getLevelConfig lvl)
                              (size (getLevelConfig lvl)) target cells ([], ∅) s2)))).
  { apply (placeCats_preserves (fun st => Forall (freshPiece lvl) (fst st)));
      [|constructor].
    intros cell dirs st s' H. now apply tryDirections_fresh. }
  destruct (placeCats _ _ _ _ _ _ _ _) as [st s3]. unfold ret. cbn [fst cats] in *.
  eapply Permutation_Forall; [|exact HI]. symmetry. apply Array_sort_perm.
Qed.

(** *** The generator places at least one piece *)

Lemma tryDirections_grows (config : LevelConfig) (gs : Z) (cell : Cell)
    (dirs : list Direction) (st : GenState) (s : nat) :
  (length (fst st)
   <= length (fst (fst (tryDirections random toBase36 config gs cell dirs st s))))%nat.
Proof.
  destruct (tryDirections_cases random toBase36 config gs cell dirs st s)
    as [->|(dir & s1 & skin & ident & _ & _ & ->)]; [lia|].
  unfold genStep. cbn [fst]. rewrite length_app. lia.
Qed.

Lemma tryDirections_places (config : LevelConfig) (gs : Z) (cell : Cell)
    (dirs : list Direction) (st : GenState) (s : nat) (dir : Direction) :
  In dir dirs ->
  isValid (fst cell - dx (getDelta dir)) (snd cell - dy (getDelta dir)) gs = true ->
  isOccupied (fst cell - dx (getDelta dir)) (snd cell - dy (getDelta dir)) (snd st)
    = false ->
  length (fst (fst (tryDirections random toBase36 config gs cell dirs st s)))
  = S (length (fst st)).
Proof.
  intros Hin Hv Ho. induction dirs as [|d rest IH]; [contradiction|].
  cbn [tryDirections].
  destruct (isValid _ _ gs && negb (isOccupied _ _ (snd st)))%bool eqn:E.
  - cbv beta iota delta [bind Math_random randomBelow genId ret]. cbn [fst].
    rewrite length_app. cbn [length]. lia.
  - destruct Hin as [->|Hin]; [|now apply IH].
    rewrite Hv, Ho in E. discriminate.
Qed.

(** A grid cell has a neighbour in the grid, once the grid has two
    cells a side. *)
Lemma cell_has_neighbour (gs : Z) (cell : Cell) :
  2 <= gs -> isValid (fst cell) (snd cell) gs = true ->
  exists dir,
    isValid (fst cell - dx (getDelta dir)) (snd cell - dy (getDelta dir)) gs = true.
Proof.
  intros Hgs Hv. unfold isValid in *.
  rewrite !andb_true_iff, !Z.leb_le, !Z.ltb_lt in Hv.
  destruct (Z.eq_dec (fst cell) 0) as [E|E].
  - exists LEFT. cbn [getDelta dx dy].
    rewrite !andb_true_iff, !Z.leb_le, !Z.ltb_lt. lia.
  - exists RIGHT. cbn [getDelta dx dy].
    rewrite !andb_true_iff, !Z.leb_le, !Z.ltb_lt. lia.
Qed.

Lemma In_all_directions (d : Direction) : In d [UP; DOWN; LEFT; RIGHT].
Proof. destruct d; cbn; auto. Qed.

Hypothesis randomSort_reorders :
  forall (A : Type) (l : list A) (n : nat), Permutation (fst (randomSort A l n)) l.

Lemma generateLevel_nonempty (lvl : Z) (s : nat) :
  (1 <= length (cats (fst (generateLevel random randomSort toBase36 lvl s))))%nat.
Proof.
  assert (He := randomBelow_range random (10 - 2 + 1) s
                  (proj1 (random_unit s)) (proj2 (random_unit s)) ltac:(lia)).
  unfold generateLevel, bind.
  destruct (randomBelow random (10 - 2 + 1) s) as [e s1]. cbn [fst] in He.
  assert (Hrs := randomSort_reorders Cell (allCells (size (getLevelConfig lvl))) s1).
  destruct (randomSort Cell _ s1) as [shuffled s2]. cbn [fst] in Hrs.
  set (gs := size (getLevelConfig lvl)) in *.
  assert (Hgs := size_getLevelConfig lvl). fold gs in Hgs.
  set (cells := Array_sort (byDistance gs) shuffled).
  set (target := (gs * gs - (e + 2)) / 2).
  assert (Htarget : 1 <= target).
  { unfold target. apply Z.div_le_lower_bound; nia. }
  assert (Hcells : Permutation cells (allCells gs)).
  { unfold cells. rewrite Array_sort_perm. exact Hrs. }
  assert (Hlen : Z.of_nat (length cells) = Z.max 0 gs * Z.max 0 gs).
  { rewrite (Permutation_length Hcells). apply allCells_length. }
  destruct cells as [|cell rest] eqn:Ecells; [cbn [length] in Hlen; nia|].
  assert (Hvalid : isValid (fst cell) (snd cell) gs = true).
  { apply allCells_valid. eapply Permutation_in; [exact Hcells | now left]. }
  cbn [placeCats].
  destruct (Z.leb_spec target (Z.of_nat (length (fst (([], ∅) : GenState)))))
    as [L|_]; [cbn in L; lia|].
  assert (Hfree : forall a b, isOccupied a b (∅ : gset Cell) = false).
  { intros a b. unfold isOccupied. apply bool_decide_eq_false. set_solver. }
  cbn [fst snd]. rewrite Hfree. unfold bind.
  assert (Hdirs := fisherYates_perm random 3 [UP; DOWN; LEFT; RIGHT] s2).
  destruct (fisherYates random 3 [UP; DOWN; LEFT; RIGHT] s2) as [dirs s3].
  cbn [fst] in Hdirs.
  destruct (cell_has_neighbour gs cell ltac:(lia) Hvalid) as [dir Hdir].
  assert (Hin : In dir dirs).
  { eapply Permutation_in; [symmetry; exact Hdirs | apply In_all_directions]. }
  assert (Hone := tryDirections_places (getLevelConfig lvl) gs cell dirs ([], ∅) s3 dir
                    Hin Hdir (Hfree _ _)).
  destruct (tryDirections random toBase36 (getLevelConfig lvl) gs cell dirs ([], ∅) s3)
    as [st1 s4]. cbn [fst length] in Hone.
  assert (Hmono : (length (fst st1)
                   <= length (fst (fst (placeCats random toBase36 (getLevelConfig lvl)
                                          gs target rest st1 s4))))%nat).
  { apply (placeCats_preserves
             (fun st => (length (fst st1) <= length (fst st))%nat)); [|lia].
    intros c ds st s' H.
    etransitivity; [exact H | apply tryDirections_grows]. }
  destruct (placeCats _ _ _ _ _ _ _ _) as [st s5]. unfold ret. cbn [fst cats] in *.
  rewrite Array_sort_length. lia.
Qed.

End GeneratedLevel.

(** X5. From level 1 on, with [Math.random] in [[0, 1)], every piece of
    a generated level is active and at rest; it is a bomb with a timer
    of 120 seconds or a normal piece without timer, bombs occur from
    level 5 on only, and its skin is one of the first [skinCount] skins
    of the palette. *)
Theorem generateLevel_pieces_fresh
    (random : nat -> Q) (randomSort : forall A : Type, list A -> nat -> list A * nat)
    (toBase36 : Q -> string) (lvl : Z) (s : nat) :
  (forall n, (0 <= random n)%Q /\ (random n < 1)%Q) ->
  1 <= lvl ->
  Forall (freshPiece lvl) (cats (fst (generateLevel random randomSort toBase36 lvl s))).
Proof. intros Hr Hlvl. now apply generateLevel_fresh. Qed.

Lemma variedRandom_unit (n : nat) : (0 <= variedRandom n)%Q /\ (variedRandom n < 1)%Q.
Proof.
  destruct n as [|n]; cbn [variedRandom];
    [split; [unfold Qle | unfold Qlt]; cbn; lia|].
  assert (H := Z.mod_pos_bound (Z.of_nat (S n) * 617) 1000 ltac:(lia)).
  unfold Qle, Qlt. cbn [Qnum Qden]. lia.
Qed.

Lemma generateLevel_pieces_fresh_witness :
  (forall n, (0 <= variedRandom n)%Q /\ (variedRandom n < 1)%Q) /\ 1 <= 5 /\
  Forall (freshPiece 5)
         (cats (fst (generateLevel variedRandom reverseOrder demoBase36 5 0%nat))).
Proof.
  split; [exact variedRandom_unit|]. split; [lia|].
  apply (generateLevel_pieces_fresh variedRandom reverseOrder demoBase36 5 0);
    [exact variedRandom_unit | lia].
Defined.

Lemma reverseOrder_reorders (A : Type) (l : list A) (n : nat) :
  Permutation (fst (reverseOrder A l n)) l.
Proof. cbn. symmetry. apply Permutation_rev. Qed.

(** X6. With [Math.random] in [[0, 1)] and a random-comparator sort
    that reorders its array, [generateLevel] returns at least one piece,
    and its pieces are in row-major order. *)
Theorem generateLevel_nonempty_sorted
    (random : nat -> Q) (randomSort : forall A : Type, list A -> nat -> list A * nat)
    (toBase36 : Q -> string) (lvl : Z) (s : nat) :
  (forall n, (0 <= random n)%Q /\ (random n < 1)%Q) ->
  (forall (A : Type) (l : list A) (n : nat), Permutation (fst (randomSort A l n)) l) ->
  (1 <= length (cats (fst (generateLevel random randomSort toBase36 lvl s))))%nat /\
  StronglySorted rowMajorLe (cats (fst (generateLevel random randomSort toBase36 lvl s))).
Proof.
  intros Hr Hp. split; [now apply generateLevel_nonempty|].
  unfold generateLevel, bind.
  destruct (randomBelow random _ s) as [e s1].
  destruct (randomSort Cell _ s1) as [shuffled s2].
  destruct (placeCats _ _ _ _ _ _ _ _) as [st s3]. unfold ret. cbn [fst cats].
  apply Array_sort_rowMajor_sorted.
Qed.

Lemma generateLevel_nonempty_sorted_witness :
  (forall n, (0 <= variedRandom n)%Q /\ (variedRandom n < 1)%Q) /\
  (forall (A : Type) (l : list A) (n : nat), Permutation (fst (reverseOrder A l n)) l) /\
  (1 <= length (cats (fst (generateLevel variedRandom reverseOrder demoBase36 12 0%nat))))%nat /\
  StronglySorted rowMajorLe
    (cats (fst (generateLevel variedRandom reverseOrder demoBase36 12 0%nat))).
Proof.
  split; [exact variedRandom_unit|]. split; [exact reverseOrder_reorders|].
  apply (generateLevel_nonempty_sorted variedRandom reverseOrder demoBase36 12 0);
    [exact variedRandom_unit | exact reverseOrder_reorders].
Defined.

(** X7. With [Math.random] in [[0, 1)], the empty-slot budget drawn by
    [generateLevel] lies between 2 and 10, the generator never places
    more pieces than its target, so at least 2 cells stay empty; when it
    reaches the target, the empty cells are the budget, plus one when
    the budget and the number of cells differ in parity. *)
Theorem generateLevel_never_overfull
    (random : nat -> Q) (randomSort : forall A : Type, list A -> nat -> list A * nat)
    (toBase36 : Q -> string) (lvl : Z) (s : nat) :
  (forall n, (0 <= random n)%Q /\ (random n < 1)%Q) ->
  let L := fst (generateLevel random randomSort toBase36 lvl s) in
  let emptySlots := fst (randomBelow random (10 - 2 + 1) s) + 2 in
  let target := (gridSize L * gridSize L - emptySlots) / 2 in
  2 <= emptySlots <= 10 /\
  Z.of_nat (length (cats L)) <= target /\
  2 <= emptyCells L /\
  (Z.of_nat (length (cats L)) = target ->
   emptyCells L = emptySlots + (gridSize L * gridSize L - emptySlots) mod 2).
Proof.
  intros Hr. exact (generateLevel_density random randomSort toBase36 Hr lvl s).
Qed.

Lemma generateLevel_never_overfull_witness :
  (forall n, (0 <= variedRandom n)%Q /\ (variedRandom n < 1)%Q) /\
  Z.of_nat (length (cats (fst (generateLevel variedRandom reverseOrder demoBase36 3 0%nat))))
  <= (8 * 8 - 10) / 2 /\
  2 <= emptyCells (fst (generateLevel variedRandom reverseOrder demoBase36 3 0%nat)).
Proof.
  split; [exact variedRandom_unit|].
  destruct (generateLevel_never_overfull variedRandom reverseOrder demoBase36 3 0
              variedRandom_unit) as (_ & H1 & H2 & _).
  split; [exact H1 | exact H2].
Defined.

(** ** Moves *)

Lemma raycastLoop_blocked (gs : Z) (cs : list CatEntity) (cat : CatEntity) :
  forall (n : nat) (step : Z) (tx ty : Q) (k : Z) (b : CatEntity),
    step <= k < step + Z.of_nat n ->
    (forall j, step <= j < k -> clearStep gs cs cat j) ->
    outOfGrid gs (stepX cat k) (stepY cat k) = false ->
    find (obstructs (id cat) (stepX cat k) (stepY cat k)) cs = Some b ->
    raycastLoop gs cs cat n step tx ty
    = mkRay (stepX cat k - inject_Z (dx (getDelta (direction cat))))%Q
            (stepY cat k - inject_Z (dy (getDelta (direction cat))))%Q false.
Proof.
  induction n as [|n IH]; intros step tx ty k b Hk Hclear Hin Hfind; [lia|].
  cbn [raycastLoop]. fold (stepX cat step) (stepY cat step).
  destruct (Z.eq_dec step k) as [->|Hne].
  - rewrite Hin, Hfind. reflexivity.
  - destruct (Hclear step ltac:(lia)) as [Hin' Hfree].
    rewrite Hin', Hfree. apply (IH _ _ _ k b); auto; [lia|].
    intros j Hj. apply Hclear. lia.
Qed.

(** A piece that slides at least one cell does not end where it was. *)
Lemma slide_is_a_move (cat : CatEntity) (m : Z) (tx ty : Q) :
  1 <= m -> (tx == stepX cat m)%Q -> (ty == stepY cat m)%Q ->
  (Qeq_bool tx (x cat) && Qeq_bool ty (y cat))%bool = false.
Proof.
  intros Hm Hx Hy. apply andb_false_iff.
  assert (Qm : (1 <= inject_Z m)%Q) by (change 1%Q with (inject_Z 1); now rewrite <- Zle_Qle).
  unfold stepX, stepY in *.
  destruct (delta_nonzero (direction cat)) as [[_ [H|H]]|[_ [H|H]]]; rewrite H in *;
    [right | right | left | left];
    match goal with |- Qeq_bool ?a ?b = false =>
      destruct (Qeq_bool_spec a b) as [E|E]; [exfalso|reflexivity] end.
  - change (inject_Z 1) with 1%Q in Hy. lra.
  - change (inject_Z (-1)) with (-1)%Q in Hy. lra.
  - change (inject_Z 1) with 1%Q in Hx. lra.
  - change (inject_Z (-1)) with (-1)%Q in Hx. lra.
Qed.

(** X8. A piece whose first [m >= 1] steps are clear and whose next
    step is a grid cell held by another piece slides [m] cells and stops
    there: the handler writes it back with its head on step [m], not
    exited, with the moving flag set. *)
Theorem resolveMove_slides (gs : Z) (cs : list CatEntity) (ident : string)
    (idx : nat) (cat b : CatEntity) (m : Z) :
  findIndex (fun c => String.eqb (id c) ident) cs = Some idx ->
  cs !! idx = Some cat ->
  isExited cat = false ->
  1 <= m < gs ->
  (forall j, 1 <= j <= m -> clearStep gs cs cat j) ->
  outOfGrid gs (stepX cat (m + 1)) (stepY cat (m + 1)) = false ->
  In b cs -> id b <> id cat -> isExited b = false ->
  occupies b (stepX cat (m + 1)) (stepY cat (m + 1)) ->
  exists c',
    resolveMove gs cs ident = Some (<[idx := c']> cs) /\
    (x c' == stepX cat m)%Q /\ (y c' == stepY cat m)%Q /\
    isExited c' = false /\ isMoving c' = true /\
    id c' = id cat /\ direction c' = direction cat /\ type c' = type cat /\
    timer c' = timer cat /\ color c' = color cat.
Proof.
  intros Hidx Hcat Hact Hm Hclear Hin Hb Hid Hbact Hocc.
  assert (Hobs : obstructs (id cat) (stepX cat (m + 1)) (stepY cat (m + 1)) b = true)
    by (apply obstructs_true; auto).
  destruct (find_is_Some _ _ _ Hb Hobs) as [b' Hfind].
  unfold resolveMove. rewrite Hidx, Hcat, Hact. unfold raycast.
  rewrite (raycastLoop_blocked gs cs cat (Z.to_nat gs) 1 (x cat) (y cat) (m + 1) b');
    [|lia| |exact Hin|exact Hfind].
  2: { intros j Hj. apply Hclear. lia. }
  cbn [targetX targetY].
  assert (Ex := stepX_pred cat (m + 1)). assert (Ey := stepY_pred cat (m + 1)).
  replace (m + 1 - 1) with m in Ex, Ey by lia.
  rewrite (slide_is_a_move cat m _ _ ltac:(lia) Ex Ey).
  eexists. split; [reflexivity|]. cbn. auto 10.
Qed.

Lemma resolveMove_slides_witness :
  exists c',
    resolveMove 8 [scenarioA; scenarioC] "A" = Some [c'; scenarioC] /\
    (x c' == 6)%Q /\ (y c' == 3)%Q /\ isExited c' = false.
Proof.
  assert (Hclear : forall j, 1 <= j <= 3 -> clearStep 8 [scenarioA; scenarioC] scenarioA j).
  { intros j Hj. assert (Hc : j = 1 \/ j = 2 \/ j = 3) by lia.
    destruct Hc as [->|[->| ->]]; split; reflexivity. }
  destruct (resolveMove_slides 8 [scenarioA; scenarioC] "A" 0 scenarioA scenarioC 3)
    as (c' & Hr & Hx & Hy & He & _);
    [reflexivity | reflexivity | reflexivity | lia | exact Hclear | reflexivity
    | right; left; reflexivity | discriminate | reflexivity
    | right; split; reflexivity |].
  exists c'. split; [exact Hr|]. split; [rewrite Hx; reflexivity|].
  split; [rewrite Hy; reflexivity | exact He].
Defined.

(** *** What a move leaves alone *)

Lemma findIndex_None {A} (p : A -> bool) (l : list A) :
  findIndex p l = None <-> forall a, In a l -> p a = false.
Proof.
  induction l as [|b l IH]; cbn [findIndex].
  - split; [intros _ a [] | reflexivity].
  - destruct (p b) eqn:E.
    + split; [discriminate|]. intros H. rewrite (H b) in E; [discriminate | now left].
    + destruct (findIndex p l) as [i|]; cbn [option_map].
      * split; [discriminate|]. intros H.
        assert (N : Some i = None) by (apply IH; intros a Ha; apply H; now right).
        discriminate.
      * split; [|reflexivity]. intros _ a [<-|Ha]; [exact E|].
        now apply (proj1 IH).
Qed.

(** X9. A click changes at most the clicked piece, and of it only the
    head, the exited flag and the moving flag: the list keeps its length
    and its order of ids, directions, kinds, timers and skins.  A click
    on an id no piece has, or on a piece that has exited, changes
    nothing. *)
Theorem handleCatClick_frame (gs : Z) (cs : list CatEntity) (ident : string) :
  length (handleCatClick gs cs ident) = length cs /\
  map id (handleCatClick gs cs ident) = map id cs /\
  map direction (handleCatClick gs cs ident) = map direction cs /\
  map type (handleCatClick gs cs ident) = map type cs /\
  map timer (handleCatClick gs cs ident) = map timer cs /\
  map color (handleCatClick gs cs ident) = map color cs /\
  (forall j c, cs !! j = Some c -> id c <> ident ->
               handleCatClick gs cs ident !! j = Some c) /\
  ((forall c, In c cs -> id c <> ident) -> handleCatClick gs cs ident = cs) /\
  (forall i c, findIndex (fun c => String.eqb (id c) ident) cs = Some i ->
               cs !! i = Some c -> isExited c = true ->
               handleCatClick gs cs ident = cs).
Proof.
  unfold handleCatClick, resolveMove.
  destruct (findIndex (fun c => String.eqb (id c) ident) cs) as [idx|] eqn:Hidx.
  2: { repeat split; auto. }
  destruct (findIndex_Some _ _ _ Hidx) as (cat & Hcat & Hp & _).
  apply String.eqb_eq in Hp. rewrite Hcat.
  destruct (isExited cat) eqn:Hact.
  { repeat split; auto. }
  destruct (_ && _)%bool.
  { repeat split; auto. }
  split; [apply length_insert|].
  split; [now apply (map_insert_same id cs idx _ cat)|].
  split; [now apply (map_insert_same direction cs idx _ cat)|].
  split; [now apply (map_insert_same type cs idx _ cat)|].
  split; [now apply (map_insert_same timer cs idx _ cat)|].
  split; [now apply (map_insert_same color cs idx _ cat)|].
  split; [|split].
  - intros j c Hj Hne. rewrite list_lookup_insert_ne; [exact Hj|].
    intros ->. rewrite Hcat in Hj. injection Hj as ->. contradiction.
  - intros Hnone. exfalso. apply (Hnone cat); [|exact Hp].
    eapply lookup_In; exact Hcat.
  - intros i c [= <-] Hc Hex. rewrite Hcat in Hc. injection Hc as ->. congruence.
Qed.

(** *** Leaving the grid *)

Lemma outOfGrid_true (gs : Z) (nx ny : Q) :
  outOfGrid gs nx ny = true ->
  (nx < 0 \/ inject_Z gs <= nx \/ ny < 0 \/ inject_Z gs <= ny)%Q.
Proof.
  unfold outOfGrid. rewrite !orb_true_iff, !Qltb_lt, !Qgeb_le. tauto.
Qed.

(** From a head inside the grid, step [gridSize] of the ray is outside. *)
Lemma ray_leaves_grid (gs : Z) (cat : CatEntity) :
  inGrid gs (x cat) (y cat) ->
  outOfGrid gs (stepX cat gs) (stepY cat gs) = true.
Proof.
  intros (X0 & X1 & Y0 & Y1).
  destruct (outOfGrid gs (stepX cat gs) (stepY cat gs)) eqn:E; [reflexivity|].
  exfalso. apply outOfGrid_false in E. destruct E as (A0 & A1 & B0 & B1).
  unfold stepX, stepY in *.
  destruct (delta_nonzero (direction cat)) as [[_ [H|H]]|[_ [H|H]]]; rewrite H in *.
  - change (inject_Z 1) with 1%Q in *. lra.
  - change (inject_Z (-1)) with (-1)%Q in *. lra.
  - change (inject_Z 1) with 1%Q in *. lra.
  - change (inject_Z (-1)) with (-1)%Q in *. lra.
Qed.

Lemma inGrid_size_pos (gs : Z) (a b : Q) : inGrid gs a b -> 1 <= gs.
Proof.
  intros (A0 & A1 & _).
  assert (H : (inject_Z 0 < inject_Z gs)%Q) by (change (inject_Z 0) with 0%Q; lra).
  rewrite <- Zlt_Qlt in H. lia.
Qed.

(** X10. A piece whose head is in the grid and whose ray no other
    non-exited piece occupies always leaves the grid when clicked: the
    [gridSize] iterations of the raycast loop are enough to reach the
    boundary. *)
Theorem free_ray_exits (gs : Z) (cs : list CatEntity) (cat : CatEntity) :
  inGrid gs (x cat) (y cat) ->
  freeRay gs cs cat ->
  willExit (raycast gs cs cat) = true /\ ReachesBoundary gs cs cat.
Proof.
  intros Hgrid Hfree. assert (Hgs := inGrid_size_pos gs _ _ Hgrid).
  assert (Hw : willExit (raycast gs cs cat) = true).
  { unfold raycast.
    destruct (raycastLoop_cases gs cs cat (Z.to_nat gs) 1 (x cat) (y cat)
                ltac:(symmetry; apply stepX_0) ltac:(symmetry; apply stepY_0))
      as [(k & _ & _ & _ & ->) | (m & Hm & Hcl & _ & _ & _ & Hend)]; [reflexivity|].
    exfalso. destruct (Z.eq_dec m gs) as [->|Hne].
    - destruct (Hcl gs ltac:(lia)) as [Hin _].
      rewrite (ray_leaves_grid gs cat Hgrid) in Hin. discriminate.
    - destruct Hend as [->|(_ & b & Hb)]; [lia|].
      apply find_some in Hb. destruct Hb as [Hb Ho].
      apply obstructs_true in Ho. destruct Ho as (Hid & Hact & Hocc).
      apply (Hfree (m + 1) b); auto. lia. }
  split; [exact Hw | now apply willExit_ReachesBoundary].
Qed.

Lemma free_ray_exits_witness :
  inGrid 8 (x scenarioC) (y scenarioC) /\
  willExit (raycast 8 [scenarioA; scenarioC] scenarioC) = true.
Proof.
  assert (Hgrid : inGrid 8 (x scenarioC) (y scenarioC)).
  { unfold inGrid, Qle, Qlt. cbn. lia. }
  split; [exact Hgrid|].
  apply (free_ray_exits 8 [scenarioA; scenarioC] scenarioC Hgrid).
  intros j b Hj [<-|[<-|[]]] Hid Hact [[H1 H2]|[H1 H2]];
    try (apply Hid; reflexivity);
    assert (Hc : j = 1 \/ j = 2 \/ j = 3 \/ j = 4 \/ j = 5 \/ j = 6 \/ j = 7 \/ j = 8)
      by lia;
    destruct Hc as [->|[->|[->|[->|[->|[->|[->| ->]]]]]]];
    vm_compute in H1; discriminate H1.
Defined.

(** X11. A piece that leaves the grid from a head inside it ends
    outside the grid, at least [gridSize * 2.5] cells beyond the edge it
    crossed. *)
Theorem exit_lands_outside (gs : Z) (cs : list CatEntity) (cat : CatEntity) :
  inGrid gs (x cat) (y cat) ->
  willExit (raycast gs cs cat) = true ->
  outOfGrid gs (targetX (raycast gs cs cat)) (targetY (raycast gs cs cat)) = true /\
  (targetX (raycast gs cs cat) < - (inject_Z gs * (5 # 2)) \/
   inject_Z gs * (7 # 2) <= targetX (raycast gs cs cat) \/
   targetY (raycast gs cs cat) < - (inject_Z gs * (5 # 2)) \/
   inject_Z gs * (7 # 2) <= targetY (raycast gs cs cat))%Q.
Proof.
  intros Hgrid Hw. assert (Hgs := inGrid_size_pos gs _ _ Hgrid).
  assert (Qg : (1 <= inject_Z gs)%Q) by (change 1%Q with (inject_Z 1); now rewrite <- Zle_Qle).
  unfold raycast in *.
  destruct (raycastLoop_cases gs cs cat (Z.to_nat gs) 1 (x cat) (y cat)
              ltac:(symmetry; apply stepX_0) ltac:(symmetry; apply stepY_0))
    as [(k & Hk & _ & Hout & Hr) | (m & _ & _ & Hno & _)];
    [|rewrite Hno in Hw; discriminate].
  rewrite Hr. cbn [targetX targetY].
  assert (Qk : (1 <= inject_Z k)%Q) by (change 1%Q with (inject_Z 1); rewrite <- Zle_Qle; lia).
  apply outOfGrid_true in Hout. destruct Hgrid as (X0 & X1 & Y0 & Y1).
  assert (Hfar :
    (exitX gs cat k < - (inject_Z gs * (5 # 2)) \/
     inject_Z gs * (7 # 2) <= exitX gs cat k \/
     exitY gs cat k < - (inject_Z gs * (5 # 2)) \/
     inject_Z gs * (7 # 2) <= exitY gs cat k)%Q).
  { unfold exitX, exitY, stepX, stepY in *.
    destruct (delta_nonzero (direction cat)) as [[H0 [H|H]]|[H0 [H|H]]];
      rewrite H0, H in *;
      change (inject_Z 0) with 0%Q in *; change (inject_Z 1) with 1%Q in *;
      change (inject_Z (-1)) with (-1)%Q in *;
      destruct Hout as [O|[O|[O|O]]];
      first [ lra | left; lra | right; left; lra | right; right; left; lra
            | right; right; right; lra ]. }
  split; [|exact Hfar].
  unfold outOfGrid. rewrite !orb_true_iff, !Qltb_lt, !Qgeb_le.
  destruct Hfar as [F|[F|[F|F]]]; [left; left; left | left; left; right | left; right | right];
    lra.
Qed.

Lemma exit_lands_outside_witness :
  inGrid 8 (x scenarioSingle) (y scenarioSingle) /\
  willExit (raycast 8 [scenarioSingle] scenarioSingle) = true /\
  outOfGrid 8 (targetX (raycast 8 [scenarioSingle] scenarioSingle))
              (targetY (raycast 8 [scenarioSingle] scenarioSingle)) = true.
Proof.
  assert (Hgrid : inGrid 8 (x scenarioSingle) (y scenarioSingle)).
  { unfold inGrid, Qle, Qlt. cbn. lia. }
  split; [exact Hgrid|]. split; [reflexivity|].
  exact (proj1 (exit_lands_outside 8 [scenarioSingle] scenarioSingle Hgrid eq_refl)).
Defined.

(** *** Following the hint *)

Lemma findIndex_NoDup (cs : list CatEntity) (c : CatEntity) :
  List.NoDup (map id cs) -> In c cs ->
  exists idx, findIndex (fun c0 => String.eqb (id c0) (id c)) cs = Some idx /\
              cs !! idx = Some c.
Proof.
  induction cs as [|a cs IH]; intros Hnd Hin; [contradiction|].
  cbn [map] in Hnd. inversion Hnd as [|? ? Hnot Hnd']; subst. cbn [findIndex].
  destruct (String.eqb_spec (id a) (id c)) as [E|E].
  - exists 0%nat. split; [reflexivity|]. destruct Hin as [->|Hin]; [reflexivity|].
    exfalso. apply Hnot. rewrite E. now apply in_map.
  - destruct Hin as [->|Hin]; [contradiction|].
    destruct (IH Hnd' Hin) as (idx & Hf & Hl). exists (S idx).
    rewrite Hf. split; [reflexivity | exact Hl].
Qed.

Lemma active_count_insert_exit (cs : list CatEntity) (idx : nat) (c c' : CatEntity) :
  cs !! idx = Some c -> isExited c = false -> isExited c' = true ->
  S (length (List.filter active (<[idx := c']> cs))) = length (List.filter active cs).
Proof.
  revert idx. induction cs as [|a cs IH]; intros [|idx] Hc Hact Hex;
    cbn in Hc; try discriminate.
  - injection Hc as ->. change (<[0%nat := c']> (c :: cs)) with (c' :: cs).
    assert (A1 : active c = true) by (unfold active; now rewrite Hact).
    assert (A2 : active c' = false) by (unfold active; now rewrite Hex).
    cbn [List.filter]. rewrite A1, A2. reflexivity.
  - change (<[S idx := c']> (a :: cs)) with (a :: <[idx := c']> cs).
    cbn [List.filter]. destruct (active a); cbn [length]; rewrite <- (IH idx Hc Hact Hex);
      reflexivity.
Qed.

(** X12. With unique ids, clicking the piece the hint search returns
    makes that piece exit: the handler sets its exited flag, leaves the
    rest of the list as it is, and the board has one active piece
    less. *)
Theorem hint_click_exits (gs : Z) (cs : list CatEntity) (c : CatEntity) :
  List.NoDup (map id cs) ->
  findHint gs cs = Some c ->
  exists idx c',
    cs !! idx = Some c /\
    handleCatClick gs cs (id c) = <[idx := c']> cs /\
    id c' = id c /\ isExited c' = true /\
    S (length (List.filter active (handleCatClick gs cs (id c))))
    = length (List.filter active cs).
Proof.
  intros Hnd Hhint. unfold findHint in Hhint. apply find_some in Hhint.
  destruct Hhint as [Hin Hcan]. apply filter_In in Hin. destruct Hin as [Hin Hact].
  unfold active in Hact. apply negb_true_iff in Hact.
  rewrite canExit_raycast in Hcan.
  destruct (findIndex_NoDup cs c Hnd Hin) as (idx & Hidx & Hc).
  unfold raycast in Hcan.
  destruct (raycastLoop_cases gs cs c (Z.to_nat gs) 1 (x c) (y c)
              ltac:(symmetry; apply stepX_0) ltac:(symmetry; apply stepY_0))
    as [(k & Hk & _ & _ & Hr) | (m & _ & _ & Hno & _)];
    [|rewrite Hno in Hcan; discriminate].
  assert (Hclick : handleCatClick gs cs (id c)
                   = <[idx := moved c (mkRay (exitX gs c k) (exitY gs c k) true)]> cs).
  { unfold handleCatClick, resolveMove. rewrite Hidx, Hc, Hact. unfold raycast.
    rewrite Hr. cbn [targetX targetY]. rewrite exit_is_a_move by lia. reflexivity. }
  exists idx, (moved c (mkRay (exitX gs c k) (exitY gs c k) true)).
  split; [exact Hc|]. split; [exact Hclick|]. split; [reflexivity|].
  split; [reflexivity|]. rewrite Hclick.
  now apply (active_count_insert_exit cs idx c).
Qed.

Lemma hint_click_exits_witness :
  List.NoDup (map id [scenarioA; scenarioC]) /\
  findHint 8 [scenarioA; scenarioC] = Some scenarioC /\
  S (length (List.filter active (handleCatClick 8 [scenarioA; scenarioC] "C")))
  = length (List.filter active [scenarioA; scenarioC]).
Proof.
  assert (Hnd : List.NoDup (map id [scenarioA; scenarioC]))
    by (apply distinctb_NoDup; reflexivity).
  split; [exact Hnd|]. split; [reflexivity|].
  destruct (hint_click_exits 8 [scenarioA; scenarioC] scenarioC Hnd eq_refl)
    as (idx & c' & _ & _ & _ & _ & Hcount).
  exact Hcount.
Defined.

(** ** The bomb timer *)

Lemma tickCat_unchanged (c : CatEntity) : tickChanges c = false -> tickCat c = c.
Proof.
  unfold tickChanges, tickCat. destruct (isLiveBomb c) as [t|]; [|reflexivity].
  destruct (t <=? 0); [reflexivity | discriminate].
Qed.

Lemma bombTick_map (cs : list CatEntity) : fst (bombTick cs) = map tickCat cs.
Proof.
  unfold bombTick. cbn [fst]. destruct (existsb tickChanges cs) eqn:E; [reflexivity|].
  induction cs as [|c cs IH]; [reflexivity|]. cbn [existsb] in E.
  apply orb_false_iff in E. destruct E as [Ec Ecs].
  cbn [map]. rewrite (tickCat_unchanged c Ec), <- (IH Ecs). reflexivity.
Qed.

Lemma tickCat_live (c : CatEntity) (t : Z) :
  isLiveBomb c = Some t -> 0 < t ->
  tickCat c = withTimer c (t - 1) /\ isLiveBomb (tickCat c) = Some (t - 1).
Proof.
  intros Hl Ht. unfold tickCat. rewrite Hl.
  destruct (Z.leb_spec t 0) as [L|_]; [lia|]. split; [reflexivity|].
  unfold isLiveBomb in *. cbn [type isExited timer].
  destruct (type c), (isExited c), (timer c); try discriminate. reflexivity.
Qed.

Lemma isLiveBomb_tickCat (c : CatEntity) (u : Z) :
  isLiveBomb (tickCat c) = Some u ->
  exists t, isLiveBomb c = Some t /\ (t <= 0 /\ u = t \/ 0 < t /\ u = t - 1).
Proof.
  unfold tickCat. destruct (isLiveBomb c) as [t|] eqn:E.
  - destruct (Z.leb_spec t 0) as [L|L].
    + rewrite E. intros [= <-]. exists t. split; [reflexivity|]. left. lia.
    + destruct (tickCat_live c t E L) as [Hc Hl]. unfold tickCat in Hl.
      rewrite E in Hl. destruct (Z.leb_spec t 0) as [L'|_]; [lia|].
      rewrite Hl. intros [= <-]. exists t. split; [reflexivity|]. right. lia.
  - rewrite E. discriminate.
Qed.

Lemma ticks_lookup (n : nat) :
  forall (cs : list CatEntity) (i : nat) (c : CatEntity) (t : Z),
    cs !! i = Some c -> isLiveBomb c = Some t -> Z.of_nat n <= t ->
    ticks n cs !! i = Some (withTimer c (t - Z.of_nat n)) /\
    isLiveBomb (withTimer c (t - Z.of_nat n)) = Some (t - Z.of_nat n).
Proof.
  induction n as [|n IH]; intros cs i c t Hc Hl Hn; cbn [ticks].
  - rewrite Z.sub_0_r. unfold withTimer. unfold isLiveBomb in *.
    destruct c as [ci cx cy cd ct ctm cc ce cm]. cbn in *.
    destruct ct, ce, ctm; try discriminate. injection Hl as ->. auto.
  - rewrite bombTick_map.
    destruct (tickCat_live c t Hl ltac:(lia)) as [Hc' Hl'].
    destruct (IH (map tickCat cs) i (tickCat c) (t - 1)
                (lookup_map tickCat cs i c Hc) Hl' ltac:(lia)) as [H1 H2].
    rewrite H1. rewrite Hc' in *. unfold withTimer in *. cbn in *.
    replace (t - 1 - Z.of_nat n) with (t - Z.pos (Pos.of_succ_nat n)) in * by lia.
    auto.
Qed.

Lemma ticks_quiet (n : nat) :
  forall (cs : list CatEntity) (t : Z),
    (forall b u, In b cs -> isLiveBomb b = Some u -> t <= u) ->
    Z.of_nat n < t ->
    snd (bombTick (ticks n cs)) = false.
Proof.
  induction n as [|n IH]; intros cs t Hall Hn; cbn [ticks].
  - unfold bombTick. cbn [snd].
    destruct (existsb tickGameOver cs) eqn:E; [|reflexivity].
    apply existsb_exists in E. destruct E as (b & Hb & Hg).
    unfold tickGameOver in Hg. destruct (isLiveBomb b) as [u|] eqn:El; [|discriminate].
    apply Z.leb_le in Hg. specialize (Hall b u Hb El). lia.
  - rewrite bombTick_map. apply (IH _ (t - 1)); [|lia].
    intros b u Hb Hu. apply in_map_iff in Hb. destruct Hb as (c & <- & Hc).
    destruct (isLiveBomb_tickCat c u Hu) as (t0 & Hl & Hcase).
    specialize (Hall c t0 Hc Hl). lia.
Qed.

(** X13. The tick returns the list with every active bomb of positive
    timer one second older, also when it hands back the old list.  A
    bomb with [t >= 0] seconds left shows [t - n] seconds after [n <= t]
    ticks, and tick number [t + 1] signals the lost game; when no
    active bomb has less than [t] seconds, none of the first [t] ticks
    does. *)
Theorem bomb_countdown (cs : list CatEntity) (i : nat) (c : CatEntity) (t : Z) :
  cs !! i = Some c -> isLiveBomb c = Some t -> 0 <= t ->
  fst (bombTick cs) = map tickCat cs /\
  (forall n, Z.of_nat n <= t -> ticks n cs !! i = Some (withTimer c (t - Z.of_nat n))) /\
  snd (bombTick (ticks (Z.to_nat t) cs)) = true /\
  ((forall b u, In b cs -> isLiveBomb b = Some u -> t <= u) ->
   forall n, Z.of_nat n < t -> snd (bombTick (ticks n cs)) = false).
Proof.
  intros Hc Hl Ht. split; [apply bombTick_map|]. split; [|split].
  - intros n Hn. now apply (ticks_lookup n cs i c t).
  - destruct (ticks_lookup (Z.to_nat t) cs i c t Hc Hl ltac:(lia)) as [H1 H2].
    rewrite Z2Nat.id, Z.sub_diag in H1, H2 by lia.
    unfold bombTick. cbn [snd]. apply existsb_exists.
    exists (withTimer c 0). split; [eapply lookup_In; exact H1|].
    unfold tickGameOver. rewrite H2. reflexivity.
  - intros Hall n Hn. now apply (ticks_quiet n cs t).
Qed.

Lemma bomb_countdown_witness :
  [scenarioA; bombD] !! 1%nat = Some bombD /\ isLiveBomb bombD = Some 2 /\ 0 <= 2 /\
  ticks 2 [scenarioA; bombD] !! 1%nat = Some (withTimer bombD 0) /\
  snd (bombTick (ticks 1 [scenarioA; bombD])) = false /\
  snd (bombTick (ticks 2 [scenarioA; bombD])) = true.
Proof.
  split; [reflexivity|]. split; [reflexivity|]. split; [lia|].
  destruct (bomb_countdown [scenarioA; bombD] 1 bombD 2 eq_refl eq_refl ltac:(lia))
    as (_ & Hn & Hover & Hquiet).
  split; [apply (Hn 2%nat); lia|]. split; [|exact Hover].
  apply Hquiet; [|lia].
  intros b u [<-|[<-|[]]] Hu; cbn in Hu; [discriminate|]. injection Hu as <-. lia.
Defined.

(** ** The win check *)

Lemma active_count_zero (cs : list CatEntity) :
  length (List.filter active cs) = 0%nat <-> Forall (fun c => isExited c = true) cs.
Proof.
  induction cs as [|c cs IH]; cbn [List.filter].
  - split; [constructor | reflexivity].
  - unfold active at 1. destruct (isExited c) eqn:E; cbn [negb].
    + rewrite IH. split; [now constructor | now inversion 1].
    + split; [discriminate|]. inversion 1; congruence.
Qed.

Lemma active_count_map (f : CatEntity -> CatEntity) (cs : list CatEntity) :
  (forall c, isExited (f c) = isExited c) ->
  List.filter active (map f cs) = map f (List.filter active cs).
Proof.
  intros Hf. induction cs as [|c cs IH]; [reflexivity|]. cbn [map List.filter].
  assert (A : active (f c) = active c) by (unfold active; now rewrite Hf).
  rewrite A, IH. destruct (active c); reflexivity.
Qed.

Lemma tickCat_isExited (c : CatEntity) : isExited (tickCat c) = isExited c.
Proof.
  unfold tickCat. destruct (isLiveBomb c) as [t|]; [|reflexivity].
  destruct (t <=? 0); reflexivity.
Qed.

Lemma winCondition_iff (cs : list CatEntity) :
  winCondition cs = true <-> cs <> [] /\ Forall (fun c => isExited c = true) cs.
Proof.
  unfold winCondition. rewrite andb_true_iff, Z.ltb_lt, Z.eqb_eq, <- active_count_zero.
  destruct cs as [|c cs]; cbn [length]; split; intros [H1 H2]; split;
    try lia; try congruence.
Qed.

(** X14. The level is won exactly when the list is not empty and every
    piece has exited.  A flip and a bomb tick do not change whether it
    is won; on a won board a click changes nothing and the hint search
    finds nothing. *)
Theorem winCondition_spec (gs : Z) (cs : list CatEntity) :
  (winCondition cs = true <-> cs <> [] /\ Forall (fun c => isExited c = true) cs) /\
  winCondition (flipAll cs) = winCondition cs /\
  winCondition (fst (bombTick cs)) = winCondition cs /\
  (winCondition cs = true ->
   (forall ident, handleCatClick gs cs ident = cs) /\ findHint gs cs = None).
Proof.
  split; [apply winCondition_iff|]. split; [|split].
  - unfold winCondition, flipAll. cbv zeta.
    rewrite (active_count_map flipCat cs flipCat_isExited), !length_map. reflexivity.
  - rewrite bombTick_map. unfold winCondition. cbv zeta.
    rewrite (active_count_map tickCat cs tickCat_isExited), !length_map. reflexivity.
  - intros Hw. apply winCondition_iff in Hw. destruct Hw as [_ Hall].
    rewrite List.Forall_forall in Hall. split.
    + intros ident. unfold handleCatClick, resolveMove.
      destruct (findIndex _ cs) as [idx|]; [|reflexivity].
      destruct (cs !! idx) as [cat|] eqn:Hcat; [|reflexivity].
      rewrite (Hall cat (lookup_In cs idx cat Hcat)). reflexivity.
    + unfold findHint.
      assert (E : List.filter active cs = []).
      { apply filter_none. apply List.Forall_forall. intros c Hc.
        unfold active. now rewrite (Hall c Hc). }
      now rewrite E.
Qed.

(** X15. While no piece has exited, the remove tool never wins the
    level, not even by emptying the board: the win check asks for a
    non-empty list. *)
Theorem remove_never_wins (cs : list CatEntity) (ident : string) :
  (forall c, In c cs -> isExited c = false) ->
  winCondition (handleToolRemove cs ident) = false.
Proof.
  intros Hall. destruct (winCondition (handleToolRemove cs ident)) eqn:E; [|reflexivity].
  apply winCondition_iff in E. destruct E as [Hne Hex].
  destruct (handleToolRemove cs ident) as [|c rest] eqn:Er; [contradiction|].
  inversion Hex as [|? ? Hc _]; subst.
  assert (Hin : In c (handleToolRemove cs ident)) by (rewrite Er; now left).
  unfold handleToolRemove in Hin. apply filter_In in Hin. destruct Hin as [Hin _].
  rewrite (Hall c Hin) in Hc. discriminate.
Qed.

Lemma remove_never_wins_witness :
  (forall c, In c [scenarioA] -> isExited c = false) /\
  handleToolRemove [scenarioA] "A" = [] /\
  winCondition (handleToolRemove [scenarioA] "A") = false.
Proof.
  assert (H : forall c, In c [scenarioA] -> isExited c = false)
    by (intros c [<-|[]]; reflexivity).
  split; [exact H|]. split; [reflexivity|].
  exact (remove_never_wins [scenarioA] "A" H).
Defined.

(** ** Layering of the pieces *)

(** X16. On the grids the levels use (at most 11 cells a side), a
    non-exited piece whose head is in the grid gets a z-index between 0
    and 110, below the 9999 of every exited piece: a piece that leaves
    is drawn above the pieces that stay. *)
Theorem zIndex_layers (gs : Z) (c e : CatEntity) :
  gs <= 11 -> inGrid gs (x c) (y c) -> isExited c = false -> isExited e = true ->
  0 <= zIndex c <= 110 /\ zIndex e = 9999 /\ zIndex c < zIndex e.
Proof.
  intros Hgs (X0 & X1 & Y0 & Y1) Hc He. unfold zIndex. rewrite Hc, He.
  assert (B : forall q, (0 <= q)%Q -> (q < inject_Z gs)%Q -> 0 <= Qfloor q <= 10).
  { intros q Q0 Q1. assert (A1 := Qfloor_le q). assert (A2 := Qlt_floor q).
    assert (L1 : (inject_Z 0 < inject_Z (Qfloor q + 1))%Q)
      by (change (inject_Z 0) with 0%Q; lra).
    assert (L2 : (inject_Z (Qfloor q) < inject_Z gs)%Q) by lra.
    rewrite <- Zlt_Qlt in L1, L2. lia. }
  assert (Bx := B (x c) X0 X1). assert (By := B (y c) Y0 Y1). lia.
Qed.

Lemma zIndex_layers_witness :
  8 <= 11 /\ inGrid 8 (x scenarioC) (y scenarioC) /\
  zIndex scenarioC = 27 /\ zIndex scenarioC < zIndex exitedCat.
Proof.
  assert (Hgrid : inGrid 8 (x scenarioC) (y scenarioC)).
  { unfold inGrid, Qle, Qlt. cbn. lia. }
  split; [lia|]. split; [exact Hgrid|]. split; [reflexivity|].
  exact (proj2 (proj2 (zIndex_layers 8 scenarioC exitedCat ltac:(lia) Hgrid eq_refl eq_refl))).
Defined.

(** ** All the actions of the driver *)

Lemma sublist_filter_bool {A} (p : A -> bool) (l : list A) :
  sublist (List.filter p l) l.
Proof.
  induction l as [|a l IH]; cbn [List.filter]; [constructor|].
  destruct (p a); now constructor.
Qed.

Lemma Inv_map_same_place (gs : Z) (f : CatEntity -> CatEntity) (cs : list CatEntity) :
  (forall c, id (f c) = id c /\ x (f c) = x c /\ y (f c) = y c /\
             direction (f c) = direction c /\ isExited (f c) = isExited c) ->
  Inv gs cs -> Inv gs (map f cs).
Proof.
  intros Hf (Hnd & Hon & Hdis).
  assert (Hon' : forall c, onGrid gs c -> onGrid gs (f c)).
  { intros c. destruct (Hf c) as (_ & Ex & Ey & Ed & _).
    unfold onGrid, tailX, tailY. now rewrite Ex, Ey, Ed. }
  assert (Hdis' : forall c1 c2, disjointCells c1 c2 -> disjointCells (f c1) (f c2)).
  { intros c1 c2. destruct (Hf c1) as (_ & Ex1 & Ey1 & Ed1 & _).
    destruct (Hf c2) as (_ & Ex2 & Ey2 & Ed2 & _).
    unfold disjointCells, tailX, tailY. now rewrite Ex1, Ey1, Ed1, Ex2, Ey2, Ed2. }
  split; [|split].
  - rewrite map_map. erewrite map_ext; [exact Hnd|]. intros c. apply Hf.
  - intros c' Hc' Hact. apply in_map_iff in Hc'. destruct Hc' as (c & <- & Hc).
    apply Hon'. apply Hon; [exact Hc|]. destruct (Hf c) as (_ & _ & _ & _ & Ee). congruence.
  - intros c1' c2' H1 H2 Hid A1 A2.
    apply in_map_iff in H1. destruct H1 as (c1 & <- & H1).
    apply in_map_iff in H2. destruct H2 as (c2 & <- & H2).
    destruct (Hf c1) as (Ei1 & _ & _ & _ & Ee1). destruct (Hf c2) as (Ei2 & _ & _ & _ & Ee2).
    apply Hdis'. apply Hdis; auto; congruence.
Qed.

Lemma tickCat_same_place (c : CatEntity) :
  id (tickCat c) = id c /\ x (tickCat c) = x c /\ y (tickCat c) = y c /\
  direction (tickCat c) = direction c /\ isExited (tickCat c) = isExited c.
Proof.
  unfold tickCat. destruct (isLiveBomb c) as [t|]; [|auto].
  destruct (t <=? 0); cbn; auto.
Qed.

Lemma Inv_bombTick (gs : Z) (cs : list CatEntity) :
  Inv gs cs -> Inv gs (fst (bombTick cs)).
Proof.
  intros H. rewrite bombTick_map.
  apply Inv_map_same_place; [apply tickCat_same_place | exact H].
Qed.

Lemma Inv_handleToolRemove (gs : Z) (cs : list CatEntity) (ident : string) :
  Inv gs cs -> Inv gs (handleToolRemove cs ident).
Proof.
  intros (Hnd & Hon & Hdis). unfold handleToolRemove. split; [|split].
  - eapply NoDup_map_sublist; [apply sublist_filter_bool | exact Hnd].
  - intros c Hc. apply filter_In in Hc. apply Hon, Hc.
  - intros c1 c2 H1 H2. apply filter_In in H1, H2. apply Hdis; [apply H1 | apply H2].
Qed.

Section AllActions.

Variable randomSort : forall A : Type, list A -> nat -> list A * nat.

Hypothesis randomSort_reorders :
  forall (A : Type) (l : list A) (n : nat), Permutation (fst (randomSort A l n)) l.

Lemma Inv_run (gs : Z) (actions : list Action) :
  forall (cs : list CatEntity) (s : nat),
    Inv gs cs -> Inv gs (fst (run randomSort gs actions cs s)).
Proof.
  induction actions as [|a rest IH]; intros cs s HInv; cbn [run]; [exact HInv|].
  unfold bind.
  assert (H : Inv gs (fst (applyAction randomSort gs a cs s))).
  { destruct a; cbn [applyAction].
    - now apply Inv_handleCatClick.
    - now apply Inv_shuffleCats.
    - now apply Inv_flipAll.
    - now apply Inv_bombTick.
    - now apply Inv_handleToolRemove. }
  destruct (applyAction randomSort gs a cs s) as [cs' s']. now apply IH.
Qed.

End AllActions.

(** X17. The pieces stay well placed through everything the driver
    does, the bomb tick and the remove tool included: after
    [generateLevel] and any sequence of clicks, shuffles, flips, ticks
    and removals, ids are still unique, every non-exited piece has its
    head and its tail in the grid, and two distinct non-exited pieces
    share no cell; the ids drawn for the level being unique and the
    random-comparator sort returning a reordering. *)
Theorem all_actions_well_placed
    (random : nat -> Q) (randomSort : forall A : Type, list A -> nat -> list A * nat)
    (toBase36 : Q -> string) (lvl : Z) (actions : list Action) (s s' : nat) :
  (forall (A : Type) (l : list A) (n : nat), Permutation (fst (randomSort A l n)) l) ->
  let L := fst (generateLevel random randomSort toBase36 lvl s) in
  List.NoDup (map id (cats L)) ->
  List.NoDup (map id (fst (run randomSort (gridSize L) actions (cats L) s'))) /\
  WellPlaced (gridSize L) (fst (run randomSort (gridSize L) actions (cats L) s')).
Proof.
  intros Hperm L Hnd.
  assert (H : Inv (gridSize L) (fst (run randomSort (gridSize L) actions (cats L) s'))).
  { apply Inv_run; [exact Hperm|]. now apply Inv_generateLevel. }
  split; [apply H | now apply Inv_WellPlaced].
Qed.

Lemma all_actions_well_placed_witness :
  (forall (A : Type) (l : list A) (n : nat), Permutation (fst (keepOrder A l n)) l) /\
  List.NoDup (map id (cats (fst (generateLevel demoRandom keepOrder demoBase36 5 0%nat)))) /\
  WellPlaced
    (gridSize (fst (generateLevel demoRandom keepOrder demoBase36 5 0%nat)))
    (fst (run keepOrder
            (gridSize (fst (generateLevel demoRandom keepOrder demoBase36 5 0%nat)))
            [Tick; Click "216"; Remove "204"; UseFlip; Tick; UseShuffle; Click "96"]
            (cats (fst (generateLevel demoRandom keepOrder demoBase36 5 0%nat))) 0%nat)).
Proof.
  assert (Hperm : forall (A : Type) (l : list A) (n : nat),
             Permutation (fst (keepOrder A l n)) l) by (intros; reflexivity).
  assert (Hnd : List.NoDup
                  (map id (cats (fst (generateLevel demoRandom keepOrder demoBase36 5 0%nat)))))
    by (apply distinctb_NoDup; vm_compute; reflexivity).
  split; [exact Hperm|]. split; [exact Hnd|].
  exact (proj2 (all_actions_well_placed demoRandom keepOrder demoBase36 5
                  [Tick; Click "216"; Remove "204"; UseFlip; Tick; UseShuffle; Click "96"]
                  0%nat 0%nat Hperm Hnd)).
Defined.

(** *** No action adds a piece *)

Lemma filter_length_le_bool {A} (p : A -> bool) (l : list A) :
  (length (List.filter p l) <= length l)%nat.
Proof.
  induction l as [|a l IH]; cbn [List.filter length]; [lia|].
  destruct (p a); cbn [length]; lia.
Qed.

Lemma filter_filter_le {A} (p q : A -> bool) (l : list A) :
  (length (List.filter p (List.filter q l)) <= length (List.filter p l))%nat.
Proof.
  induction l as [|a l IH]; cbn [List.filter length]; [lia|].
  destruct (q a), (p a) eqn:E; cbn [List.filter length]; rewrite ?E; cbn [length]; lia.
Qed.

Lemma filter_all {A} (p : A -> bool) (l : list A) :
  Forall (fun a => p a = true) l -> List.filter p l = l.
Proof.
  induction 1 as [|a l Ha Hl IH]; cbn [List.filter]; [reflexivity|]. now rewrite Ha, IH.
Qed.

Lemma active_count_insert_le (cs : list CatEntity) (idx : nat) (c c' : CatEntity) :
  cs !! idx = Some c -> isExited c = false ->
  (length (List.filter active (<[idx := c']> cs))
   <= length (List.filter active cs))%nat.
Proof.
  revert idx. induction cs as [|a cs IH]; intros [|idx] Hc Hact; cbn in Hc; try discriminate.
  - injection Hc as ->. change (<[0%nat := c']> (c :: cs)) with (c' :: cs).
    assert (A1 : active c = true) by (unfold active; now rewrite Hact).
    cbn [List.filter]. rewrite A1. destruct (active c'); cbn [length]; lia.
  - change (<[S idx := c']> (a :: cs)) with (a :: <[idx := c']> cs).
    cbn [List.filter]. specialize (IH idx Hc Hact).
    destruct (active a); cbn [length]; lia.
Qed.

Lemma shuffleCats_counts
    (randomSort : forall A : Type, list A -> nat -> list A * nat)
    (cs : list CatEntity) (gs : Z) (s : nat) :
  exists placed,
    Permutation (fst (shuffleCats randomSort cs gs s)) (List.filter isExited cs ++ placed) /\
    Forall (fun c => isExited c = false) placed /\
    (length placed <= length (List.filter active cs))%nat /\
    (forall cells s1, randomSort Cell (allCells gs) s = (cells, s1) ->
       placed = fst (fst (placeAll randomSort gs (List.filter active cs) cells ([], ∅) s1))).
Proof.
  destruct (shuffleCats_unfold randomSort cs gs s) as (cells & s1 & Hrs & Heq).
  destruct (placeAll_kept randomSort gs cells (List.filter active cs) ([], ∅) s1)
    as (kept & placed & Hsub & Hre & Hpl).
  cbn [fst app] in Hpl. exists placed. split; [|split; [|split]].
  - rewrite Heq, Hpl. apply Array_sort_perm.
  - exact (placed_not_exited kept placed cs Hsub Hre).
  - rewrite <- (Forall2_length _ _ _ Hre). now apply sublist_length.
  - intros cells' s1' E. rewrite Hrs in E. injection E as <- <-. now rewrite Hpl.
Qed.

(** X18. No action adds a piece or brings one back: a click and a tick
    keep the length of the list, a shuffle and the remove tool never
    lengthen it, and none of them raises the number of active pieces; a
    shuffle returns as many exited pieces as it was given. *)
Theorem pieces_never_added
    (randomSort : forall A : Type, list A -> nat -> list A * nat)
    (gs : Z) (cs : list CatEntity) (ident : string) (s : nat) :
  (length (handleCatClick gs cs ident) = length cs /\
   (length (List.filter active (handleCatClick gs cs ident))
    <= length (List.filter active cs))%nat) /\
  (length (fst (bombTick cs)) = length cs /\
   length (List.filter active (fst (bombTick cs))) = length (List.filter active cs)) /\
  ((length (fst (shuffleCats randomSort cs gs s)) <= length cs)%nat /\
   (length (List.filter active (fst (shuffleCats randomSort cs gs s)))
    <= length (List.filter active cs))%nat /\
   length (List.filter isExited (fst (shuffleCats randomSort cs gs s)))
   = length (List.filter isExited cs)) /\
  ((length (handleToolRemove cs ident) <= length cs)%nat /\
   (length (List.filter active (handleToolRemove cs ident))
    <= length (List.filter active cs))%nat).
Proof.
  split; [|split; [|split]].
  - unfold handleCatClick, resolveMove.
    destruct (findIndex _ cs) as [idx|]; [|auto].
    destruct (cs !! idx) as [cat|] eqn:Hcat; [|auto].
    destruct (isExited cat) eqn:Hact; [auto|].
    destruct (_ && _)%bool; [auto|].
    split; [apply length_insert | now apply (active_count_insert_le cs idx cat)].
  - rewrite bombTick_map, (active_count_map tickCat cs tickCat_isExited), !length_map. auto.
  - destruct (shuffleCats_counts randomSort cs gs s) as (placed & Hp & Hne & Hlen & _).
    assert (Hcs := Permutation_length (filter_exited_active_perm cs)).
    rewrite length_app in Hcs.
    assert (HfE : List.filter active (List.filter isExited cs) = []).
    { apply filter_none. apply List.Forall_forall. intros c Hc.
      apply filter_In in Hc. unfold active. destruct Hc as [_ ->]. reflexivity. }
    assert (HfP : List.filter active placed = placed).
    { apply filter_all. eapply Forall_impl; [exact Hne|]. cbn beta.
      intros c Hc. unfold active. now rewrite Hc. }
    split; [|split].
    + rewrite (Permutation_length Hp), length_app. lia.
    + rewrite (Permutation_length (filter_Permutation_bool active _ _ Hp)).
      rewrite List.filter_app, HfE, HfP. cbn [app]. exact Hlen.
    + rewrite (Permutation_length (filter_Permutation_bool isExited _ _ Hp)).
      rewrite List.filter_app, filter_filter_same, (filter_none isExited placed Hne).
      now rewrite app_nil_r.
  - unfold handleToolRemove. split; [apply filter_length_le_bool|].
    apply filter_filter_le.
Qed.

(** ** The remove tool *)

Lemma ReachesBoundary_remove (gs : Z) (cs : list CatEntity) (ident : string)
    (c : CatEntity) :
  ReachesBoundary gs cs c -> ReachesBoundary gs (handleToolRemove cs ident) c.
Proof.
  intros (k & Hk & Hclear & Hout). exists k. split; [exact Hk|]. split; [|exact Hout].
  intros j Hj. destruct (Hclear j Hj) as [Hin Hfree]. split; [exact Hin|].
  intros b Hb. apply Hfree. unfold handleToolRemove in Hb. now apply filter_In in Hb.
Qed.

(** X19. The remove tool takes out every piece of the given id and
    nothing else, and changes nothing when no piece has the id.  It can
    only open paths: a piece whose ray reached the boundary before still
    reaches it afterwards, so if the hint search had found a piece other
    than the removed one, it still finds one. *)
Theorem remove_opens_paths (gs : Z) (cs : list CatEntity) (ident : string) :
  (forall c, In c (handleToolRemove cs ident) <-> In c cs /\ id c <> ident) /\
  ((forall c, In c cs -> id c <> ident) -> handleToolRemove cs ident = cs) /\
  (forall c, ReachesBoundary gs cs c ->
             ReachesBoundary gs (handleToolRemove cs ident) c) /\
  (forall c, findHint gs cs = Some c -> id c <> ident ->
             findHint gs (handleToolRemove cs ident) <> None).
Proof.
  split; [|split; [|split]].
  - intros c. unfold handleToolRemove. rewrite filter_In, negb_true_iff.
    destruct (String.eqb_spec (id c) ident); split; intros [H1 H2]; split;
      auto; try discriminate; contradiction.
  - intros Hnone. unfold handleToolRemove. apply filter_all.
    apply List.Forall_forall. intros c Hc. apply negb_true_iff.
    destruct (String.eqb_spec (id c) ident) as [E|E]; [|reflexivity].
    exfalso. exact (Hnone c Hc E).
  - intros c. apply ReachesBoundary_remove.
  - intros c Hhint Hid. unfold findHint in Hhint. apply find_some in Hhint.
    destruct Hhint as [Hin Hcan]. apply filter_In in Hin. destruct Hin as [Hin Hact].
    rewrite canExit_raycast in Hcan. apply willExit_ReachesBoundary in Hcan.
    apply (ReachesBoundary_remove gs cs ident) in Hcan.
    apply willExit_ReachesBoundary in Hcan. rewrite <- canExit_raycast in Hcan.
    assert (Hin' : In c (List.filter active (handleToolRemove cs ident))).
    { apply filter_In. split; [|exact Hact]. unfold handleToolRemove.
      apply filter_In. split; [exact Hin|]. apply negb_true_iff.
      destruct (String.eqb_spec (id c) ident); [contradiction | reflexivity]. }
    unfold findHint.
    destruct (find_is_Some _ _ c Hin' Hcan) as [c' ->]. discriminate.
Qed.

(** ** The shuffle keeps a piece *)

Lemma rehome_places (gs : Z) (oldCat : CatEntity) (cell : Cell)
    (dirs : list Direction) (st : ShuffleState) (dir : Direction) :
  In dir dirs ->
  isValid (fst cell - dx (getDelta dir)) (snd cell - dy (getDelta dir)) gs = true ->
  isOccupied (fst cell - dx (getDelta dir)) (snd cell - dy (getDelta dir)) (snd st)
    = false ->
  exists st', rehome gs oldCat cell dirs st = Some st' /\
              length (fst st') = S (length (fst st)).
Proof.
  intros Hin Hv Ho. induction dirs as [|d rest IH]; [contradiction|].
  cbn [rehome].
  destruct (isValid _ _ gs && negb (isOccupied _ _ (snd st)))%bool eqn:E.
  - eexists. split; [reflexivity|]. cbn [fst]. rewrite length_app. cbn [length]. lia.
  - destruct Hin as [->|Hin]; [|now apply IH].
    rewrite Hv, Ho in E. discriminate.
Qed.

Section ShuffleKeeps.

Variable randomSort : forall A : Type, list A -> nat -> list A * nat.

Hypothesis randomSort_reorders :
  forall (A : Type) (l : list A) (n : nat), Permutation (fst (randomSort A l n)) l.

Lemma placeAll_first (gs : Z) (a : CatEntity) (rest : list CatEntity)
    (cells : list Cell) (s : nat) :
  2 <= gs -> Permutation cells (allCells gs) ->
  (1 <= length (fst (fst (placeAll randomSort gs (a :: rest) cells ([], ∅) s))))%nat.
Proof.
  intros Hgs Hcells.
  assert (Hlen : Z.of_nat (length cells) = Z.max 0 gs * Z.max 0 gs).
  { rewrite (Permutation_length Hcells). apply allCells_length. }
  destruct cells as [|cell cells']; [cbn [length] in Hlen; nia|].
  assert (Hvalid : isValid (fst cell) (snd cell) gs = true).
  { apply allCells_valid. eapply Permutation_in; [exact Hcells | now left]. }
  assert (Hfree : forall p q, isOccupied p q (∅ : gset Cell) = false).
  { intros p q. unfold isOccupied. apply bool_decide_eq_false. set_solver. }
  cbn [placeAll placeOne]. unfold bind at 1. cbn [fst snd]. rewrite Hfree.
  unfold bind at 1.
  assert (Hdirs := randomSort_reorders Direction [UP; DOWN; LEFT; RIGHT] s).
  destruct (randomSort Direction [UP; DOWN; LEFT; RIGHT] s) as [dirs s1].
  cbn [fst] in Hdirs.
  destruct (cell_has_neighbour gs cell Hgs Hvalid) as [dir Hdir].
  assert (Hin : In dir dirs).
  { eapply Permutation_in; [symmetry; exact Hdirs | apply In_all_directions]. }
  destruct (rehome_places gs a cell dirs ([], ∅) dir Hin Hdir (Hfree _ _))
    as (st1 & -> & Hone).
  unfold ret.
  destruct (placeAll_kept randomSort gs (cell :: cells') rest st1 s1)
    as (kept & placed & _ & _ & ->).
  rewrite length_app. cbn [length] in Hone. lia.
Qed.

Lemma shuffleCats_keeps_one (gs : Z) (cs : list CatEntity) (s : nat) :
  2 <= gs -> (exists c, In c cs /\ isExited c = false) ->
  (1 <= length (List.filter active (fst (shuffleCats randomSort cs gs s))))%nat.
Proof.
  intros Hgs (c & Hc & Hact).
  destruct (shuffleCats_counts randomSort cs gs s) as (placed & Hp & Hne & _ & Hpl).
  assert (Hrs := randomSort_reorders Cell (allCells gs) s).
  destruct (randomSort Cell (allCells gs) s) as [cells s1] eqn:Ers. cbn [fst] in Hrs.
  specialize (Hpl cells s1 eq_refl).
  assert (Hin : In c (List.filter active cs)).
  { apply filter_In. split; [exact Hc|]. unfold active. now rewrite Hact. }
  destruct (List.filter active cs) as [|a rest] eqn:Ea; [contradiction|].
  assert (Hone := placeAll_first gs a rest cells s1 Hgs Hrs).
  rewrite <- Hpl in Hone.
  rewrite (Permutation_length (filter_Permutation_bool active _ _ Hp)).
  rewrite List.filter_app, length_app.
  assert (HfP : List.filter active placed = placed).
  { apply filter_all. eapply Forall_impl; [exact Hne|]. cbn beta.
    intros b Hb. unfold active. now rewrite Hb. }
  rewrite HfP. lia.
Qed.

End ShuffleKeeps.

(** X20. On a grid of at least two cells a side, with a
    random-comparator sort that reorders its array, a shuffle of a board
    with an active piece returns a board with an active piece: the
    first active piece always finds a place, so a shuffle never empties
    the board of active pieces. *)
Theorem shuffle_keeps_an_active_piece
    (randomSort : forall A : Type, list A -> nat -> list A * nat)
    (gs : Z) (cs : list CatEntity) (s : nat) :
  (forall (A : Type) (l : list A) (n : nat), Permutation (fst (randomSort A l n)) l) ->
  2 <= gs ->
  (exists c, In c cs /\ isExited c = false) ->
  (1 <= length (List.filter active (fst (shuffleCats randomSort cs gs s))))%nat /\
  winCondition (fst (shuffleCats randomSort cs gs s)) = false.
Proof.
  intros Hperm Hgs Hex.
  assert (H := shuffleCats_keeps_one randomSort Hperm gs cs s Hgs Hex).
  split; [exact H|]. unfold winCondition. cbv zeta.
  destruct (Z.eqb_spec (Z.of_nat (length (List.filter active
              (fst (shuffleCats randomSort cs gs s))))) 0) as [E|E]; [lia|].
  apply andb_false_r.
Qed.

Lemma shuffle_keeps_an_active_piece_witness :
  (forall (A : Type) (l : list A) (n : nat), Permutation (fst (reverseOrder A l n)) l) /\
  2 <= 8 /\
  (exists c, In c [scenarioA; exitedCat; scenarioB] /\ isExited c = false) /\
  (1 <= length (List.filter active
                  (fst (shuffleCats reverseOrder [scenarioA; exitedCat; scenarioB] 8 0%nat))))%nat.
Proof.
  assert (Hex : exists c, In c [scenarioA; exitedCat; scenarioB] /\ isExited c = false)
    by (exists scenarioA; split; [now left | reflexivity]).
  split; [exact reverseOrder_reorders|]. split; [lia|]. split; [exact Hex|].
  exact (proj1 (shuffle_keeps_an_active_piece reverseOrder 8
                  [scenarioA; exitedCat; scenarioB] 0%nat
                  reverseOrder_reorders ltac:(lia) Hex)).
Defined.

(** ** One click moves a piece as far as it goes *)

Lemma outOfGrid_Qeq (gs : Z) (nx ny nx' ny' : Q) :
  (nx == nx')%Q -> (ny == ny')%Q -> outOfGrid gs nx ny = outOfGrid gs nx' ny'.
Proof.
  intros Ex Ey.
  destruct (outOfGrid gs nx ny) eqn:E1, (outOfGrid gs nx' ny') eqn:E2; try reflexivity.
  - apply outOfGrid_false in E2. assert (F : outOfGrid gs nx ny = false).
    { apply outOfGrid_false. rewrite Ex, Ey. exact E2. }
    congruence.
  - apply outOfGrid_false in E1. assert (F : outOfGrid gs nx' ny' = false).
    { apply outOfGrid_false. rewrite <- Ex, <- Ey. exact E1. }
    congruence.
Qed.

Lemma occupies_Qeq (b : CatEntity) (nx ny nx' ny' : Q) :
  (nx == nx')%Q -> (ny == ny')%Q -> occupies b nx ny -> occupies b nx' ny'.
Proof.
  intros Ex Ey [[H1 H2]|[H1 H2]]; [left | right]; split;
    first [ now rewrite <- Ex | now rewrite <- Ey ].
Qed.

Lemma findIndex_insert_same_id (cs : list CatEntity) (idx : nat) (cat cat' : CatEntity)
    (ident : string) :
  cs !! idx = Some cat -> id cat' = id cat ->
  findIndex (fun c => String.eqb (id c) ident) (<[idx := cat']> cs)
  = findIndex (fun c => String.eqb (id c) ident) cs.
Proof.
  revert idx. induction cs as [|a cs IH]; intros [|idx] Hc Hid; cbn in Hc; try discriminate.
  - injection Hc as ->. change (<[0%nat := cat']> (cat :: cs)) with (cat' :: cs).
    cbn [findIndex]. now rewrite Hid.
  - change (<[S idx := cat']> (a :: cs)) with (a :: <[idx := cat']> cs).
    cbn [findIndex]. now rewrite (IH idx Hc Hid).
Qed.

Lemma In_insert_other (cs : list CatEntity) (idx : nat) (cat cat' b : CatEntity) :
  cs !! idx = Some cat -> In b cs -> id b <> id cat -> In b (<[idx := cat']> cs).
Proof.
  revert idx. induction cs as [|a cs IH]; intros [|idx] Hc Hb Hid; cbn in Hc;
    try discriminate.
  - injection Hc as ->. change (<[0%nat := cat']> (cat :: cs)) with (cat' :: cs).
    destruct Hb as [->|Hb]; [contradiction | now right].
  - change (<[S idx := cat']> (a :: cs)) with (a :: <[idx := cat']> cs).
    destruct Hb as [->|Hb]; [now left | right; now apply (IH idx)].
Qed.

(** A piece that stands right before an obstacle does not move. *)
Lemma blocked_first_step (gs : Z) (cs : list CatEntity) (cat b : CatEntity) :
  outOfGrid gs (stepX cat 1) (stepY cat 1) = false ->
  In b cs -> id b <> id cat -> isExited b = false ->
  occupies b (stepX cat 1) (stepY cat 1) ->
  let r := raycast gs cs cat in
  (Qeq_bool (targetX r) (x cat) && Qeq_bool (targetY r) (y cat))%bool = true.
Proof.
  intros Hin Hb Hid Hact Hocc. cbn zeta.
  assert (Hgs : 0 < gs).
  { apply outOfGrid_false in Hin. destruct Hin as (L & U & _).
    assert (Q0 : (inject_Z 0 < inject_Z gs)%Q) by (change (inject_Z 0) with 0%Q; lra).
    now rewrite <- Zlt_Qlt in Q0. }
  assert (Hobs : obstructs (id cat) (stepX cat 1) (stepY cat 1) b = true)
    by (apply obstructs_true; auto).
  destruct (find_is_Some _ _ _ Hb Hobs) as [b' Hfind].
  unfold raycast.
  rewrite (raycastLoop_blocked gs cs cat (Z.to_nat gs) 1 (x cat) (y cat) 1 b');
    [|lia|intros j Hj; lia|exact Hin|exact Hfind].
  cbn [targetX targetY]. apply andb_true_iff. split; apply Qeq_bool_iff.
  - rewrite stepX_pred. apply stepX_0.
  - rewrite stepY_pred. apply stepY_0.
Qed.

(** X21. A second click on the same piece does nothing: one click
    moves a piece whose head is in the grid as far as it can go, to the
    cell before the first obstacle or out of the grid. *)
Theorem second_click_is_noop (gs : Z) (cs : list CatEntity) (ident : string) :
  (forall c, In c cs -> id c = ident -> isExited c = false -> inGrid gs (x c) (y c)) ->
  handleCatClick gs (handleCatClick gs cs ident) ident = handleCatClick gs cs ident.
Proof.
  intros Hgrid.
  destruct (resolveMove gs cs ident) as [cs'|] eqn:Hfirst.
  2: { unfold handleCatClick. rewrite Hfirst. now rewrite Hfirst. }
  assert (E1 : handleCatClick gs cs ident = cs') by (unfold handleCatClick; now rewrite Hfirst).
  rewrite E1. unfold resolveMove in Hfirst.
  destruct (findIndex (fun c => String.eqb (id c) ident) cs) as [idx|] eqn:Hidx;
    [|discriminate].
  destruct (findIndex_Some _ _ _ Hidx) as (cat & Hcat & Hp & _).
  apply String.eqb_eq in Hp. rewrite Hcat in Hfirst.
  destruct (isExited cat) eqn:Hact; [discriminate|].
  destruct (_ && _)%bool eqn:Hsame; [discriminate|].
  injection Hfirst as <-.
  set (r := raycast gs cs cat) in *. set (cat' := moved cat r).
  assert (Hin : In cat cs) by (eapply lookup_In; exact Hcat).
  assert (Hlt : (idx < length cs)%nat) by (eapply lookup_lt_Some; exact Hcat).
  assert (Hsecond : resolveMove gs (<[idx := cat']> cs) ident = None);
    [|unfold handleCatClick; now rewrite Hsecond].
  unfold resolveMove.
  rewrite (findIndex_insert_same_id cs idx cat cat' ident Hcat eq_refl), Hidx.
  rewrite list_lookup_insert_eq by exact Hlt.
  destruct (isExited cat') eqn:Hex'; [reflexivity|].
  assert (Hg := Hgrid cat Hin Hp Hact).
  unfold cat', moved in Hex'. cbn [isExited] in Hex'.
  unfold r, raycast in Hex', Hsame.
  destruct (raycastLoop_cases gs cs cat (Z.to_nat gs) 1 (x cat) (y cat)
              ltac:(symmetry; apply stepX_0) ltac:(symmetry; apply stepY_0))
    as [(k & _ & _ & _ & Hr) | (m & Hm & Hcl & _ & Htx & Hty & Hend)];
    [rewrite Hr in Hex'; discriminate|].
  assert (Hgs := inGrid_size_pos gs _ _ Hg).
  assert (Hblock : outOfGrid gs (stepX cat (m + 1)) (stepY cat (m + 1)) = false /\
                   exists b, find (obstructs (id cat) (stepX cat (m + 1))
                                     (stepY cat (m + 1))) cs = Some b).
  { destruct Hend as [->|Hend]; [|exact Hend]. exfalso.
    replace (1 + Z.of_nat (Z.to_nat gs) - 1) with gs in Hcl by lia.
    destruct (Hcl gs ltac:(lia)) as [Hc _].
    rewrite (ray_leaves_grid gs cat Hg) in Hc. discriminate. }
  destruct Hblock as (Hin1 & b & Hfind). apply find_some in Hfind.
  destruct Hfind as [Hb Hobs]. apply obstructs_true in Hobs.
  destruct Hobs as (Hid & Hbact & Hocc).
  fold (raycastLoop gs cs cat (Z.to_nat gs) 1 (x cat) (y cat)) in Htx, Hty.
  assert (Sx : (stepX cat' 1 == stepX cat (m + 1))%Q).
  { unfold stepX at 1. cbn [x direction cat' moved]. fold r. unfold r, raycast.
    rewrite Htx. unfold stepX. rewrite inject_Z_plus. ring. }
  assert (Sy : (stepY cat' 1 == stepY cat (m + 1))%Q).
  { unfold stepY at 1. cbn [y direction cat' moved]. fold r. unfold r, raycast.
    rewrite Hty. unfold stepY. rewrite inject_Z_plus. ring. }
  rewrite (blocked_first_step gs (<[idx := cat']> cs) cat' b); [reflexivity| | | | |].
  - rewrite (outOfGrid_Qeq gs _ _ _ _ Sx Sy). exact Hin1.
  - now apply (In_insert_other cs idx cat cat' b).
  - exact Hid.
  - exact Hbact.
  - apply (occupies_Qeq b (stepX cat (m + 1)) (stepY cat (m + 1))); auto; now symmetry.
Qed.

Lemma second_click_is_noop_witness :
  (forall c, In c [scenarioA; scenarioC] -> id c = "A"%string -> isExited c = false ->
             inGrid 8 (x c) (y c)) /\
  handleCatClick 8 [scenarioA; scenarioC] "A" <> [scenarioA; scenarioC] /\
  handleCatClick 8 (handleCatClick 8 [scenarioA; scenarioC] "A") "A"
  = handleCatClick 8 [scenarioA; scenarioC] "A".
Proof.
  assert (H : forall c, In c [scenarioA; scenarioC] -> id c = "A"%string ->
                        isExited c = false -> inGrid 8 (x c) (y c)).
  { intros c [<-|[<-|[]]] Hid _; [|discriminate].
    unfold inGrid, Qle, Qlt. cbn. lia. }
  split; [exact H|]. split; [vm_compute; discriminate|].
  exact (second_click_is_noop 8 [scenarioA; scenarioC] "A" H).
Defined.

(** ** A flip keeps the cells of a piece *)

(** X22. A flipped piece occupies the cells it occupied before, head
    and tail exchanged: for every cell, the collision test of the
    raycast answers for the flipped piece as it did for the piece. *)
Theorem flip_keeps_cells (c : CatEntity) (nx ny : Q) :
  (isExited c = false ->
   (x (flipCat c) == tailX c /\ y (flipCat c) == tailY c /\
    tailX (flipCat c) == x c /\ tailY (flipCat c) == y c)%Q) /\
  (occupies (flipCat c) nx ny <-> occupies c nx ny).
Proof.
  split; [apply flipCat_cells|].
  destruct (isExited c) eqn:E; [now rewrite (flipCat_exited c E)|].
  destruct (flipCat_cells c E) as (E1 & E2 & E3 & E4).
  assert (R : forall a b : Q, (a == b)%Q -> Math_round a = Math_round b).
  { intros a b Hab. unfold Math_round. now rewrite Hab. }
  unfold occupies.
  rewrite (R _ _ E1), (R _ _ E2), (R _ _ E3), (R _ _ E4). tauto.
Qed.

(** ** The density shown for a fresh level *)

(** X23. With [Math.random] in [[0, 1)], the density shown for a
    freshly generated level is at most 98 percent: at least two cells
    stay empty on a grid of at most 121. *)
Theorem fresh_density_below_99
    (random : nat -> Q) (randomSort : forall A : Type, list A -> nat -> list A * nat)
    (toBase36 : Q -> string) (lvl : Z) (s : nat) :
  (forall n, (0 <= random n)%Q /\ (random n < 1)%Q) ->
  let L := fst (generateLevel random randomSort toBase36 lvl s) in
  0 <= densityPercent (cats L) (gridSize L) <= 98.
Proof.
  intros Hr L.
  destruct (generateLevel_density random randomSort toBase36 Hr lvl s)
    as (_ & _ & Hempty & _). fold L in Hempty.
  assert (Hgs : 8 <= gridSize L <= 11).
  { unfold L, generateLevel, bind.
    destruct (randomBelow random _ s) as [e s1].
    destruct (randomSort Cell _ s1) as [shuffled s2].
    destruct (placeCats _ _ _ _ _ _ _ _) as [st s3]. unfold ret. cbn [fst gridSize].
    apply size_getLevelConfig. }
  unfold densityPercent, Math_round.
  set (n2 := Z.of_nat (length (cats L)) * 2). set (d := gridSize L * gridSize L).
  assert (Hd : 64 <= d <= 121) by (unfold d; nia).
  assert (Hn : 0 <= n2 <= d - 2) by (unfold n2, d; lia).
  assert (Qd : (64 <= inject_Z d)%Q /\ (inject_Z d <= 121)%Q).
  { split; [change 64%Q with (inject_Z 64) | change 121%Q with (inject_Z 121)];
      rewrite <- Zle_Qle; lia. }
  assert (Qn : (0 <= inject_Z n2)%Q /\ (inject_Z n2 <= inject_Z d - 2)%Q).
  { split; [change 0%Q with (inject_Z 0); rewrite <- Zle_Qle; lia|].
    change 2%Q with (inject_Z 2). unfold Qminus. rewrite <- inject_Z_opp, <- inject_Z_plus.
    rewrite <- Zle_Qle. lia. }
  set (q := (inject_Z n2 / inject_Z d * 100)%Q).
  assert (Hq : (q * inject_Z d == 100 * inject_Z n2)%Q).
  { unfold q. field. lra. }
  assert (Q0 : (0 <= q)%Q) by nra.
  assert (Q1 : (q + (1 # 2) < 99)%Q) by nra.
  assert (A := Qfloor_le (q + (1 # 2))). assert (B := Qlt_floor (q + (1 # 2))).
  assert (L1 : (inject_Z 0 < inject_Z (Qfloor (q + (1 # 2)) + 1))%Q)
    by (change (inject_Z 0) with 0%Q; lra).
  assert (L2 : (inject_Z (Qfloor (q + (1 # 2))) < inject_Z 99)%Q)
    by (change (inject_Z 99) with 99%Q; lra).
  rewrite <- Zlt_Qlt in L1, L2. lia.
Qed.

Lemma fresh_density_below_99_witness :
  (forall n, (0 <= variedRandom n)%Q /\ (variedRandom n < 1)%Q) /\
  densityPercent (cats (fst (generateLevel variedRandom reverseOrder demoBase36 5 0%nat)))
                 (gridSize (fst (generateLevel variedRandom reverseOrder demoBase36 5 0%nat)))
  <= 98.
Proof.
  split; [exact variedRandom_unit|].
  exact (proj2 (fresh_density_below_99 variedRandom reverseOrder demoBase36 5 0%nat
                  variedRandom_unit)).
Defined.
